(** * SmartLabelManager: a shallow embedding of
      [packages/smartlabel/src/SmartlabelManager.js]

    The manager measures text through a DOM container, memoises the
    measurements in two caches and fits a text into a bounding box, either on
    one line (truncating with an ellipsis) or wrapped on several lines.

    Conventions of the embedding.
    - JavaScript numbers are rationals ([Q]). The arithmetic of the measures
      ([_calCharDimWithCache], [getOriSize]) rounds every result to binary64
      as the engine does ([b64]); the sums and differences of [getSmartText]
      are exact. The values [NaN] and [Infinity] (a result of [2^1024] or
      more) and the sign of zero are not modelled.
    - JavaScript strings are [string]s, one [ascii] per code unit.
    - A DOM node used for measuring is the pair of functions giving its
      [offsetWidth] and [offsetHeight] once [innerHTML] has been set.
    - Objects used as dictionaries are [gmap]s over their own properties;
      where the code looks up a key that can be a name inherited from
      [Object.prototype] (the store of instances, [htmlSplCharSpace], the
      advanced cache), [inherited] gives what the lookup finds.
    - The functions and constants imported from [./lib] and the container
      manager of [./container-manager] are parameters, gathered in [Lib] and
      [ContainerManager]. *)

From Stdlib Require Import ZArith QArith Qround Qabs String Ascii List Lia Bool.
From stdpp Require Import base option list gmap strings pretty.

Local Open Scope Z_scope.
Local Open Scope nat_scope.

(** ** Numbers *)

(** [x > y] on numbers. *)
Definition Qgtb (x y : Q) : bool := negb (Qle_bool x y).

(** [Math.max(x, y)]. *)
Definition js_max (x y : Q) : Q := if Qle_bool x y then y else x.

(** [Math.round(x)]: the integer nearest to [x], halves rounded up. *)
Definition js_round (x : Q) : Q := inject_Z (Qfloor (x + (1 # 2))).

Definition Qnat (n : nat) : Q := inject_Z (Z.of_nat n).

(** *** Binary64 *)

(** The exponent of [x > 0]: the [k] with [2^k <= x < 2^(k+1)]. *)
Definition Qlog2 (x : Q) : Z :=
  let k := (Z.log2 (Qnum x) - Z.log2 (Zpos (Qden x)))%Z in
  if Qle_bool (Qpower 2 k) x then k else (k - 1)%Z.

(** The integer nearest to [x], a half going to the even one. *)
Definition round_half_even (x : Q) : Z :=
  let f := Qfloor x in
  match Qcompare (x - inject_Z f) (1 # 2) with
  | Lt => f
  | Gt => (f + 1)%Z
  | Eq => if Z.even f then f else (f + 1)%Z
  end.

(** The binary64 number nearest to [x], ties to the even significand: what
    an arithmetic operation returns when its exact result is [x]. The
    significand has 53 bits, down to the unit [2^-1074] of the subnormal
    numbers; the result is in lowest terms. *)
Definition b64 (x : Q) : Q :=
  if Qeq_bool x 0 then 0%Q
  else
    let a := Qabs x in
    let e := Z.max (Qlog2 a - 52) (-1074) in
    let r := Qred (inject_Z (round_half_even (a / Qpower 2 e)) * Qpower 2 e) in
    if Qle_bool 0 x then r else Qopp r.
Arguments b64 : simpl never.

(** [x + y], [x - y], [x * y] and [x / y] on numbers. *)
Definition js_add (x y : Q) : Q := b64 (x + y).
Definition js_sub (x y : Q) : Q := b64 (x - y).
Definition js_mul (x y : Q) : Q := b64 (x * y).
Definition js_div (x y : Q) : Q := b64 (x / y).

(** ** Strings and arrays *)

Module JS.

(** The characters matched by [\s] (code units below 256). *)
Definition is_ws (c : ascii) : bool :=
  let n := nat_of_ascii c in
  ((9 <=? n) && (n <=? 13)) || (n =? 32) || (n =? 160).

(** [s.split('')]. *)
Fixpoint split_chars (s : string) : list string :=
  match s with
  | EmptyString => []
  | String c s' => String c EmptyString :: split_chars s'
  end.

(** [a.join('')]. *)
Definition join (a : list string) : string := String.concat "" a.

(** [s.repeat(n)]. *)
Fixpoint repeat_str (s : string) (n : nat) : string :=
  match n with
  | O => ""
  | S n' => s +:+ repeat_str s n'
  end.

(** [s.substr(start, count)] for a start that is not negative; a count that
    is negative selects nothing. *)
Definition substr (s : string) (start : nat) (count : Z) : string :=
  String.substring start (Z.to_nat count) s.

(** [s.substr(start)]. *)
Definition substr_from (s : string) (start : nat) : string :=
  String.substring start (String.length s) s.

(** [s.lastIndexOf(c)] for a one-character [c]: [-1] when absent. *)
Fixpoint lastIndexOf_from (c : ascii) (s : string) (pos : Z) (found : Z) : Z :=
  match s with
  | EmptyString => found
  | String d s' =>
      lastIndexOf_from c s' (pos + 1)%Z (if Ascii.eqb c d then pos else found)
  end.

Definition lastIndexOf (s : string) (c : ascii) : Z :=
  lastIndexOf_from c s 0%Z (-1)%Z.

(** [a.slice(start, end)], negative indices counting from the end. *)
Definition slice {A} (a : list A) (start end_ : Z) : list A :=
  let len := Z.of_nat (length a) in
  let k := if (start <? 0)%Z then Z.max (len + start) 0 else Z.min start len in
  let final := if (end_ <? 0)%Z then Z.max (len + end_) 0 else Z.min end_ len in
  take (Z.to_nat (final - k)) (drop (Z.to_nat k) a).

(** [a.splice(start, 1, v)] for a start that is not negative: the element at
    [start] is replaced; past the end, [v] is appended. *)
Definition splice1 {A} (a : list A) (start : nat) (v : A) : list A :=
  take start a ++ v :: drop (S start) a.

(** [a[i] = v] on an array of strings: past the end the array grows, and
    the holes in between read as the empty string in [join]. *)
Definition array_set (a : list string) (i : nat) (v : string) : list string :=
  if i <? length a then <[i := v]> a
  else a ++ replicate (i - length a) ""%string ++ [v].

(** [str.replace(/^\s\s*/, '')]. *)
Fixpoint drop_ws (s : string) : string :=
  match s with
  | EmptyString => ""
  | String c s' => if is_ws c then drop_ws s' else s
  end.

(** The [while] loop of [fastTrim] followed by its [slice]: white space is
    removed at the end of the string. *)
Fixpoint drop_ws_end (s : string) : string :=
  match s with
  | EmptyString => ""
  | String c s' =>
      match drop_ws_end s' with
      | EmptyString => if is_ws c then "" else String c ""
      | r => String c r
      end
  end.

(** The local function [fastTrim] of [getSmartText]. *)
Definition fastTrim (str : string) : string := drop_ws_end (drop_ws str).

(** [s.replace(/(\s+)/g, ' ')]: every run of white space becomes one
    space. [inrun] tells that the previous character was white space. *)
Fixpoint collapse_ws_from (inrun : bool) (s : string) : string :=
  match s with
  | EmptyString => ""
  | String c s' =>
      if is_ws c then
        if inrun then collapse_ws_from true s'
        else String " " (collapse_ws_from true s')
      else String c (collapse_ws_from false s')
  end.

Definition collapse_ws (s : string) : string := collapse_ws_from false s.

(** *** The separator [/\n|<br\s*?\/?>/ig] *)

Definition is_b (c : ascii) : bool := Ascii.eqb c "b" || Ascii.eqb c "B".
Definition is_r (c : ascii) : bool := Ascii.eqb c "r" || Ascii.eqb c "R".

(** After [<br]: white space, an optional [/], then [>]. The result is the
    number of characters matched. White space is neither [/] nor [>], so
    the lazy [\s*?] always ends up taking the whole run. *)
Fixpoint match_br_tail (s : string) : option nat :=
  match s with
  | EmptyString => None
  | String c s' =>
      if is_ws c then S <$> match_br_tail s'
      else if Ascii.eqb c "/" then
        match s' with
        | String d _ => if Ascii.eqb d ">" then Some 2 else None
        | EmptyString => None
        end
      else if Ascii.eqb c ">" then Some 1
      else None
  end.

(** The length of the match of the separator at the start of [s]. *)
Definition match_sep (s : string) : option nat :=
  match s with
  | String c s1 =>
      if Ascii.eqb c "010" then Some 1
      else if Ascii.eqb c "<" then
        match s1 with
        | String b (String r s3) =>
            if is_b b && is_r r then (fun n => 3 + n) <$> match_br_tail s3
            else None
        | _ => None
        end
      else None
  | EmptyString => None
  end.

(** [s.split(/\n|<br\s*?\/?>/ig)]. [skip] counts the characters of the
    current match still to be consumed, [cur] is the piece being read. *)
Fixpoint split_sep_from (skip : nat) (cur : string) (s : string) : list string :=
  match s with
  | EmptyString => [cur]
  | String c s' =>
      match skip with
      | S k => split_sep_from k cur s'
      | O =>
          match match_sep s with
          | Some n => cur :: split_sep_from (pred n) "" s'
          | None => split_sep_from 0 (cur +:+ String c "") s'
          end
      end
  end.

Definition split_sep (s : string) : list string := split_sep_from 0 "" s.

End JS.

(** ** Values *)

(** The values a caller can pass where a text is expected. [JNum] carries an
    integer and stands for the number nearest to it; [JArr] is an array of
    strings; [JOther] is any other object, given by what its [toString()]
    returns. *)
Inductive jsval :=
| JUndefined
| JNull
| JBool (b : bool)
| JNum (z : Z)
| JStr (s : string)
| JArr (a : list string)
| JOther (str : string).

Definition truthy (v : jsval) : bool :=
  match v with
  | JUndefined | JNull => false
  | JBool b => b
  | JNum z => negb (z =? 0)%Z
  | JStr s => negb (String.eqb s "")
  | JArr _ | JOther _ => true
  end.

(** The number of decimal digits of [a > 0]. *)
Definition digits10 (a : Z) : Z := Z.of_nat (String.length (pretty a)).

(** The integer with the fewest significant digits, [k] or more, that reads
    back as the number [a] (a positive integer that is a binary64 number),
    the nearest to [a] when two have as few. *)
Fixpoint shortest_from (fuel : nat) (k : Z) (a : Z) : Z :=
  match fuel with
  | O => a
  | S fuel' =>
      let unit := (10 ^ (digits10 a - k))%Z in
      let lo := (a / unit * unit)%Z in
      let hi := (lo + unit)%Z in
      let reads_back c := Qeq_bool (b64 (inject_Z c)) (inject_Z a) in
      match reads_back lo, reads_back hi with
      | true, true =>
          if (a - lo <? hi - a)%Z then lo
          else if (hi - a <? a - lo)%Z then hi
          else if Z.even (lo / unit) then lo else hi
      | true, false => lo
      | false, true => hi
      | false, false => shortest_from fuel' (k + 1)%Z a
      end
  end.

Definition shortest (a : Z) : Z :=
  shortest_from (Z.to_nat (Z.min (digits10 a) 17)) 1 a.

Fixpoint strip_zeros (fuel : nat) (c : Z) : Z :=
  match fuel with
  | O => c
  | S fuel' => if (c mod 10 =? 0)%Z then strip_zeros fuel' (c / 10)%Z else c
  end.

(** [Number.prototype.toString()] for the number nearest to the integer [z]:
    the digits of the integer below [2^53]; beyond, the fewest digits that
    read back as the number, followed by zeros, or in exponent form from
    [1e21] on. *)
Definition number_toString (z : Z) : string :=
  if (Z.abs z <? 2 ^ 53)%Z then pretty z
  else
    let v := Qnum (b64 (inject_Z z)) in
    let c := shortest (Z.abs v) in
    let sign := if (v <? 0)%Z then "-" else "" in
    let n := digits10 c in
    if (n <=? 21)%Z then sign +:+ pretty c
    else
      match pretty (strip_zeros (Z.to_nat n) c) with
      | String d rest =>
          sign +:+ String d (if String.eqb rest "" then "" else "." +:+ rest)
          +:+ "e+" +:+ pretty (n - 1)%Z
      | EmptyString => ""
      end.

(** [v.toString()] for a value that is neither [undefined] nor [null]. *)
Definition js_toString (v : jsval) : string :=
  match v with
  | JUndefined => "undefined"
  | JNull => "null"
  | JBool b => if b then "true" else "false"
  | JNum z => number_toString z
  | JStr s => s
  | JArr a => String.concat "," a
  | JOther str => str
  end.

(** ** Inherited properties *)

(** The functions every object inherits from [Object.prototype], besides
    [constructor]. *)
Definition inherited_functions : list string :=
  ["hasOwnProperty"; "isPrototypeOf"; "propertyIsEnumerable";
   "toLocaleString"; "toString"; "valueOf"; "__defineGetter__";
   "__defineSetter__"; "__lookupGetter__"; "__lookupSetter__"].

(** What a lookup of [name] finds in an object that does not have the
    property itself, once converted to a string (as the assignment to
    [innerHTML] does): the source text of a native function, as V8 and
    JavaScriptCore write it, or [[object Object]] for [__proto__]. All of
    these values are truthy, and none has a [split] or a [dispose]
    method. *)
Definition inherited_text (name : string) : option string :=
  if String.eqb name "constructor"
  then Some "function Object() { [native code] }"
  else if String.eqb name "__proto__" then Some "[object Object]"
  else if existsb (String.eqb name) inherited_functions
  then Some ("function " +:+ name +:+ "() { [native code] }")
  else None.

(** [name] is a property every object inherits. *)
Definition inherited (name : string) : bool :=
  if inherited_text name is Some _ then true else false.

(** Whether [s] holds the letters [init] in a row, as every correction key
    of the advanced cache does. *)
Fixpoint holds_init (s : string) : bool :=
  match s with
  | EmptyString => false
  | String _ s' => String.prefix "init" s || holds_init s'
  end.

(** ** [textToLines] *)

(** Objects live in a heap; a reference is a location of the heap. An object
    is the map of its own properties. *)
Definition loc := nat.
Abbreviation obj := (gmap string jsval).
Abbreviation heap := (gmap loc obj).

(** What [textToLines] can be called with: nothing, [null] or an object. *)
Inductive ref_arg := AUndefined | ANull | ARef (l : loc).

(** [smartlabel.prop]. *)
Definition get_prop (o : obj) (p : string) : jsval := default JUndefined (o !! p).

(** [SmartLabelManager.textToLines(smartlabel)]: the reference returned and
    the heap after the call. *)
Definition textToLines (smartlabel : ref_arg) (h : heap) : loc * heap :=
  (* smartlabel = smartlabel || {}; *)
  let '(l, h) :=
    match smartlabel with
    | ARef l => (l, h)
    | AUndefined | ANull => let l := fresh (dom h) in (l, <[l := ∅]> h)
    end in
  let o := h !!! l in
  let text :=
    if negb (truthy (get_prop o "text")) then ""%string
    else match get_prop o "text" with
         | JStr s => s
         | v => js_toString v
         end in
  (l, <[l := <["lines" := JArr (JS.split_sep text)]> (<["text" := JStr text]> o)]> h).


(** ** The manager and what it measures with *)

(** A node used for measuring: [offsetWidth s] and [offsetHeight s] are what
    the node reports once its [innerHTML] has been set to [s]. *)
Record Node := {
  offsetWidth : string → Q;
  offsetHeight : string → Q
}.

(** The style object; [styleRef] is its identity (for [===]). *)
Record Style := {
  styleRef : nat;
  fontSize : option string;
  fontFamily : option string;
  fontWeight : option string;
  fontStyle : option string
}.

(** What the container manager hands out for a style ([sCont]). [svgText],
    when present, gives the width of the bounding box of the SVG text node
    once its [textContent] has been set. *)
Record ContainerObj := {
  node : option Node;
  context : bool;
  charCache : gmap string Q;
  lineHeight : Q;
  ellipsesWidth : Q;
  dotWidth : Q;
  svgText : option (string → Q)
}.

Module ContainerManager.
(** The container manager of [./container-manager], by its [get]. *)
Record t := { get : Style → option ContainerObj }.
End ContainerManager.

(** An entry of the advanced cache: the number stored under an [init] key,
    or the string [width + ',' + height] stored under a plain key. *)
Inductive cval :=
| CNum (q : Q)
| CDim (w h : Q).

(** The fields of [this]. A field that is [undefined] (never set, or
    deleted) is [None]; [_advancedCache] and [_advancedCacheKey] are created
    on first use, so undefined and empty are the same for them. *)
Record Manager := {
  _init : bool;
  id : option string;
  parentContainer : option Node;
  _containerManager : option ContainerManager.t;
  _showNoEllipses : option bool;
  style : option Style;
  maxCacheLimit : Q;
  _containerObj : option ContainerObj;
  _container : option Node;
  _context : bool;
  _cache : option (gmap string Q);
  _lineHeight : option Q;
  _styleNotSet : bool;
  _advancedCache : gmap string cval;
  _advancedCacheKey : list string
}.

Definition set_advanced (c : gmap string cval) (k : list string) (this : Manager) :=
  {| _init := _init this; id := id this; parentContainer := parentContainer this;
     _containerManager := _containerManager this;
     _showNoEllipses := _showNoEllipses this; style := style this;
     maxCacheLimit := maxCacheLimit this; _containerObj := _containerObj this;
     _container := _container this; _context := _context this;
     _cache := _cache this; _lineHeight := _lineHeight this;
     _styleNotSet := _styleNotSet this;
     _advancedCache := c; _advancedCacheKey := k |}.

(** [this._cache[k] = ...]. In the source [this._cache] is the object
    [sCont.charCache] itself (line 239): [_cache] is what that object holds
    now, and [charCache] what it held when the container manager handed the
    container object out. What the container manager keeps of it for a later
    [setStyle] is its own code. *)
Definition set_cache (c : gmap string Q) (this : Manager) :=
  {| _init := _init this; id := id this; parentContainer := parentContainer this;
     _containerManager := _containerManager this;
     _showNoEllipses := _showNoEllipses this; style := style this;
     maxCacheLimit := maxCacheLimit this; _containerObj := _containerObj this;
     _container := _container this; _context := _context this;
     _cache := Some c; _lineHeight := _lineHeight this;
     _styleNotSet := _styleNotSet this;
     _advancedCache := _advancedCache this;
     _advancedCacheKey := _advancedCacheKey this |}.

Definition set_showNoEllipses (b : bool) (this : Manager) :=
  {| _init := _init this; id := id this; parentContainer := parentContainer this;
     _containerManager := _containerManager this;
     _showNoEllipses := Some b; style := style this;
     maxCacheLimit := maxCacheLimit this; _containerObj := _containerObj this;
     _container := _container this; _context := _context this;
     _cache := _cache this; _lineHeight := _lineHeight this;
     _styleNotSet := _styleNotSet this;
     _advancedCache := _advancedCache this;
     _advancedCacheKey := _advancedCacheKey this |}.

(** What [./lib] and the environment provide. *)
Record Lib := {
  isWebKit : bool;                          (* documentSupport.isWebKit *)
  isBrowserLess : bool;                     (* documentSupport.isBrowserLess *)
  xmlTagRegEx_test : string → bool;         (* slLib.xmlTagRegEx.test(text) *)
  ltgtRegex_replace : string → string;      (* text.replace(slLib.ltgtRegex, ...) *)
  getNearestBreakIndex : string → Q → Manager → Z;
  setLineHeight : Style → Style
}.

(** ** Results of a call *)

(** A call returns, throws (the manager as it was when the exception left the
    method), or leaves what is modelled: the places are marked where they
    occur. *)
Inductive outcome (A : Type) : Type :=
| Ret (a : A) (this : Manager)
| Throws (e : string) (this : Manager)
| OutOfModel.
Arguments Ret {A} a this.
Arguments Throws {A} e this.
Arguments OutOfModel {A}.

Definition M (A : Type) : Type := Manager → outcome A.

Definition ret {A} (a : A) : M A := fun this => Ret a this.

Definition bind {A B} (c : M A) (k : A → M B) : M B :=
  fun this =>
    match c this with
    | Ret a this' => k a this'
    | Throws e this' => Throws e this'
    | OutOfModel => OutOfModel
    end.

Notation "'do' x <~ c ; k" := (bind c (fun x => k))
  (at level 10, x name, c at level 100, k at level 200, only parsing).
Notation "'do' ' pat <~ c ; k" := (bind c (fun x => match x with pat => k end))
  (at level 10, pat pattern, c at level 100, k at level 200, only parsing).

Definition TypeError : string := "TypeError".

(** A method that returns [false] when the manager is not initialised. *)
Inductive orFalse (A : Type) : Type :=
| IsFalse
| Val (a : A).
Arguments IsFalse {A}.
Arguments Val {A} a.

(** ** [_calCharDimWithCache] *)

Module Size.
Record t := { width : Q; height : Q }.
End Size.

(** [htmlSplCharSpace[text] && (text = htmlSplCharSpace[text])], the text
    being then repeated and assigned to [innerHTML]. The object has the one
    property [' ']; for a name every object inherits the lookup finds the
    inherited value, which is measured in the place of the text. *)
Definition htmlSplCharSpace (text : string) : string :=
  if String.eqb text " " then "&nbsp;" else default text (inherited_text text).

(** The style part of a cache key: the four style fields, each replaced by
    the empty string when falsy, concatenated. *)
Definition style_suffix (st : option Style) : string :=
  match st with
  | None => ""
  | Some s =>
      default "" (fontSize s) +:+ default "" (fontFamily s) +:+
      default "" (fontWeight s) +:+ default "" (fontStyle s)
  end.

(** [if (advancedCacheKey.length > maxAdvancedCacheLimit)
       delete cache[advancedCacheKey.shift()];] *)
Definition evict (limit : Q) (cache : gmap string cval) (keys : list string)
  : gmap string cval * list string :=
  if Qgtb (Qnat (length keys)) limit then
    match keys with
    | k :: keys' => (delete k cache, keys')
    | [] => (delete "undefined"%string cache, [])
    end
  else (cache, keys).

(** [cache[key] = v; advancedCacheKey.push(key);] and the eviction. *)
Definition cache_store (key : string) (v : cval) (this : Manager) : Manager :=
  let '(c, k) := evict (maxCacheLimit this)
                   (<[key := v]> (_advancedCache this))
                   (_advancedCacheKey this ++ [key]) in
  set_advanced c k this.

(** The correction of a character measured [length] times in a row:
    [(tw - length * twi) / (length + 1)]. *)
Definition asymmetric (n : Node) (text : string) (length : nat) : Q :=
  let tw := offsetWidth n (JS.repeat_str text length) in
  let twi := offsetWidth n text in
  js_div (js_sub tw (js_mul (Qnat length) twi)) (js_add (Qnat length) 1).

(** The first half of the method: the value of [asymmetricDifference]. The
    key holds [init], which no inherited name does
    ([init_key_not_inherited]): the lookup finds own properties only. *)
Definition asymmetricDifference (cacheInitName text : string)
    (calculateDifference : bool) (length : nat) : M Q := fun this =>
  if negb calculateDifference then Ret 0%Q this
  else
    match _advancedCache this !! cacheInitName with
    | Some (CNum q) => Ret q this
    | Some (CDim _ _) =>
        (* the correction read back is a string, and the sum below a
           concatenation of strings *)
        OutOfModel
    | None =>
        match _container this with
        | None => Throws TypeError this
        | Some n =>
            let d := asymmetric n text length in
            Ret d (cache_store cacheInitName (CNum d) this)
        end
    end.

(** The second half: the size, from the cache or measured and cached. *)
Definition cachedOrMeasured (cacheName text : string) (asym : Q) : M Size.t :=
  fun this =>
    let measure :=
      match _container this with
      | None => Throws TypeError this
      | Some n =>
          let size := {| Size.height := offsetHeight n text;
                         Size.width := js_add (offsetWidth n text) asym |} in
          Ret size (cache_store cacheName
                      (CDim (Size.width size) (Size.height size)) this)
      end in
    match _advancedCache this !! cacheName with
    | Some (CDim w h) => Ret {| Size.width := w; Size.height := h |} this
    | Some (CNum q) =>
        (* a number: falsy when zero, without a [split] method otherwise *)
        if Qeq_bool q 0 then measure else Throws TypeError this
    | None =>
        (* an inherited value is truthy and has no [split] method *)
        if inherited cacheName then Throws TypeError this else measure
    end.

Definition _calCharDimWithCache (text : string) (calculateDifference : bool)
    (length : nat) : M (orFalse Size.t) := fun this =>
  if negb (_init this) then Ret IsFalse this
  else
    let sfx := style_suffix (style this) in
    let cacheName := text +:+ sfx in
    let cacheInitName := text +:+ "init" +:+ sfx in
    let text := htmlSplCharSpace text in
    (do asym <~ asymmetricDifference cacheInitName text calculateDifference length ;
     do size <~ cachedOrMeasured cacheName text asym ;
     ret (Val size)) this.

(** ** [getOriSize] *)

Module OriSize.
Record t := {
  width : Q;
  height : Q;
  detailObj : option (gmap string Q)
}.
End OriSize.

(** The [for] loop of [getOriSize] over the letters still to be measured;
    [l] is [textArr.length]. *)
Fixpoint getOriSize_loop (textArr : list string) (l : nat)
    (height cumulativeSize : Q) (indiSizeStore : gmap string Q)
  : M (Q * Q * gmap string Q) :=
  match textArr with
  | [] => ret (height, cumulativeSize, indiSizeStore)
  | letter :: rest =>
      do r <~ _calCharDimWithCache letter true l ;
      match r with
      | Val lSize =>
          getOriSize_loop rest l
            (js_max height (Size.height lSize))
            (js_add cumulativeSize (Size.width lSize))
            (<[letter := Size.width lSize]> indiSizeStore)
      | IsFalse => fun _ => OutOfModel
      end
  end.

Definition getOriSize (text : string) (detailedCalculationFlag : bool)
  : M (orFalse OriSize.t) := fun this =>
  if negb (_init this) then Ret IsFalse this
  else if negb detailedCalculationFlag then
    (do r <~ _calCharDimWithCache text false 0 ;
     ret match r with
         | IsFalse => IsFalse
         | Val s => Val {| OriSize.width := Size.width s;
                           OriSize.height := Size.height s;
                           OriSize.detailObj := None |}
         end) this
  else
    let textArr := JS.split_chars text in
    (do '(height, cumulativeSize, indiSizeStore) <~
        getOriSize_loop textArr (length textArr) 0%Q 0%Q ∅ ;
     ret (Val {| OriSize.width := js_round cumulativeSize;
                 OriSize.height := height;
                 OriSize.detailObj := Some indiSizeStore |})) this.

(** ** [setStyle], [useEllipsesOnOverflow], [dispose] *)

(** What a method returning [this] or nothing returns. *)
Inductive thisOrUndefined := RThis | RUndefined.

(** [style === this.style]. *)
Definition same_style (a b : option Style) : bool :=
  match a, b with
  | None, None => true
  | Some x, Some y => styleRef x =? styleRef y
  | _, _ => false
  end.

Definition setStyle (L : Lib) (style_arg : option Style) : M thisOrUndefined :=
  fun this =>
  if negb (_init this) then Ret RThis this
  else if same_style style_arg (style this) && negb (_styleNotSet this)
  then Ret RUndefined this
  else
    match (if style_arg is Some _ then style_arg else style this) with
    | None =>
        (* [slLib.setLineHeight(undefined)] *)
        OutOfModel
    | Some st =>
        let st := setLineHeight L st in
        let bind_style (co : option ContainerObj) :=
          {| _init := _init this; id := id this;
             parentContainer := parentContainer this;
             _containerManager := _containerManager this;
             _showNoEllipses := _showNoEllipses this;
             style := Some st;
             maxCacheLimit := maxCacheLimit this;
             _containerObj := co;
             _container := match co with Some c => node c | None => _container this end;
             _context := match co with Some c => context c | None => _context this end;
             _cache := match co with Some c => Some (charCache c) | None => _cache this end;
             _lineHeight := match co with Some c => Some (lineHeight c) | None => _lineHeight this end;
             _styleNotSet := match co with Some _ => false | None => true end;
             _advancedCache := _advancedCache this;
             _advancedCacheKey := _advancedCacheKey this |} in
        match _containerManager this with
        | None =>
            (* [this.style] is already assigned when [get] is looked up *)
            Throws TypeError
              {| _init := _init this; id := id this;
                 parentContainer := parentContainer this;
                 _containerManager := _containerManager this;
                 _showNoEllipses := _showNoEllipses this;
                 style := Some st;
                 maxCacheLimit := maxCacheLimit this;
                 _containerObj := _containerObj this;
                 _container := _container this; _context := _context this;
                 _cache := _cache this; _lineHeight := _lineHeight this;
                 _styleNotSet := _styleNotSet this;
                 _advancedCache := _advancedCache this;
                 _advancedCacheKey := _advancedCacheKey this |}
        | Some cm => Ret RThis (bind_style (ContainerManager.get cm st))
        end
    end.

Definition useEllipsesOnOverflow (useEllipses : bool) : M thisOrUndefined :=
  fun this =>
  if negb (_init this) then Ret RThis this
  else Ret RThis (set_showNoEllipses (negb useEllipses) this).

(** [dispose]: the [delete]s, one field each; the other fields are kept. *)
Definition dispose : M thisOrUndefined := fun this =>
  if negb (_init this) then Ret RThis this
  else
    Ret RThis
      {| _init := _init this;
         id := None;
         parentContainer := None;
         _containerManager := None;
         _showNoEllipses := None;
         style := None;
         maxCacheLimit := maxCacheLimit this;
         _containerObj := None;
         _container := None;
         _context := false;
         _cache := None;
         _lineHeight := _lineHeight this;
         _styleNotSet := _styleNotSet this;
         _advancedCache := _advancedCache this;
         _advancedCacheKey := _advancedCacheKey this |}.


(** ** [getSmartText] *)

(** The object returned by [getSmartText]; [None] is [null] for the four
    sizes, and an absent property for [tooltext] and [error]. *)
Record SmartLabel := {
  text : string;
  maxWidth : Q;
  maxHeight : Q;
  width : option Q;
  height : option Q;
  oriTextWidth : option Q;
  oriTextHeight : option Q;
  oriText : string;
  isTruncated : bool;
  tooltext : option string;
  error : option string
}.

(** Assignments to the fields of [smartLabel]. *)
Definition with_text (t : string) (sl : SmartLabel) : SmartLabel :=
  {| text := t; maxWidth := maxWidth sl; maxHeight := maxHeight sl;
     width := width sl; height := height sl;
     oriTextWidth := oriTextWidth sl; oriTextHeight := oriTextHeight sl;
     oriText := oriText sl; isTruncated := isTruncated sl;
     tooltext := tooltext sl; error := error sl |}.

Definition with_size (w h : Q) (sl : SmartLabel) : SmartLabel :=
  {| text := text sl; maxWidth := maxWidth sl; maxHeight := maxHeight sl;
     width := Some w; height := Some h;
     oriTextWidth := oriTextWidth sl; oriTextHeight := oriTextHeight sl;
     oriText := oriText sl; isTruncated := isTruncated sl;
     tooltext := tooltext sl; error := error sl |}.

Definition with_oriSize (w h : Q) (sl : SmartLabel) : SmartLabel :=
  {| text := text sl; maxWidth := maxWidth sl; maxHeight := maxHeight sl;
     width := width sl; height := height sl;
     oriTextWidth := Some w; oriTextHeight := Some h;
     oriText := oriText sl; isTruncated := isTruncated sl;
     tooltext := tooltext sl; error := error sl |}.

Definition with_tooltext (t : string) (sl : SmartLabel) : SmartLabel :=
  {| text := text sl; maxWidth := maxWidth sl; maxHeight := maxHeight sl;
     width := width sl; height := height sl;
     oriTextWidth := oriTextWidth sl; oriTextHeight := oriTextHeight sl;
     oriText := oriText sl; isTruncated := isTruncated sl;
     tooltext := Some t; error := error sl |}.

Definition with_error (e : string) (sl : SmartLabel) : SmartLabel :=
  {| text := text sl; maxWidth := maxWidth sl; maxHeight := maxHeight sl;
     width := width sl; height := height sl;
     oriTextWidth := oriTextWidth sl; oriTextHeight := oriTextHeight sl;
     oriText := oriText sl; isTruncated := isTruncated sl;
     tooltext := tooltext sl; error := Some e |}.

(** [SVG_BBOX_CORRECTION = documentSupport.isWebKit ? 0 : 4.5]. *)
Definition SVG_BBOX_CORRECTION (L : Lib) : Q := if isWebKit L then 0 else 9 # 2.

(** The function returned by [_getWidthFn], applied to [str]; [None] is
    [undefined], which [textContent] takes as the empty string and
    [innerHTML] as the string ["undefined"]. *)
Definition _getWidthFn (L : Lib) (contObj : ContainerObj) (container : Node)
    (str : option string) : Q :=
  match svgText contObj with
  | Some bbox_width =>
      let bw := bbox_width (default "" str) in
      let width := (bw - SVG_BBOX_CORRECTION L)%Q in
      if Qgtb 1 width then bw else width
  | None => offsetWidth container (default "undefined" str)
  end.

(** The text once converted to a string (lines 291-295). *)
Definition text_of_arg (v : jsval) : string :=
  match v with
  | JUndefined | JNull => ""
  | JStr s => s
  | v => js_toString v
  end.

(** The height bound in force (lines 366-368):
    [if (maxHeight === lineHeight) maxHeight *= 1.2]. *)
Definition effectiveMaxHeight (maxHeight_arg lineHeight_ : Q) : Q :=
  if Qeq_bool maxHeight_arg lineHeight_
  then (maxHeight_arg * (6 # 5))%Q else maxHeight_arg.

(** The object [smartLabel] as first built (lines 349-359). *)
Definition initialLabel (text : string) (maxWidth_arg maxHeight_arg : Q)
  : SmartLabel :=
  {| text := text; maxWidth := maxWidth_arg; maxHeight := maxHeight_arg;
     width := None; height := None;
     oriTextWidth := None; oriTextHeight := None;
     oriText := text; isTruncated := false;
     tooltext := None; error := None |}.

(** [fastTrim(text).replace(/(\s+)/g, ' ')]. *)
Definition normalise (text : string) : string :=
  JS.collapse_ws (JS.fastTrim text).

(** The result with nothing in it (lines 398-401 and 428-431). *)
Definition nothing_fits (sl : SmartLabel) : SmartLabel :=
  with_oriSize 0 0 (with_size 0 0 (with_text "" sl)).

Section PlainText.

(** What the plain-text part of [getSmartText] (lines 409-574) has in
    scope: the library, [getWidth], the [detailObj] of
    [getOriSizeImproveObj] when there is one, the normalised [text], the
    bounds ([maxHeight] possibly enlarged), the line height, [context] and
    [smartLabel] as filled so far. *)
Variable L : Lib.
Variable getWidth : option string → Q.
Variable detailObj : option (gmap string Q).
Variable text_ : string.
Variables maxWidth_ maxHeight_ : Q.
Variable lineHeight_ : Q.
Variable context_ : bool.
Variable smartLabel : SmartLabel.

Definition oriTextArr : list string := JS.split_chars text_.
Definition len : nat := length oriTextArr.

(** [oriTextArr[i]] as a string inside [join]. *)
Definition oriTextArr_at (i : nat) : string := default "" (oriTextArr !! i).

(** The width of [tempChar] in the loops (lines 454-465 and 493-504): the
    basic cache, else [detailObj] when it has a truthy width, else
    [getWidth]; the basic cache is filled. *)
Definition charWidth (tempChar : string) : M Q := fun this =>
  match _cache this with
  | None => Throws TypeError this
  | Some c =>
      match c !! tempChar with
      | Some w => Ret w this
      | None =>
          let minWidth :=
            match detailObj with
            | Some d =>
                match d !! tempChar with
                | Some w => if Qeq_bool w 0 then getWidth (Some tempChar) else w
                | None => getWidth (Some tempChar)
                end
            | None => getWidth (Some tempChar)
            end in
          Ret minWidth (set_cache (<[tempChar := minWidth]> c) this)
      end
  end.

(** The width of the first character (lines 413-421). *)
Definition firstCharWidth : M Q := fun this =>
  let tempChar := head oriTextArr in
  let key := default "undefined"%string tempChar in
  match _cache this with
  | None => Throws TypeError this
  | Some c =>
      match c !! key with
      | Some w => Ret w this
      | None =>
          let minWidth := getWidth tempChar in
          Ret minWidth (set_cache (<[key := minWidth]> c) this)
      end
  end.

Section Loops.

Variable maxWidthWithEll : Q.
Variable ellipsesStr : string.

(** The two results that carry an ellipsis and a tooltip. *)
Definition truncated (trimStr : string) (w h : Q) : SmartLabel :=
  with_size w h
    (with_tooltext (oriText smartLabel)
       (with_text (JS.fastTrim trimStr +:+ ellipsesStr) smartLabel)).

(** [if (!trimStr) trimStr = tempArr.slice(0, -1).join('')]. *)
Definition set_trimStr (trimStr : option string) (tempArr : list string)
  : string :=
  match trimStr with
  | Some (String c s) => String c s
  | _ => JS.join (JS.slice tempArr 0 (-1))
  end.

(** The loop of the no-wrap branch (lines 452-484); [n] is [len - i],
    the number of characters still to be read. *)
Fixpoint nowrap_loop (n i : nat) (tempArr : list string) (strWidth : Q)
    (trimStr : option string) : M SmartLabel :=
  match n with
  | O =>
      ret (with_size strWidth lineHeight_
             (with_text (JS.join tempArr) smartLabel))
  | S n' =>
      let tempChar := oriTextArr_at i in
      let tempArr := JS.array_set tempArr i tempChar in
      do minWidth <~ charWidth tempChar ;
      let strWidth := (strWidth + minWidth)%Q in
      if Qgtb strWidth maxWidthWithEll then
        let trimStr := set_trimStr trimStr tempArr in
        if Qgtb strWidth maxWidth_ then
          ret (truncated trimStr
                 (getWidth (Some (JS.fastTrim trimStr +:+ ellipsesStr)))
                 lineHeight_)
        else nowrap_loop n' (S i) tempArr strWidth (Some trimStr)
      else nowrap_loop n' (S i) tempArr strWidth trimStr
  end.

(** What a break decides (lines 513-539): the width measured for the
    line that ends, the array with the marker in it, the index broken at
    and the index where the next line starts. *)
Record Break := {
  br_strWidth : Q;
  br_tempArr : list string;
  br_lastIndexBroken : Z;
  br_newCharIndex : Z
}.

Definition wrap_break (i : nat) (tempArr : list string)
    (lastIndexBroken : Z) : Break :=
  let lastSpace :=
    JS.lastIndexOf (JS.substr text_ 0 (Z.of_nat (length tempArr))) " " in
  let lastDash :=
    JS.lastIndexOf (JS.substr text_ 0 (Z.of_nat (length tempArr))) "-" in
  if (lastIndexBroken <? lastSpace)%Z then
    {| br_strWidth :=
         getWidth (Some (JS.join (JS.slice tempArr (lastIndexBroken + 1) lastSpace)));
       br_tempArr := JS.splice1 tempArr (Z.to_nat lastSpace) "<br/>"%string;
       br_lastIndexBroken := lastSpace;
       br_newCharIndex := (lastSpace + 1)%Z |}
  else if (lastIndexBroken <? lastDash)%Z then
    if (lastDash =? Z.of_nat (length tempArr) - 1)%Z then
      {| br_strWidth :=
           getWidth (Some (JS.join (JS.slice tempArr (lastIndexBroken + 1) lastSpace)));
         br_tempArr := JS.splice1 tempArr (Z.to_nat lastDash) "<br/>-"%string;
         br_lastIndexBroken := lastDash;
         br_newCharIndex := (lastDash + 1)%Z |}
    else
      {| br_strWidth :=
           getWidth (Some (JS.join (JS.slice tempArr (lastIndexBroken + 1) lastSpace)));
         br_tempArr := JS.splice1 tempArr (Z.to_nat lastDash) "-<br/>"%string;
         br_lastIndexBroken := lastDash;
         br_newCharIndex := (lastDash + 1)%Z |}
  else
    let tempArr' :=
      JS.splice1 tempArr (length tempArr - 1) ("<br/>" +:+ oriTextArr_at i) in
    let lastLineBreak := (Z.of_nat (length tempArr') - 2)%Z in
    {| br_strWidth :=
         getWidth (Some (JS.join
           (JS.slice tempArr' (lastIndexBroken + 1) (lastLineBreak + 1))));
       br_tempArr := tempArr';
       br_lastIndexBroken := lastLineBreak;
       br_newCharIndex := Z.of_nat i |}.

(** The state of the wrap loop between two iterations. *)
Record WrapState := {
  w_i : nat;
  w_tempArr : list string;
  w_strWidth : Q;
  w_strHeight : Q;
  w_maxStrWidth : Q;
  w_trimStr : option string;
  w_lastIndexBroken : Z
}.

(** After a break that still fits in the height (lines 549-562): the
    state in which the loop goes on, [i] already incremented. *)
Definition wrap_continue (i : nat) (strHeight maxStrWidth : Q) (b : Break)
    (this : Manager) : WrapState :=
  let maxStrWidth := js_max maxStrWidth (br_strWidth b) in
  let newCharIndex := br_newCharIndex b in
  let nearestChar :=
    getNearestBreakIndex L (JS.substr_from text_ (Z.to_nat newCharIndex))
      maxWidthWithEll this in
  let strWidth :=
    getWidth (Some (JS.substr text_ (Z.to_nat newCharIndex)
                      (if (nearestChar =? 0)%Z then 1%Z else nearestChar))) in
  let tempArr := br_tempArr b in
  if (Z.of_nat (length tempArr) <? newCharIndex + nearestChar)%Z then
    let tempArr :=
      tempArr ++ JS.split_chars
        (JS.substr text_ (length tempArr)
           (newCharIndex + nearestChar - Z.of_nat (length tempArr))) in
    {| w_i := S (length tempArr - 1); w_tempArr := tempArr;
       w_strWidth := strWidth; w_strHeight := strHeight;
       w_maxStrWidth := maxStrWidth; w_trimStr := None;
       w_lastIndexBroken := br_lastIndexBroken b |}
  else
    {| w_i := S i; w_tempArr := tempArr;
       w_strWidth := strWidth; w_strHeight := strHeight;
       w_maxStrWidth := maxStrWidth; w_trimStr := None;
       w_lastIndexBroken := br_lastIndexBroken b |}.

(** One iteration of the wrap loop (lines 488-565): the result when the
    method returns from inside the loop, else the next state. *)
Definition wrap_step (st : WrapState) : M (SmartLabel + WrapState) :=
  let i := w_i st in
  let tempArr := JS.array_set (w_tempArr st) i (oriTextArr_at i) in
  let tempChar :=
    if String.eqb (oriTextArr_at i) " " && negb context_
    then "&nbsp;"%string else oriTextArr_at i in
  do minWidth <~ charWidth tempChar ;
  let strWidth := (w_strWidth st + minWidth)%Q in
  if Qgtb strWidth maxWidthWithEll then
    let trimStr := set_trimStr (w_trimStr st) tempArr in
    if Qgtb strWidth maxWidth_ then
      let b := wrap_break i tempArr (w_lastIndexBroken st) in
      let strHeight := (w_strHeight st + lineHeight_)%Q in
      if Qgtb strHeight maxHeight_ then
        ret (inl (truncated trimStr maxWidth_ (strHeight - lineHeight_)%Q))
      else
        fun this =>
          Ret (inr (wrap_continue i strHeight (w_maxStrWidth st) b this)) this
    else
      ret (inr {| w_i := S i; w_tempArr := tempArr;
                  w_strWidth := strWidth; w_strHeight := w_strHeight st;
                  w_maxStrWidth := w_maxStrWidth st;
                  w_trimStr := Some trimStr;
                  w_lastIndexBroken := w_lastIndexBroken st |})
  else
    ret (inr {| w_i := S i; w_tempArr := tempArr;
                w_strWidth := strWidth; w_strHeight := w_strHeight st;
                w_maxStrWidth := w_maxStrWidth st;
                w_trimStr := w_trimStr st;
                w_lastIndexBroken := w_lastIndexBroken st |}).

(** The wrap loop and the lines after it (lines 487-573). Every
    iteration moves [i] forward, so [len - i] iterations are enough:
    [fuel] is given that value by the caller. *)
Fixpoint wrap_loop (fuel : nat) (st : WrapState) : M SmartLabel :=
  if len <=? w_i st then
    ret (with_size (js_max (w_maxStrWidth st) (w_strWidth st)) (w_strHeight st)
           (with_text (JS.join (w_tempArr st)) smartLabel))
  else
    match fuel with
    | O => fun _ => OutOfModel
    | S fuel' =>
        do r <~ wrap_step st ;
        match r with
        | inl result => ret result
        | inr st' => wrap_loop fuel' st'
        end
    end.

End Loops.

(** The choice of the ellipsis (lines 423-446): the prefix taken at once,
    the budget and the ellipsis; [None] when nothing fits. *)
Definition ellipsis_budget (showNoEllipses : bool) (ellipsesWidth dotWidth : Q)
    (minWidth : Q) (this : Manager)
  : option (list string * Q * string) :=
  let ellipsesStr := if showNoEllipses then ""%string else "..."%string in
  let maxWidthWithEll :=
    if showNoEllipses then maxWidth_ else (maxWidth_ - ellipsesWidth)%Q in
  if Qgtb maxWidthWithEll minWidth then
    Some (JS.split_chars
            (JS.substr text_ 0 (getNearestBreakIndex L text_ maxWidthWithEll this)),
          maxWidthWithEll, ellipsesStr)
  else if Qgtb minWidth maxWidth_ then None
  else if negb (String.eqb ellipsesStr "") then
    let maxWidthWithEll := (maxWidth_ - 2 * dotWidth)%Q in
    if Qgtb maxWidthWithEll minWidth then Some ([], maxWidthWithEll, ".."%string)
    else
      let maxWidthWithEll := (maxWidth_ - dotWidth)%Q in
      if Qgtb maxWidthWithEll minWidth then Some ([], maxWidthWithEll, "."%string)
      else Some ([], 0%Q, ""%string)
  else Some ([], maxWidthWithEll, ellipsesStr).

(** Lines 409-574. *)
Definition plainText (showNoEllipses : bool) (ellipsesWidth dotWidth : Q)
    (noWrap : bool) : M SmartLabel :=
  do minWidth <~ firstCharWidth ;
  fun this =>
    match ellipsis_budget showNoEllipses ellipsesWidth dotWidth minWidth this with
    | None => Ret (nothing_fits smartLabel) this
    | Some (tempArr, maxWidthWithEll, ellipsesStr) =>
        let i := length tempArr in
        let strWidth := getWidth (Some (JS.join tempArr)) in
        let strHeight := lineHeight_ in
        if noWrap then
          nowrap_loop maxWidthWithEll ellipsesStr (len - i) i tempArr strWidth
            (Some ""%string) this
        else
          wrap_loop maxWidthWithEll ellipsesStr (len - i)
            {| w_i := i; w_tempArr := tempArr; w_strWidth := strWidth;
               w_strHeight := strHeight; w_maxStrWidth := 0;
               w_trimStr := Some ""%string; w_lastIndexBroken := (-1)%Z |}
            this
    end.

End PlainText.

(** Lines 372-403: the text has markup or not, and its size without bounds
    ([detailObj] comes with the size of a text without markup). Nothing is
    measured when [documentSupport.isBrowserLess]. *)
Definition originalSize (L : Lib) (container : Node) (text : string)
  : M (bool * option (Q * Q * option (gmap string Q))) :=
  if isBrowserLess L then ret (false, None)
  else if xmlTagRegEx_test L text then
    ret (true, Some (offsetWidth container text, offsetHeight container text, None))
  else
    do r <~ getOriSize (ltgtRegex_replace L text) true ;
    match r with
    | Val o => ret (false, Some (OriSize.width o, OriSize.height o, OriSize.detailObj o))
    | IsFalse => fun _ => OutOfModel
    end.

(** [smartLabel] once the size without bounds is known (lines 383-388). *)
Definition measuredLabel (ori : option (Q * Q * option (gmap string Q)))
    (smartLabel : SmartLabel) : SmartLabel :=
  match ori with
  | Some (oriWidth, oriHeight, _) => with_oriSize oriWidth oriHeight smartLabel
  | None => smartLabel
  end.

(** The test of line 391; nothing has been measured, and nothing is tested,
    when [documentSupport.isBrowserLess]. *)
Definition fits (ori : option (Q * Q * option (gmap string Q)))
    (maxWidth_arg maxHeight_ : Q) : bool :=
  match ori with
  | Some (oriWidth, oriHeight, _) =>
      Qle_bool oriHeight maxHeight_ && Qle_bool oriWidth maxWidth_arg
  | None => false
  end.

(** The result of lines 392-394. *)
Definition wholeText (ori : option (Q * Q * option (gmap string Q)))
    (smartLabel : SmartLabel) : SmartLabel :=
  match ori with
  | Some (oriWidth, oriHeight, _) =>
      with_oriSize oriWidth oriHeight (with_size oriWidth oriHeight smartLabel)
  | None => smartLabel
  end.

Definition getSmartText (L : Lib) (text_arg : jsval) (maxWidth_arg maxHeight_arg : Q)
    (noWrap : bool) : M (orFalse SmartLabel) := fun this =>
  if negb (_init this) then Ret IsFalse this
  else
    let text := text_of_arg text_arg in
    match _containerObj this with
    | None => Throws TypeError this   (* [sCont.ellipsesWidth] *)
    | Some sCont =>
        let showNoEllipses := default false (_showNoEllipses this) in
        let smartLabel := initialLabel text maxWidth_arg maxHeight_arg in
        match _container this with
        | None => Ret (Val (with_error "Body Tag Missing!" smartLabel)) this
        | Some container =>
            match _lineHeight this with
            | None => OutOfModel   (* arithmetic on [undefined] *)
            | Some lineHeight =>
                let getWidth := _getWidthFn L sCont container in
                let maxHeight := effectiveMaxHeight maxHeight_arg lineHeight in
                (do '(hasHTMLTag, ori) <~ originalSize L container text ;
                 let smartLabel := measuredLabel ori smartLabel in
                 let detailObj :=
                   match ori with
                   | Some (_, _, d) => d
                   | None => None
                   end in
                 if fits ori maxWidth_arg maxHeight then
                   ret (Val (wholeText ori smartLabel))
                 else if negb (isBrowserLess L) && Qgtb lineHeight maxHeight then
                   ret (Val (nothing_fits smartLabel))
                 else if hasHTMLTag then
                   (* the markup is rendered and the geometry of the
                      rendered nodes is read (lines 577-748) *)
                   fun _ => OutOfModel
                 else
                   do r <~ plainText L getWidth detailObj (normalise text)
                             maxWidth_arg maxHeight lineHeight (_context this)
                             smartLabel showNoEllipses
                             (ellipsesWidth sCont) (dotWidth sCont) noWrap ;
                   ret (Val r)) this
            end
        end
    end.

(** ** Predicates and functions used in the statements *)

(** The manager left by a call, when the call leaves one. *)
Definition outcome_state {A} (o : outcome A) : option Manager :=
  match o with
  | Ret _ this | Throws _ this => Some this
  | OutOfModel => None
  end.

(** The key list is not longer than the limit of the cache. *)
Definition cache_bounded (this : Manager) : Prop :=
  (Qnat (length (_advancedCacheKey this)) <= maxCacheLimit this)%Q.

(** Every key of the cache is in the key list. *)
Definition cache_listed (this : Manager) : Prop :=
  ∀ k, is_Some (_advancedCache this !! k) → k ∈ _advancedCacheKey this.

(** The advanced cache, its key list and its limit are the same in both
    managers. *)
Definition same_advanced (this this' : Manager) : Prop :=
  _advancedCache this' = _advancedCache this
  ∧ _advancedCacheKey this' = _advancedCacheKey this
  ∧ maxCacheLimit this' = maxCacheLimit this.

(** The calls that reach the advanced cache, and a sequence of them made one
    after the other, each on the manager the previous one left: [None] when
    one of the calls leaves what is modelled. *)
Inductive Call :=
| CallCalCharDim (text : string) (calculateDifference : bool) (length : nat)
| CallGetOriSize (text : string) (detailed : bool)
| CallGetSmartText (L : Lib) (text : jsval) (maxWidth_arg maxHeight_arg : Q)
    (noWrap : bool).

Definition call_state (c : Call) (this : Manager) : option Manager :=
  match c with
  | CallCalCharDim text cd l => outcome_state (_calCharDimWithCache text cd l this)
  | CallGetOriSize text detailed => outcome_state (getOriSize text detailed this)
  | CallGetSmartText L text w h noWrap =>
      outcome_state (getSmartText L text w h noWrap this)
  end.

Fixpoint run_calls (cs : list Call) (this : Manager) : option Manager :=
  match cs with
  | [] => Some this
  | c :: rest =>
      match call_state c this with
      | Some this' => run_calls rest this'
      | None => None
      end
  end.

(** The two keys of a text under the style of the manager. *)
Definition cacheName (this : Manager) (text : string) : string :=
  text +:+ style_suffix (style this).

Definition cacheInitName (this : Manager) (text : string) : string :=
  text +:+ "init" +:+ style_suffix (style this).

(** The width the loops of [getSmartText] take for [tempChar] when the basic
    cache is [c0] at the start of the loop. *)
Definition widthOf (getWidth : option string → Q)
    (detailObj : option (gmap string Q)) (c0 : gmap string Q)
    (tempChar : string) : Q :=
  match c0 !! tempChar with
  | Some w => w
  | None =>
      match detailObj with
      | Some d =>
          match d !! tempChar with
          | Some w => if Qeq_bool w 0 then getWidth (Some tempChar) else w
          | None => getWidth (Some tempChar)
          end
      | None => getWidth (Some tempChar)
      end
  end.

(** The width taken for the first character (lines 413-421) when the basic
    cache is [c0]. *)
Definition firstWidth (getWidth : option string → Q) (text_ : string)
    (c0 : gmap string Q) : Q :=
  match c0 !! default "undefined"%string (head (oriTextArr text_)) with
  | Some w => w
  | None => getWidth (head (oriTextArr text_))
  end.

(** The running width after each of the characters [chars], read in turn
    from the running width [strWidth]. *)
Fixpoint runningWidths (w : string → Q) (chars : list string) (strWidth : Q)
  : list Q :=
  match chars with
  | [] => []
  | c :: rest => (strWidth + w c)%Q :: runningWidths w rest (strWidth + w c)%Q
  end.

(** [tempArr] once the characters at the indices [i], ..., [i + n - 1] have
    been assigned. *)
Definition filled (text_ : string) (tempArr : list string) (i n : nat)
  : list string :=
  fold_left (fun a k => JS.array_set a k (oriTextArr_at text_ k)) (seq i n) tempArr.




(** The sizes returned by the successive calls of [_calCharDimWithCache] that
    [getOriSize] makes for the letters of a text of length [l]. *)
Fixpoint letterSizes (textArr : list string) (l : nat) : M (list Size.t) :=
  match textArr with
  | [] => ret []
  | letter :: rest =>
      do r <~ _calCharDimWithCache letter true l ;
      match r with
      | Val s => do ss <~ letterSizes rest l ; ret (s :: ss)
      | IsFalse => fun _ => OutOfModel
      end
  end.

(** ** Sample environments *)

(** The number of characters on the longest line of [s] once rendered: the
    entity [&nbsp;] is one character and [<br/>] starts a new line. [skip]
    counts the characters of an entity or marker still to be passed, [cur]
    the characters of the current line, [best] those of the longest line so
    far. *)
Fixpoint rendered_length_from (skip cur best : nat) (s : string) : nat :=
  match s with
  | EmptyString => Nat.max best cur
  | String c s' =>
      match skip with
      | S k => rendered_length_from k cur best s'
      | O =>
          if String.prefix "<br/>" s
          then rendered_length_from 4 0 (Nat.max best cur) s'
          else if String.prefix "&nbsp;" s
          then rendered_length_from 5 (S cur) best s'
          else rendered_length_from 0 (S cur) best s'
      end
  end.

Definition rendered_length (s : string) : nat := rendered_length_from 0 0 0 s.

(** A node on which every character is one pixel wide and ten high. *)
Definition mono_node : Node :=
  {| offsetWidth := fun s => Qnat (rendered_length s);
     offsetHeight := fun _ => 10%Q |}.

(** The same widths, every text eleven pixels high: one more than the line
    height of [container_of]. *)
Definition tall_node : Node :=
  {| offsetWidth := fun s => Qnat (rendered_length s);
     offsetHeight := fun _ => 11%Q |}.

(** A node on which [W] is ten pixels wide and any other character one. *)
Fixpoint wide_W_length (s : string) : nat :=
  match s with
  | EmptyString => 0
  | String c s' => (if Ascii.eqb c "W" then 10 else 1) + wide_W_length s'
  end.

Definition wide_node : Node :=
  {| offsetWidth := fun s => Qnat (wide_W_length s);
     offsetHeight := fun _ => 10%Q |}.

(** A node on which a character is ten pixels wide and two characters in a
    row are three pixels further apart. *)
Definition kern_node : Node :=
  {| offsetWidth := fun s =>
       match String.length s with
       | O => 0%Q
       | S k => (Qnat (10 * S k) + Qnat (3 * k))%Q
       end;
     offsetHeight := fun _ => 12%Q |}.

(** A node on which a text is as wide as it is long, but for five [a] in a
    row, one pixel wider, and five [b] in a row, two pixels wider. *)
Definition drift_node : Node :=
  {| offsetWidth := fun s =>
       Qnat (String.length s
             + (if String.eqb s "aaaaa" then 1
                else if String.eqb s "bbbbb" then 2 else 0));
     offsetHeight := fun _ => 10%Q |}.

Definition arial12 : Style :=
  {| styleRef := 1; fontSize := Some "12px"%string;
     fontFamily := Some "Arial"%string; fontWeight := None; fontStyle := None |}.

(** The container object of a node: line height ten, a dot one pixel wide,
    the ellipsis [ellipsesWidth_] wide, no SVG text node. *)
Definition container_of (n : Node) (ellipsesWidth_ : Q) : ContainerObj :=
  {| node := Some n; context := true; charCache := ∅; lineHeight := 10%Q;
     ellipsesWidth := ellipsesWidth_; dotWidth := 1%Q; svgText := None |}.

(** A manager as the constructor and [setStyle] leave it. *)
Definition manager_of (co : ContainerObj) (limit : Q) (showNoEllipses : bool)
  : Manager :=
  {| _init := true; id := Some "sl"%string; parentContainer := node co;
     _containerManager := Some {| ContainerManager.get := fun _ => Some co |};
     _showNoEllipses := Some showNoEllipses; style := Some arial12;
     maxCacheLimit := limit; _containerObj := Some co;
     _container := node co; _context := context co;
     _cache := Some (charCache co); _lineHeight := Some (lineHeight co);
     _styleNotSet := false; _advancedCache := ∅; _advancedCacheKey := [] |}.

(** The manager with a style object that has none of the four properties. *)
Definition set_style_none (this : Manager) : Manager :=
  {| _init := _init this; id := id this; parentContainer := parentContainer this;
     _containerManager := _containerManager this;
     _showNoEllipses := _showNoEllipses this;
     style := Some {| styleRef := 0; fontSize := None; fontFamily := None;
                      fontWeight := None; fontStyle := None |};
     maxCacheLimit := maxCacheLimit this; _containerObj := _containerObj this;
     _container := _container this; _context := _context this;
     _cache := _cache this; _lineHeight := _lineHeight this;
     _styleNotSet := _styleNotSet this;
     _advancedCache := _advancedCache this;
     _advancedCacheKey := _advancedCacheKey this |}.

(** A library for a document with layout support, its regular expressions
    applied to texts without markup and without character entities; the
    break index is left to the caller. *)
Definition lib_of (nbi : string → Q → Manager → Z) : Lib :=
  {| isWebKit := true; isBrowserLess := false;
     xmlTagRegEx_test := fun _ => false;
     ltgtRegex_replace := fun s => s;
     getNearestBreakIndex := nbi;
     setLineHeight := fun st => st |}.

(** ** Further predicates used in the statements *)

(** Whether the separator of [textToLines] matches somewhere in [s]. *)
Fixpoint has_sep (s : string) : bool :=
  match s with
  | EmptyString => false
  | String _ s' =>
      match JS.match_sep s with
      | Some _ => true
      | None => has_sep s'
      end
  end.

(** The key list has room for [n] more keys. *)
Definition cache_room (n : nat) (this : Manager) : Prop :=
  (Qnat (length (_advancedCacheKey this) + n) <= maxCacheLimit this)%Q.

(** The fields that say how the manager measures: everything but the two
    caches and the key list. *)
Definition same_setup (this this' : Manager) : Prop :=
  _init this' = _init this ∧ id this' = id this
  ∧ parentContainer this' = parentContainer this
  ∧ _containerManager this' = _containerManager this
  ∧ _showNoEllipses this' = _showNoEllipses this
  ∧ style this' = style this
  ∧ maxCacheLimit this' = maxCacheLimit this
  ∧ _containerObj this' = _containerObj this
  ∧ _container this' = _container this
  ∧ _context this' = _context this
  ∧ _lineHeight this' = _lineHeight this
  ∧ _styleNotSet this' = _styleNotSet this.

(** The basic cache, when there is one, keeps its entries. *)
Definition basic_cache_kept (this this' : Manager) : Prop :=
  match _cache this with
  | Some c0 => ∃ c1, _cache this' = Some c1 ∧ c0 ⊆ c1
  | None => _cache this' = None
  end.

(** Every public method, with its arguments. *)
Inductive Method :=
| Measure (c : Call)
| SetStyle (L : Lib) (st : option Style)
| UseEllipsesOnOverflow (useEllipses : bool)
| Dispose.

Definition method_state (m : Method) (this : Manager) : option Manager :=
  match m with
  | Measure c => call_state c this
  | SetStyle L st => outcome_state (setStyle L st this)
  | UseEllipsesOnOverflow b => outcome_state (useEllipsesOnOverflow b this)
  | Dispose => outcome_state (dispose this)
  end.

(** The methods called one after the other, each on the manager the previous
    one left: [None] when one of the calls leaves what is modelled. *)
Fixpoint run_methods (ms : list Method) (this : Manager) : option Manager :=
  match ms with
  | [] => Some this
  | m :: rest =>
      match method_state m this with
      | Some this' => run_methods rest this'
      | None => None
      end
  end.

(** White space at the start of [s], and at its end. *)
Definition starts_ws (s : string) : bool :=
  match s with
  | String c _ => JS.is_ws c
  | EmptyString => false
  end.

Fixpoint ends_ws (s : string) : bool :=
  match s with
  | EmptyString => false
  | String c EmptyString => JS.is_ws c
  | String _ s' => ends_ws s'
  end.

(** Every white-space character of [s] is a space, and it does not follow
    white space; [after_ws] tells that the character before [s] was white
    space. *)
Fixpoint single_spaced (after_ws : bool) (s : string) : bool :=
  match s with
  | EmptyString => true
  | String c s' =>
      if JS.is_ws c
      then Ascii.eqb c " " && negb after_ws && single_spaced true s'
      else single_spaced false s'
  end.

(** The characters of [s] that are not white space, in order. *)
Fixpoint non_ws (s : string) : list ascii :=
  match s with
  | EmptyString => []
  | String c s' => if JS.is_ws c then non_ws s' else c :: non_ws s'
  end.

(** ** The constructor and the store of instances *)

Module SmartLabelManager.

(** What the constructor can be given as [container]: nothing, the id of an
    element, or the element. *)
Inductive container_arg :=
| NoContainer
| ContainerId (s : string)
| ContainerNode (n : Node).

(** What the constructor takes from the document, from [./lib] and from
    [./container-manager]. *)
Record Document := {
  getElementById : string → option Node;     (* doc.getElementById *)
  createContainer : option Node → Node;      (* slLib.createContainer *)
  testStrAvg : string;                       (* slLib.testStrAvg *)
  isHeadLess : bool;                         (* documentSupport.isHeadLess *)
  isIE : bool;                               (* documentSupport.isIE *)
  maxDefaultCacheLimit : Q;                  (* slLib.maxDefaultCacheLimit *)
  newContainerManager : Node → bool → Q → ContainerManager.t
}.

(** The instances live in a heap; [store] is [SmartLabelManager.store], from
    the keys (an id as a property name) to the instances. *)
Record World := {
  store : gmap string loc;
  instances : gmap loc Manager
}.

(** The object [new] hands to the constructor: no field is set. The limit
    of its cache stands for [this.options], which no method reads before
    the guard on [_init]. *)
Definition blank : Manager :=
  {| _init := false; id := None; parentContainer := None;
     _containerManager := None; _showNoEllipses := None; style := None;
     maxCacheLimit := 0; _containerObj := None; _container := None;
     _context := false; _cache := None; _lineHeight := None;
     _styleNotSet := false; _advancedCache := ∅; _advancedCacheKey := [] |}.

(** How [new SmartLabelManager(...)] ends. *)
Inductive result :=
| Created (l : loc) (w : World)
| Threw (e : string) (w : World)
| Unmodelled.

(** [typeof id === 'undefined' || typeof id === 'object']. *)
Definition no_id (id_arg : jsval) : bool :=
  match id_arg with
  | JUndefined | JNull | JArr _ | JOther _ => true
  | JBool _ | JNum _ | JStr _ => false
  end.

(** [wrapper.innerHTML = slLib.testStrAvg] and the test of line 61. *)
Definition browserLess (D : Document) (wrapper : Node) : bool :=
  isHeadLess D
  || (negb (isIE D)
      && Qeq_bool (offsetHeight wrapper (testStrAvg D)) 0
      && Qeq_bool (offsetWidth wrapper (testStrAvg D)) 0).

(** The instance once lines 70-77 have run. [style_ref] is the identity of
    the object [{}] of line 76; [id] is kept by the key it has in the
    store. *)
Definition initialised (D : Document) (style_ref : nat) (key : string)
    (container : container_arg) (useEllipses : bool)
    (maxCacheLimit_arg : option Q) : Manager :=
  let container :=
    match container with
    | ContainerId s => getElementById D s
    | ContainerNode n => Some n
    | NoContainer => None
    end in
  let wrapper := createContainer D container in
  {| _init := true; id := Some key; parentContainer := Some wrapper;
     _containerManager :=
       Some (newContainerManager D wrapper (browserLess D wrapper) 10);
     _showNoEllipses := Some (negb useEllipses);
     style := Some {| styleRef := style_ref; fontSize := None;
                      fontFamily := None; fontWeight := None;
                      fontStyle := None |};
     maxCacheLimit := default (maxDefaultCacheLimit D) maxCacheLimit_arg;
     _containerObj := None; _container := None; _context := false;
     _cache := None; _lineHeight := None; _styleNotSet := false;
     _advancedCache := ∅; _advancedCacheKey := [] |}.

(** [new SmartLabelManager(id, container, useEllipses, options)].
    [maxCacheLimit_arg] is [options.maxCacheLimit] when it is a finite
    number, and [None] when there are no options or the limit is
    [undefined], [NaN] or infinite; other values that [isFinite] converts
    are not modelled. *)
Definition new (D : Document) (L : Lib) (style_ref : nat) (id_arg : jsval)
    (container : container_arg) (useEllipses : bool)
    (maxCacheLimit_arg : option Q) (w : World) : result :=
  let l := fresh (dom (instances w)) in
  if no_id id_arg then
    (* return; *)
    Created l {| store := store w; instances := <[l := blank]> (instances w) |}
  else
    let key := js_toString id_arg in
    if inherited key then
      (* [store[id]] is a property of [Object.prototype], which is truthy
         and has no [dispose] *)
      Threw TypeError w
    else
      (* if (prevInstance = store[id]) prevInstance.dispose(); *)
      let disposed :=
        match store w !! key with
        | Some l0 =>
            alter (fun prev => default prev (outcome_state (dispose prev))) l0
              (instances w)
        | None => instances w
        end in
      (* store[id] = this; *)
      let store' := <[key := l]> (store w) in
      let this :=
        initialised D style_ref key container useEllipses maxCacheLimit_arg in
      (* this.setStyle(); *)
      match setStyle L None this with
      | Ret _ this' =>
          Created l {| store := store'; instances := <[l := this']> disposed |}
      | Throws e this' =>
          Threw e {| store := store'; instances := <[l := this']> disposed |}
      | OutOfModel => Unmodelled
      end.

End SmartLabelManager.

(** ** A sample document *)

(** A document in which every container gets [n] as wrapper and whose
    container manager hands out [co] for every style. *)
Definition document_of (n : Node) (co : ContainerObj)
  : SmartLabelManager.Document :=
  {| SmartLabelManager.getElementById := fun _ => None;
     SmartLabelManager.createContainer := fun _ => n;
     SmartLabelManager.testStrAvg := "WgI";
     SmartLabelManager.isHeadLess := false;
     SmartLabelManager.isIE := false;
     SmartLabelManager.maxDefaultCacheLimit := 500;
     SmartLabelManager.newContainerManager :=
       fun _ _ _ => {| ContainerManager.get := fun _ => Some co |} |}.

Definition empty_world : SmartLabelManager.World :=
  {| SmartLabelManager.store := ∅; SmartLabelManager.instances := ∅ |}.

(** The lines with the separators put back between them. *)
Fixpoint weave (lines seps : list string) : string :=
  match lines, seps with
  | l :: ls, sp :: sps => l +:+ sp +:+ weave ls sps
  | l :: _, [] => l
  | [], _ => ""
  end.

(** [s] is one separator of [textToLines], from its first character to its
    last. *)
Definition is_sep (s : string) : bool :=
  match JS.match_sep s with
  | Some n => n =? String.length s
  | None => false
  end.

(** The advanced cache can serve the letters of a text under the style of
    the manager: under the correction key of a text of one character there
    is no size, under its plain key no correction other than zero, and its
    plain key is not a name every object inherits. *)
Definition letters_typed (this : Manager) : Prop :=
  ∀ t, String.length t = 1 →
    (∀ w h, _advancedCache this !! cacheInitName this t ≠ Some (CDim w h))
    ∧ (∀ q, _advancedCache this !! cacheName this t = Some (CNum q) →
            Qeq_bool q 0 = true)
    ∧ inherited (cacheName this t) = false.

(** The manager has what [getSmartText] measures with. *)
Definition can_measure (this : Manager) : Prop :=
  _init this = true
  ∧ is_Some (_containerObj this) ∧ is_Some (_container this)
  ∧ is_Some (_lineHeight this) ∧ is_Some (_cache this).

(** What the advanced cache of [this'] keeps of the cache of [this]: every
    size, and the correction of every text of one character. *)
Definition entries_kept (this this' : Manager) : Prop :=
  (∀ k w h, _advancedCache this !! k = Some (CDim w h) →
            _advancedCache this' !! k = Some (CDim w h))
  ∧ (∀ t q, String.length t = 1 →
            _advancedCache this !! cacheInitName this t = Some (CNum q) →
            _advancedCache this' !! cacheInitName this t = Some (CNum q))
  ∧ style this' = style this ∧ _init this' = _init this.

(** What the wrap loop puts in the place of the character [c]: the
    character, a line break in the place of a space, a line break before or
    after a hyphen, or a line break before the character. *)
Definition piece_of (e c : string) : Prop :=
  e = c
  ∨ (c = " "%string ∧ e = "<br/>"%string)
  ∨ (c = "-"%string ∧ (e = "<br/>-"%string ∨ e = "-<br/>"%string))
  ∨ e = ("<br/>" +:+ c)%string.

(** A string made of pieces of the first characters of the text, up to
    the character [i] at most. *)
Definition pieces_upto (text_ : string) (i : nat) (s : string) : Prop :=
  ∃ pieces k, k ≤ i ∧ s = JS.join pieces
              ∧ Forall2 piece_of pieces (take k (oriTextArr text_)).

(** What holds of the state of the wrap loop between two iterations: the
    array has one piece for each character read, and [trimStr], when it is
    set, is made of pieces of the characters read. *)
Definition wrap_inv (text_ : string) (st : WrapState) : Prop :=
  w_i st = length (w_tempArr st) ∧ w_i st ≤ len text_
  ∧ Forall2 piece_of (w_tempArr st) (take (w_i st) (oriTextArr text_))
  ∧ (-1 <= w_lastIndexBroken st)%Z
  ∧ ∀ s, w_trimStr st = Some s → pieces_upto text_ (w_i st) s.


(** Every character of [s] is white space. *)
Fixpoint all_ws (s : string) : bool :=
  match s with
  | EmptyString => true
  | String c s' => JS.is_ws c && all_ws s'
  end.

(** A separator of [textToLines], as the regular expression
    [/\n|<br\s*?\/?>/i] reads: a line feed, or [<br] in either case, white
    space, an optional [/] and [>]. *)
Definition separator (sp : string) : Prop :=
  sp = String "010" ""
  ∨ ∃ b r ws slash,
      sp = (String "<" (String b (String r ws)) +:+ slash +:+ ">")%string
      ∧ (b = "b" ∨ b = "B")%char ∧ (r = "r" ∨ r = "R")%char
      ∧ all_ws ws = true
      ∧ (slash = "" ∨ slash = "/")%string.

(** [lines] is [t] cut at its separators, from left to right, as
    [String.prototype.split] does: a line ends where the first separator of
    what is left starts, the next line starts where that separator ends, and
    the last line holds no separator. *)
Inductive split_at_separators : string → list string → Prop :=
| split_last (t : string) :
    (∀ pre sp post, t = (pre +:+ sp +:+ post)%string → ¬ separator sp) →
    split_at_separators t [t]
| split_next (line sp rest : string) (lines : list string) :
    separator sp →
    (∀ pre sp' post,
       (line +:+ sp +:+ rest = pre +:+ sp' +:+ post)%string → separator sp' →
       String.length line ≤ String.length pre) →
    split_at_separators rest lines →
    split_at_separators (line +:+ sp +:+ rest) (line :: lines).

(* ==== theorems ==== *)

(** ** Numbers *)

(** [0.1 + 0.2] is not [0.3]: the sum is the binary64 number next above. *)
Example js_add_tenths :
  js_add (b64 (1 # 10)) (b64 (2 # 10)) = 1351079888211149 # 4503599627370496
  ∧ b64 (3 # 10) = 5404319552844595 # 18014398509481984
  ∧ (b64 (3 # 10) < js_add (b64 (1 # 10)) (b64 (2 # 10)))%Q.
Proof.
  split; [vm_compute; reflexivity|]. split; [vm_compute; reflexivity|].
  vm_compute. reflexivity.
Qed.

(** A sum half way between two binary64 numbers goes to the one whose
    significand is even. *)
Example js_add_ties_to_even :
  js_add 1 (Qpower 2 (-53)) = 1%Q
  ∧ js_add 1 (3 * Qpower 2 (-53)) = 2251799813685249 # 2251799813685248.
Proof. split; vm_compute; reflexivity. Qed.

(** ** Strings *)

Example split_sep_ex1 :
  JS.split_sep "Hello<br/>World" = ["Hello"; "World"]%string.
Proof. reflexivity. Qed.

Example split_sep_ex2 :
  JS.split_sep "a<BR  />b<br>c<Br/>" = ["a"; "b"; "c"; ""]%string.
Proof. reflexivity. Qed.

Example split_sep_ex3 : JS.split_sep "" = [""%string].
Proof. reflexivity. Qed.

Example split_sep_ex4 :
  JS.split_sep ("one" +:+ String "010" "two<br / >three")
  = ["one"; "two<br / >three"]%string.
Proof. reflexivity. Qed.

Example fastTrim_ex : JS.fastTrim "  a b  " = "a b"%string.
Proof. reflexivity. Qed.

(** ** [textToLines] *)

Lemma textToLines_ref_eq (l : loc) (h : heap) :
  (textToLines (ARef l) h).1 = l.
Proof. reflexivity. Qed.

(** The call on an object found in the heap, with a text that wraps. *)
Example textToLines_wrapped :
  let h : heap := {[ 7 := {[ "text"%string := JStr "Hello<br/>World";
                              "width"%string := JNum 40 ]} ]} in
  (textToLines (ARef 7) h).1 = 7
  ∧ (textToLines (ARef 7) h).2 !! 7 =
      Some ({[ "text"%string := JStr "Hello<br/>World";
               "width"%string := JNum 40;
               "lines"%string := JArr ["Hello"; "World"]%string ]} : obj).
Proof.
  split; [reflexivity|]. vm_compute. reflexivity.
Qed.

(** ** [dispose] and the guard on [_init] *)

(** C2, as found in the code: [dispose] on an initialised manager deletes
    its references and leaves [_init] set; a later [getSmartText] does not
    return [false], it fails on the container object that is gone, and a
    later [useEllipsesOnOverflow] still records the setting. *)
Lemma dispose_keeps_init_counterexample :
  let this := manager_of (container_of mono_node 3) 500 false in
  ∃ this',
    dispose this = Ret RThis this'
    ∧ _init this' = true
    ∧ getSmartText (lib_of (fun _ _ _ => 0%Z)) (JStr "Hello") 100 100 false this'
        = Throws TypeError this'
    ∧ getSmartText (lib_of (fun _ _ _ => 0%Z)) (JStr "Hello") 100 100 false this'
        ≠ Ret IsFalse this'
    ∧ _showNoEllipses this' = None
    ∧ ∃ this'', useEllipsesOnOverflow false this' = Ret RThis this''
                ∧ _showNoEllipses this'' = Some true.
Proof.
  eexists. split; [reflexivity|]. split; [reflexivity|].
  split; [reflexivity|]. split; [discriminate|]. split; [reflexivity|].
  eexists. split; reflexivity.
Qed.

(** C2, amended. [dispose] on an initialised manager returns the manager,
    deletes the references to the container manager, the container, the
    context, the basic cache and the container object (and [id], [style],
    [parentContainer], [_showNoEllipses]) and leaves [_init] as it was. The
    guard of every method is on [_init] alone: on a manager whose [_init] is
    false [getSmartText] and [getOriSize] return [false], [setStyle],
    [useEllipsesOnOverflow] and [dispose] return the manager, and nothing
    changes. After [dispose] the guard is not taken: [getSmartText] stops on
    the container object that is gone and [useEllipsesOnOverflow] records
    the setting. *)
Theorem dispose_spec (this : Manager) (H : _init this = true) :
  (∃ this',
     dispose this = Ret RThis this'
     ∧ _init this' = true
     ∧ _containerManager this' = None ∧ _container this' = None
     ∧ _context this' = false
     ∧ _cache this' = None ∧ _containerObj this' = None
     ∧ id this' = None ∧ style this' = None
     ∧ parentContainer this' = None ∧ _showNoEllipses this' = None
     ∧ _advancedCache this' = _advancedCache this
     ∧ _advancedCacheKey this' = _advancedCacheKey this
     ∧ (∀ L text w h noWrap,
          getSmartText L text w h noWrap this' = Throws TypeError this')
     ∧ (∀ b, useEllipsesOnOverflow b this'
             = Ret RThis (set_showNoEllipses (negb b) this')))
  ∧ (∀ m : Manager, _init m = false →
       (∀ L text w h noWrap, getSmartText L text w h noWrap m = Ret IsFalse m)
       ∧ (∀ text detailed, getOriSize text detailed m = Ret IsFalse m)
       ∧ (∀ L st, setStyle L st m = Ret RThis m)
       ∧ (∀ b, useEllipsesOnOverflow b m = Ret RThis m)
       ∧ dispose m = Ret RThis m).
Proof.
  split.
  - eexists. unfold dispose. rewrite H. cbn. split; [reflexivity|].
    cbn. repeat split; reflexivity.
  - intros m Hm. repeat split; intros;
      unfold getSmartText, getOriSize, setStyle, useEllipsesOnOverflow, dispose;
      rewrite Hm; reflexivity.
Qed.

(** [dispose_spec] on a manager as the constructor leaves it. *)
Lemma dispose_spec_witness :
  _init (manager_of (container_of mono_node 3) 500 false) = true
  ∧ ∃ this',
      dispose (manager_of (container_of mono_node 3) 500 false) = Ret RThis this'
      ∧ _init this' = true.
Proof.
  split; [reflexivity|].
  destruct (dispose_spec (manager_of (container_of mono_node 3) 500 false)
              eq_refl) as [[this' (Hd & Hi & _)] _].
  exists this'. split; assumption.
Defined.

(** ** The advanced cache *)

Lemma Qgtb_false (x y : Q) : Qgtb x y = false → (x <= y)%Q.
Proof.
  unfold Qgtb. intros H. apply Qle_bool_iff.
  destruct (Qle_bool x y); [reflexivity|discriminate].
Qed.

Lemma Qgtb_true (x y : Q) : Qgtb x y = true → (y < x)%Q.
Proof.
  unfold Qgtb. intros H. apply Qnot_le_lt. intros Hle.
  apply Qle_bool_iff in Hle. rewrite Hle in H. discriminate.
Qed.

Lemma cache_store_fields (key : string) (v : cval) (this : Manager) :
  let this' := cache_store key v this in
  _init this' = _init this ∧ style this' = style this
  ∧ maxCacheLimit this' = maxCacheLimit this
  ∧ _container this' = _container this ∧ _cache this' = _cache this
  ∧ _containerObj this' = _containerObj this
  ∧ _lineHeight this' = _lineHeight this.
Proof.
  unfold cache_store. destruct (evict _ _ _). cbn. repeat split.
Qed.

(** A store keeps the key list within the limit. *)
Lemma cache_store_bounded (key : string) (v : cval) (this : Manager) :
  cache_bounded this → cache_bounded (cache_store key v this).
Proof.
  unfold cache_bounded, cache_store, evict. intros Hb.
  destruct (Qgtb _ _) eqn:Hgt.
  - destruct (_advancedCacheKey this) as [|k ks] eqn:Hk; cbn.
    + exact Hb.
    + rewrite length_app. cbn. cbn in Hb.
      replace (length ks + 1) with (S (length ks)) by lia. exact Hb.
  - cbn. apply Qgtb_false in Hgt. exact Hgt.
Qed.

(** A store keeps every key of the cache in the key list. *)
Lemma cache_store_listed (key : string) (v : cval) (this : Manager) :
  cache_listed this → cache_listed (cache_store key v this).
Proof.
  unfold cache_listed, cache_store, evict. intros Hl.
  assert (Hin : ∀ k, is_Some (<[key:=v]> (_advancedCache this) !! k) →
                     k ∈ _advancedCacheKey this ++ [key]).
  { intros k Hk. destruct (decide (k = key)) as [->|Hne].
    - apply elem_of_app. right. apply list_elem_of_singleton. reflexivity.
    - rewrite lookup_insert_ne in Hk by done.
      apply elem_of_app. left. apply Hl, Hk. }
  destruct (Qgtb _ _).
  - destruct (_advancedCacheKey this ++ [key]) as [|k0 ks] eqn:Hk; cbn.
    + destruct (_advancedCacheKey this); discriminate.
    + intros k Hsome. destruct (decide (k = k0)) as [->|Hne].
      * rewrite lookup_delete_eq in Hsome. destruct Hsome; discriminate.
      * rewrite lookup_delete_ne in Hsome by done.
        apply Hin in Hsome. apply elem_of_cons in Hsome as [->|Hks]; done.
  - cbn. exact Hin.
Qed.

(** When the key list grows past the limit, the key stored first goes, from
    the list and from the cache. *)
Lemma cache_store_oldest (key : string) (v : cval) (this : Manager)
    (oldest : string) (rest : list string) :
  _advancedCacheKey this ++ [key] = oldest :: rest →
  Qgtb (Qnat (length (oldest :: rest))) (maxCacheLimit this) = true →
  _advancedCacheKey (cache_store key v this) = rest
  ∧ _advancedCache (cache_store key v this) !! oldest = None.
Proof.
  intros Hk Hgt. unfold cache_store, evict. rewrite Hk, Hgt. cbn.
  split; [reflexivity|]. apply lookup_delete_eq.
Qed.

(** The cache holds no more entries than the key list has keys. *)
Lemma cache_listed_size (this : Manager) :
  cache_listed this →
  size (_advancedCache this) ≤ length (_advancedCacheKey this).
Proof.
  intros Hl.
  rewrite <- size_dom.
  transitivity (size (list_to_set (C := gset string) (_advancedCacheKey this))).
  - apply subseteq_size. intros k Hk. apply elem_of_dom in Hk.
    apply elem_of_list_to_set. apply Hl, Hk.
  - generalize (_advancedCacheKey this). intros l. induction l as [|a l IH].
    + cbn. rewrite size_empty. lia.
    + cbn [list_to_set length].
      rewrite size_union_alt, size_singleton.
      assert (size (list_to_set (C := gset string) l ∖ {[a]})
              ≤ size (list_to_set (C := gset string) l))
        by (apply subseteq_size, subseteq_difference_l; reflexivity).
      lia.
Qed.

(** The two halves of [_calCharDimWithCache] keep both properties, however
    they end. *)
Lemma asymmetricDifference_cache_inv (key text : string) (cd : bool) (l : nat)
    (this this' : Manager) :
  cache_bounded this → cache_listed this →
  outcome_state (asymmetricDifference key text cd l this) = Some this' →
  cache_bounded this' ∧ cache_listed this'
  ∧ _init this' = _init this ∧ maxCacheLimit this' = maxCacheLimit this.
Proof.
  intros Hb Hl. unfold asymmetricDifference.
  destruct cd; cbn; [|intros [= <-]; repeat split; assumption].
  destruct (_advancedCache this !! key) as [[q|w h]|]; cbn.
  - intros [= <-]. repeat split; assumption.
  - discriminate.
  - destruct (_container this) as [n|]; cbn; intros [= <-].
    + pose proof (cache_store_fields key (CNum (asymmetric n text l)) this)
        as (Hi & _ & Hm & _).
      split; [by apply cache_store_bounded|].
      split; [by apply cache_store_listed|]. split; assumption.
    + repeat split; assumption.
Qed.

Lemma cachedOrMeasured_cache_inv (key text : string) (asym : Q)
    (this this' : Manager) :
  cache_bounded this → cache_listed this →
  outcome_state (cachedOrMeasured key text asym this) = Some this' →
  cache_bounded this' ∧ cache_listed this'
  ∧ _init this' = _init this ∧ maxCacheLimit this' = maxCacheLimit this.
Proof.
  intros Hb Hl. unfold cachedOrMeasured.
  assert (Hmeasure :
    outcome_state
      match _container this with
      | Some n =>
          Ret {| Size.height := offsetHeight n text;
                 Size.width := js_add (offsetWidth n text) asym |}
            (cache_store key
               (CDim (js_add (offsetWidth n text) asym) (offsetHeight n text)) this)
      | None => Throws TypeError this
      end = Some this' →
    cache_bounded this' ∧ cache_listed this'
    ∧ _init this' = _init this ∧ maxCacheLimit this' = maxCacheLimit this).
  { destruct (_container this) as [n|]; cbn; intros [= <-].
    - pose proof (cache_store_fields key
        (CDim (js_add (offsetWidth n text) asym) (offsetHeight n text)) this)
        as (Hi & _ & Hm & _).
      split; [by apply cache_store_bounded|].
      split; [by apply cache_store_listed|]. split; assumption.
    - repeat split; assumption. }
  destruct (_advancedCache this !! key) as [[q|w h]|].
  - destruct (Qeq_bool q 0); [exact Hmeasure|].
    cbn. intros [= <-]. repeat split; assumption.
  - cbn. intros [= <-]. repeat split; assumption.
  - destruct (inherited key); [|exact Hmeasure].
    cbn. intros [= <-]. repeat split; assumption.
Qed.

(** [_calCharDimWithCache] keeps both properties, however it ends. *)
Lemma calCharDim_cache_inv (text : string) (cd : bool) (l : nat)
    (this this' : Manager) :
  cache_bounded this → cache_listed this →
  outcome_state (_calCharDimWithCache text cd l this) = Some this' →
  cache_bounded this' ∧ cache_listed this'
  ∧ _init this' = _init this ∧ maxCacheLimit this' = maxCacheLimit this.
Proof.
  intros Hb Hl. unfold _calCharDimWithCache.
  destruct (_init this) eqn:Hinit; cbn;
    [|intros [= <-]; repeat split; assumption].
  unfold bind.
  destruct (asymmetricDifference _ _ _ _ this) as [a m|e m|] eqn:Ha;
    [| |discriminate].
  - destruct (asymmetricDifference_cache_inv _ _ _ _ this m Hb Hl
                  ltac:(rewrite Ha; reflexivity)) as (Hb1 & Hl1 & Hi1 & Hm1).
    destruct (cachedOrMeasured _ _ _ m) as [sz m'|e m'|] eqn:Hc;
      [| |discriminate].
    + destruct (cachedOrMeasured_cache_inv _ _ _ m m' Hb1 Hl1
                  ltac:(rewrite Hc; reflexivity)) as (?&?&?&?).
      cbn. intros [= <-]. repeat split; [done|done|congruence|congruence].
    + destruct (cachedOrMeasured_cache_inv _ _ _ m m' Hb1 Hl1
                  ltac:(rewrite Hc; reflexivity)) as (?&?&?&?).
      cbn. intros [= <-]. repeat split; [done|done|congruence|congruence].
  - destruct (asymmetricDifference_cache_inv _ _ _ _ this m Hb Hl
                ltac:(rewrite Ha; reflexivity)) as (?&?&?&?).
    cbn. intros [= <-]. repeat split; [done|done|congruence|congruence].
Qed.

Lemma getOriSize_loop_cache_inv (textArr : list string) (l : nat)
    (h c : Q) (store : gmap string Q) (this this' : Manager) :
  cache_bounded this → cache_listed this →
  outcome_state (getOriSize_loop textArr l h c store this) = Some this' →
  cache_bounded this' ∧ cache_listed this'
  ∧ _init this' = _init this ∧ maxCacheLimit this' = maxCacheLimit this.
Proof.
  revert h c store this.
  induction textArr as [|letter rest IH]; intros h c store this Hb Hl; cbn.
  - intros [= <-]. repeat split; assumption.
  - unfold bind.
    destruct (_calCharDimWithCache letter true l this) as [r m|e m|] eqn:Hcall;
      cbn; [| |discriminate].
    + pose proof (calCharDim_cache_inv letter true l this m Hb Hl) as Hinv.
      rewrite Hcall in Hinv. destruct (Hinv eq_refl) as (Hb' & Hl' & Hi' & Hm').
      destruct r as [|lSize]; [discriminate|].
      intros Hout. destruct (IH _ _ _ _ Hb' Hl' Hout) as (?&?&?&?).
      repeat split; [done|done|congruence|congruence].
    + pose proof (calCharDim_cache_inv letter true l this m Hb Hl) as Hinv.
      rewrite Hcall in Hinv. intros [= <-]. exact (Hinv eq_refl).
Qed.

(** Whatever is measured through [getOriSize], and however the call ends,
    the key list stays within the limit, every key of the cache stays in the
    key list, and so the cache holds no more entries than the limit. *)
Lemma getOriSize_cache_inv (text : string) (detailed : bool)
    (this this' : Manager) :
  cache_bounded this → cache_listed this →
  outcome_state (getOriSize text detailed this) = Some this' →
  cache_bounded this' ∧ cache_listed this'
  ∧ (Qnat (size (_advancedCache this')) <= maxCacheLimit this')%Q.
Proof.
  intros Hb Hl Hout.
  assert (Hinv : cache_bounded this' ∧ cache_listed this').
  { revert Hout. unfold getOriSize.
    destruct (_init this); cbn; [|intros [= <-]; done].
    destruct detailed; cbn; unfold bind.
    - destruct (getOriSize_loop _ _ _ _ _ this) as [[[h c] st] m|e m|] eqn:Hloop;
        cbn; [| |discriminate]; intros [= <-];
        pose proof (getOriSize_loop_cache_inv (JS.split_chars text)
                      (length (JS.split_chars text)) 0%Q 0%Q ∅ this m Hb Hl) as Hinv;
        rewrite Hloop in Hinv; destruct (Hinv eq_refl) as (?&?&_); done.
    - destruct (_calCharDimWithCache text false 0 this) as [r m|e m|] eqn:Hcall;
        cbn; [| |discriminate]; intros [= <-];
        pose proof (calCharDim_cache_inv text false 0 this m Hb Hl) as Hinv;
        rewrite Hcall in Hinv; destruct (Hinv eq_refl) as (?&?&_); done. }
  destruct Hinv as [Hb' Hl']. repeat split; [done|done|].
  eapply Qle_trans; [|exact Hb'].
  unfold Qnat. rewrite <- Zle_Qle. apply Nat2Z.inj_le.
  by apply cache_listed_size.
Qed.

(** C3, on the code: with a limit of two entries, the size of ["a"] is asked
    for in detail and then the size of ["ainit"]. The correction of ["a"] is
    zero and is stored under the key that ["ainit"] also has; the second call
    takes the zero for a miss, stores its size under that key and pushes the
    key a second time. The eviction that follows removes the first
    occurrence from the list and the entry from the cache: the key is still
    in the list and no longer in the cache. *)
Theorem advanced_cache_out_of_sync :
  let this := manager_of (container_of mono_node 3) 2 false in
  ∃ r1 this1 r2 this2,
    getOriSize "a" true this = Ret r1 this1
    ∧ _advancedCacheKey this1 = ["ainit12pxArial"; "a12pxArial"]%string
    ∧ _advancedCache this1 !! "ainit12pxArial"%string = Some (CNum 0)
    ∧ getOriSize "ainit" false this1 = Ret r2 this2
    ∧ _advancedCacheKey this2 = ["a12pxArial"; "ainit12pxArial"]%string
    ∧ _advancedCache this2 !! "ainit12pxArial"%string = None
    ∧ dom (_advancedCache this2) = {[ "a12pxArial"%string ]}
    ∧ dom (_advancedCache this2) ≠ list_to_set (_advancedCacheKey this2).
Proof.
  eexists _, _, _, _.
  split; [vm_compute; reflexivity|].
  split; [vm_compute; reflexivity|].
  split; [vm_compute; reflexivity|].
  split; [vm_compute; reflexivity|].
  split; [vm_compute; reflexivity|].
  split; [vm_compute; reflexivity|].
  split; [vm_compute; reflexivity|].
  apply (bool_decide_unpack _). vm_compute. exact I.
Qed.

(** ** The correction of repeated characters *)

Lemma cacheName_neq_init (this : Manager) (text : string) :
  cacheName this text ≠ cacheInitName this text.
Proof.
  unfold cacheName, cacheInitName. generalize (style_suffix (style this)).
  intros sfx Heq. apply (inj (String.app text)) in Heq.
  apply (f_equal String.length) in Heq.
  cbv [String.append] in Heq. cbn in Heq. lia.
Qed.

Lemma cache_store_lookup_None (key key' : string) (v : cval) (this : Manager) :
  key' ≠ key → _advancedCache this !! key' = None →
  _advancedCache (cache_store key v this) !! key' = None.
Proof.
  intros Hne Hnone. unfold cache_store, evict.
  destruct (Qgtb _ _); [|cbn; by rewrite lookup_insert_ne].
  destruct (_advancedCacheKey this ++ [key]) as [|k ks]; cbn.
  - destruct (decide (key' = "undefined"%string)) as [->|Hu].
    + apply lookup_delete_eq.
    + rewrite lookup_delete_ne by done. by rewrite lookup_insert_ne.
  - destruct (decide (key' = k)) as [->|Hk].
    + apply lookup_delete_eq.
    + rewrite lookup_delete_ne by done. by rewrite lookup_insert_ne.
Qed.

(** The first call for a character: the correction is derived and stored,
    the character is measured, and the width returned is the width measured
    plus the correction. *)
Lemma calCharDim_miss (this : Manager) (n : Node) (text : string) (l : nat) :
  _init this = true → _container this = Some n →
  _advancedCache this !! cacheInitName this text = None →
  _advancedCache this !! cacheName this text = None →
  inherited (cacheName this text) = false →
  let t := htmlSplCharSpace text in
  let d := js_div (js_sub (offsetWidth n (JS.repeat_str t l))
                     (js_mul (Qnat l) (offsetWidth n t)))
             (js_add (Qnat l) 1) in
  let w := js_add (offsetWidth n t) d in
  _calCharDimWithCache text true l this =
    Ret (Val {| Size.width := w; Size.height := offsetHeight n t |})
      (cache_store (cacheName this text) (CDim w (offsetHeight n t))
         (cache_store (cacheInitName this text) (CNum d) this)).
Proof.
  intros Hinit Hc Hi Hn Hown t d w.
  unfold _calCharDimWithCache. rewrite Hinit. cbn.
  unfold bind, asymmetricDifference. cbn.
  fold (cacheInitName this text). fold (cacheName this text).
  rewrite Hi, Hc. fold t. unfold asymmetric. fold d.
  unfold cachedOrMeasured.
  pose proof (cache_store_fields (cacheInitName this text) (CNum d) this)
    as (_ & _ & _ & Hc' & _).
  cbn in Hc'. rewrite Hc', Hc, Hown.
  rewrite (cache_store_lookup_None (cacheInitName this text) (cacheName this text));
    [reflexivity|apply cacheName_neq_init|exact Hn].
Qed.

(** A later call finds the size of the character in the cache and returns
    it as it is, whatever the correction is now. *)
Lemma calCharDim_hit (this : Manager) (text : string) (l : nat) (q w h : Q) :
  _init this = true →
  _advancedCache this !! cacheInitName this text = Some (CNum q) →
  _advancedCache this !! cacheName this text = Some (CDim w h) →
  _calCharDimWithCache text true l this =
    Ret (Val {| Size.width := w; Size.height := h |}) this.
Proof.
  intros Hinit Hi Hn.
  unfold _calCharDimWithCache. rewrite Hinit. cbn.
  unfold bind, asymmetricDifference. cbn.
  fold (cacheInitName this text). fold (cacheName this text).
  rewrite Hi. unfold cachedOrMeasured. rewrite Hn. reflexivity.
Qed.

Lemma getOriSize_loop_letterSizes (textArr : list string) (l : nat)
    (h c : Q) (store : gmap string Q) (this this' : Manager)
    (h' c' : Q) (store' : gmap string Q) :
  getOriSize_loop textArr l h c store this = Ret (h', c', store') this' →
  ∃ sizes,
    letterSizes textArr l this = Ret sizes this'
    ∧ c' = fold_left js_add (map Size.width sizes) c
    ∧ h' = fold_left js_max (map Size.height sizes) h.
Proof.
  revert h c store this.
  induction textArr as [|letter rest IH]; intros h c store this; cbn.
  - intros [= <- <- <- <-]. exists []. repeat split.
  - unfold bind.
    destruct (_calCharDimWithCache letter true l this) as [[|s] m|e m|];
      try discriminate.
    intros Hloop. destruct (IH _ _ _ _ Hloop) as (sizes & Hs & Hc & Hh).
    exists (s :: sizes). rewrite Hs. cbn. repeat split; assumption.
Qed.

(** The correction found in the cache is used as it is. *)
Lemma calCharDim_correction_cached (this : Manager) (n : Node) (text : string)
    (l : nat) (q : Q) :
  _init this = true → _container this = Some n →
  _advancedCache this !! cacheInitName this text = Some (CNum q) →
  _advancedCache this !! cacheName this text = None →
  inherited (cacheName this text) = false →
  let t := htmlSplCharSpace text in
  let w := js_add (offsetWidth n t) q in
  _calCharDimWithCache text true l this =
    Ret (Val {| Size.width := w; Size.height := offsetHeight n t |})
      (cache_store (cacheName this text) (CDim w (offsetHeight n t)) this).
Proof.
  intros Hinit Hc Hi Hn Hown t w.
  unfold _calCharDimWithCache. rewrite Hinit. cbn.
  unfold bind, asymmetricDifference. cbn.
  fold (cacheInitName this text). fold (cacheName this text).
  rewrite Hi. unfold cachedOrMeasured. rewrite Hn, Hc, Hown. reflexivity.
Qed.

(** C4, on the code: the size of ["aa"] is asked for in detail, which caches
    for [a] the correction of a string of length two, one, and the width
    eleven. The call in correction mode for a string of length three returns
    the cached width, eleven, and not ten plus the correction of a string of
    length three, which is three halves. *)
Lemma correction_ignored_on_hit_counterexample :
  let this0 := manager_of (container_of kern_node 3) 500 false in
  ∃ r this1 size this2,
    getOriSize "aa" true this0 = Ret r this1
    ∧ _calCharDimWithCache "a" true 3 this1 = Ret (Val size) this2
    ∧ (offsetWidth kern_node "a" == 10)%Q
    ∧ (asymmetric kern_node "a" 3 == 3 # 2)%Q
    ∧ (Size.width size == 11)%Q
    ∧ ¬ (Size.width size
         == offsetWidth kern_node "a" + asymmetric kern_node "a" 3)%Q.
Proof.
  eexists _, _, _, _.
  split; [vm_compute; reflexivity|].
  split; [vm_compute; reflexivity|].
  split; [reflexivity|]. split; [reflexivity|]. split; [reflexivity|].
  intros H. vm_compute in H. discriminate.
Qed.

(** C4, amended. In correction mode, for a character whose correction and
    size are not yet in the cache, [_calCharDimWithCache] derives the
    correction [(width(char x L) - L * width(char)) / (L + 1)], stores it
    under the [init] key, measures the character, stores the size under the
    plain key (each store followed by the eviction check) and returns the
    width measured plus the correction and the height measured. A correction
    found in the cache is used as it is, and a size found in the cache is
    returned as it is. [getOriSize] in detailed mode returns the rounded sum
    of the widths so returned and the largest of the heights. The
    arithmetic is that of the engine: every operation rounds to binary64.
    What is measured is the text, [&nbsp;] for a space, and for a name every
    object inherits the inherited value; the plain key is not such a name
    (else line 151 finds the inherited value and line 152 throws). *)
Theorem correction_on_first_measure (this : Manager) (n : Node)
    (text : string) (l : nat)
    (Hinit : _init this = true) (Hcontainer : _container this = Some n) :
  let t := htmlSplCharSpace text in
  let d := js_div (js_sub (offsetWidth n (JS.repeat_str t l))
                     (js_mul (Qnat l) (offsetWidth n t)))
             (js_add (Qnat l) 1) in
  let w := js_add (offsetWidth n t) d in
  (_advancedCache this !! cacheInitName this text = None →
   _advancedCache this !! cacheName this text = None →
   inherited (cacheName this text) = false →
   _calCharDimWithCache text true l this =
     Ret (Val {| Size.width := w; Size.height := offsetHeight n t |})
       (cache_store (cacheName this text) (CDim w (offsetHeight n t))
          (cache_store (cacheInitName this text) (CNum d) this)))
  ∧ (∀ q,
       _advancedCache this !! cacheInitName this text = Some (CNum q) →
       _advancedCache this !! cacheName this text = None →
       inherited (cacheName this text) = false →
       _calCharDimWithCache text true l this =
         Ret (Val {| Size.width := js_add (offsetWidth n t) q;
                     Size.height := offsetHeight n t |})
           (cache_store (cacheName this text)
              (CDim (js_add (offsetWidth n t) q) (offsetHeight n t)) this))
  ∧ (∀ q w0 h0,
       _advancedCache this !! cacheInitName this text = Some (CNum q) →
       _advancedCache this !! cacheName this text = Some (CDim w0 h0) →
       _calCharDimWithCache text true l this =
         Ret (Val {| Size.width := w0; Size.height := h0 |}) this)
  ∧ (∀ o this',
       getOriSize text true this = Ret (Val o) this' →
       ∃ sizes,
         letterSizes (JS.split_chars text) (length (JS.split_chars text)) this
           = Ret sizes this'
         ∧ OriSize.width o
             = js_round (fold_left js_add (map Size.width sizes) 0%Q)
         ∧ OriSize.height o = fold_left js_max (map Size.height sizes) 0%Q).
Proof.
  intros t d w. split; [|split; [|split]].
  - intros Hi Hn Hown.
    exact (calCharDim_miss this n text l Hinit Hcontainer Hi Hn Hown).
  - intros q Hi Hn Hown.
    exact (calCharDim_correction_cached this n text l q Hinit Hcontainer Hi Hn Hown).
  - intros q w0 h0 Hi Hn. exact (calCharDim_hit this text l q w0 h0 Hinit Hi Hn).
  - intros o this'. unfold getOriSize. rewrite Hinit. cbn. unfold bind.
    destruct (getOriSize_loop _ _ _ _ _ this) as [[[h c] st] m|e m|] eqn:Hloop;
      try discriminate.
    cbn. intros [= <- <-].
    destruct (getOriSize_loop_letterSizes _ _ _ _ _ _ _ _ _ _ Hloop)
      as (sizes & Hs & -> & ->).
    exists sizes. repeat split. exact Hs.
Qed.

(** [correction_on_first_measure] on an empty cache: the character [a] of a
    string of length two. *)
Lemma correction_on_first_measure_witness :
  let this := manager_of (container_of kern_node 3) 500 false in
  _init this = true ∧ _container this = Some kern_node
  ∧ ∃ size this',
      _calCharDimWithCache "a" true 2 this = Ret (Val size) this'
      ∧ (Size.width size == 11)%Q ∧ (Size.height size == 12)%Q
      ∧ _advancedCacheKey this' = ["ainit12pxArial"; "a12pxArial"]%string.
Proof.
  split; [reflexivity|]. split; [reflexivity|].
  destruct (correction_on_first_measure
              (manager_of (container_of kern_node 3) 500 false) kern_node "a" 2
              eq_refl eq_refl) as [Hmiss _].
  eexists _, _. split; [apply Hmiss; reflexivity|].
  split; [reflexivity|]. split; reflexivity.
Defined.

(** The whole of a detailed measure on an empty cache: two letters, each
    eleven wide once corrected. *)
Example getOriSize_detailed_ab :
  ∃ o this',
    getOriSize "ab" true (manager_of (container_of kern_node 3) 500 false)
      = Ret (Val o) this'
    ∧ OriSize.width o = 22%Q ∧ OriSize.height o = 12%Q
    ∧ (offsetWidth kern_node "ab" == 23)%Q.
Proof. eexists _, _. split; [vm_compute; reflexivity|]. repeat split. Qed.

(** The sum is the engine's: on [drift_node] the corrections of ["abbbb"]
    are a sixth and a third, the five widths add up to six and a half in
    the rationals, and to a number just below in binary64, which
    [Math.round] takes down to six. *)
Example getOriSize_rounds_as_the_engine :
  ∃ o this',
    getOriSize "abbbb" true (manager_of (container_of drift_node 3) 500 false)
      = Ret (Val o) this'
    ∧ OriSize.width o = 6%Q
    ∧ (1 + (1 # 6) + 4 * (1 + (1 # 3)) == 13 # 2)%Q
    ∧ js_round (13 # 2) = 7%Q.
Proof. eexists _, _. split; [vm_compute; reflexivity|]. repeat split. Qed.

(** A text that is a name every object inherits: what is measured is the
    inherited value, and when the style adds nothing to the key, the lookup
    in the cache finds the inherited value and the method throws. *)
Example inherited_name_as_text :
  let this := manager_of (container_of mono_node 3) 500 false in
  let bare := set_style_none this in
  (∃ o this', getOriSize "constructor" false this = Ret (Val o) this'
              ∧ OriSize.width o = 35%Q
              ∧ Qnat (String.length "constructor") = 11%Q)
  ∧ getOriSize "constructor" false bare = Throws TypeError bare.
Proof.
  split; [eexists _, _; split; [vm_compute; reflexivity|]; split; reflexivity|].
  vm_compute. reflexivity.
Qed.

(** ** The widths of the characters in the loops *)

Section CharWidth.

Variable getWidth : option string → Q.
Variable detailObj : option (gmap string Q).

(** Reading a character returns the width [widthOf] gives for the cache at
    hand, and leaves a cache that gives the same widths. *)
Lemma charWidth_spec (tempChar : string) (this : Manager) (c0 : gmap string Q) :
  _cache this = Some c0 →
  ∃ this' c1,
    charWidth getWidth detailObj tempChar this
      = Ret (widthOf getWidth detailObj c0 tempChar) this'
    ∧ _cache this' = Some c1
    ∧ (∀ ch, widthOf getWidth detailObj c1 ch = widthOf getWidth detailObj c0 ch)
    ∧ _advancedCache this' = _advancedCache this
    ∧ _advancedCacheKey this' = _advancedCacheKey this
    ∧ maxCacheLimit this' = maxCacheLimit this.
Proof.
  intros Hc. unfold charWidth, widthOf. rewrite Hc.
  destruct (c0 !! tempChar) as [w|] eqn:Hlook.
  - exists this, c0. repeat split; assumption.
  - eexists _, _. split; [reflexivity|]. split; [reflexivity|].
    split; [|repeat split].
    intros ch. destruct (decide (ch = tempChar)) as [->|Hne].
    + rewrite lookup_insert_eq, Hlook. reflexivity.
    + rewrite lookup_insert_ne by done. reflexivity.
Qed.

Lemma runningWidths_ext (w1 w2 : string → Q) (chars : list string) (s : Q) :
  (∀ ch, w1 ch = w2 ch) → runningWidths w1 chars s = runningWidths w2 chars s.
Proof.
  intros Hext. revert s. induction chars as [|c chars IH]; intros s; cbn.
  - reflexivity.
  - rewrite Hext, IH. reflexivity.
Qed.

End CharWidth.

Lemma default_last_cons {A} (d x : A) (l : list A) :
  default d (last (x :: l)) = default x (last l).
Proof.
  revert d x. induction l as [|y l IH]; intros d x; [reflexivity|].
  change (last (x :: y :: l)) with (last (y :: l)).
  rewrite (IH d y), (IH x y). reflexivity.
Qed.

(** ** The no-wrap loop *)

Section NoWrap.

Variable getWidth : option string → Q.
Variable detailObj : option (gmap string Q).
Variable text_ : string.
Variables maxWidth_ lineHeight_ : Q.
Variable smartLabel : SmartLabel.
Variable maxWidthWithEll : Q.
Variable ellipsesStr : string.

Local Abbreviation loop :=
  (nowrap_loop getWidth detailObj text_ maxWidth_ lineHeight_ smartLabel
     maxWidthWithEll ellipsesStr).

(** The loop always returns. Either no running width exceeds both the
    budget and the bound, and the result is the whole array with the last
    running width; or some running width exceeds both, and the result is a
    trimmed string, the ellipsis and the tooltip. *)
Lemma nowrap_loop_spec (n i : nat) (tempArr : list string) (strWidth : Q)
    (trimStr : option string) (this : Manager) (c0 : gmap string Q) :
  _cache this = Some c0 →
  let rs := runningWidths (widthOf getWidth detailObj c0)
              (map (oriTextArr_at text_) (seq i n)) strWidth in
  ∃ this',
    (Forall (fun r => Qgtb r maxWidthWithEll && Qgtb r maxWidth_ = false) rs
     ∧ loop n i tempArr strWidth trimStr this
       = Ret (with_size (default strWidth (last rs)) lineHeight_
                (with_text (JS.join (filled text_ tempArr i n)) smartLabel))
           this')
    ∨ (∃ j r trim,
         rs !! j = Some r
         ∧ Qgtb r maxWidthWithEll = true ∧ Qgtb r maxWidth_ = true
         ∧ loop n i tempArr strWidth trimStr this
           = Ret (truncated smartLabel ellipsesStr trim
                    (getWidth (Some (JS.fastTrim trim +:+ ellipsesStr)))
                    lineHeight_)
               this').
Proof.
  revert i tempArr strWidth trimStr this c0.
  induction n as [|n IH]; intros i tempArr strWidth trimStr this c0 Hc; cbn.
  - exists this. left. split; [constructor|reflexivity].
  - destruct (charWidth_spec getWidth detailObj (oriTextArr_at text_ i) this c0 Hc)
      as (this1 & c1 & Hcw & Hc1 & Hext & _).
    unfold bind. rewrite Hcw.
    set (r1 := (strWidth + widthOf getWidth detailObj c0 (oriTextArr_at text_ i))%Q).
    set (tempArr1 := JS.array_set tempArr i (oriTextArr_at text_ i)).
    assert (Hgo : ∀ trimStr1,
      ∃ this',
        (Forall (fun r => Qgtb r maxWidthWithEll && Qgtb r maxWidth_ = false)
           (runningWidths (widthOf getWidth detailObj c0)
              (map (oriTextArr_at text_) (seq (S i) n)) r1)
         ∧ loop n (S i) tempArr1 r1 trimStr1 this1
           = Ret (with_size
                    (default r1 (last (runningWidths (widthOf getWidth detailObj c0)
                       (map (oriTextArr_at text_) (seq (S i) n)) r1)))
                    lineHeight_
                    (with_text (JS.join (filled text_ tempArr1 (S i) n)) smartLabel))
               this')
        ∨ (∃ j r trim,
             runningWidths (widthOf getWidth detailObj c0)
               (map (oriTextArr_at text_) (seq (S i) n)) r1 !! j = Some r
             ∧ Qgtb r maxWidthWithEll = true ∧ Qgtb r maxWidth_ = true
             ∧ loop n (S i) tempArr1 r1 trimStr1 this1
               = Ret (truncated smartLabel ellipsesStr trim
                        (getWidth (Some (JS.fastTrim trim +:+ ellipsesStr)))
                        lineHeight_)
                   this')).
    { intros trimStr1.
      destruct (IH (S i) tempArr1 r1 trimStr1 this1 c1 Hc1) as [this' Hres].
      rewrite (runningWidths_ext _ _ _ _ Hext) in Hres.
      exists this'. exact Hres. }
    assert (Hlift : ∀ trimStr1, Qgtb r1 maxWidthWithEll && Qgtb r1 maxWidth_ = false →
      ∃ this',
        (Forall (fun r => Qgtb r maxWidthWithEll && Qgtb r maxWidth_ = false)
           (r1 :: runningWidths (widthOf getWidth detailObj c0)
                    (map (oriTextArr_at text_) (seq (S i) n)) r1)
         ∧ loop n (S i) tempArr1 r1 trimStr1 this1
           = Ret (with_size
                    (default strWidth (last (r1 :: runningWidths
                       (widthOf getWidth detailObj c0)
                       (map (oriTextArr_at text_) (seq (S i) n)) r1)))
                    lineHeight_
                    (with_text (JS.join (filled text_ tempArr (i) (S n))) smartLabel))
               this')
        ∨ (∃ j r trim,
             (r1 :: runningWidths (widthOf getWidth detailObj c0)
                (map (oriTextArr_at text_) (seq (S i) n)) r1) !! j = Some r
             ∧ Qgtb r maxWidthWithEll = true ∧ Qgtb r maxWidth_ = true
             ∧ loop n (S i) tempArr1 r1 trimStr1 this1
               = Ret (truncated smartLabel ellipsesStr trim
                        (getWidth (Some (JS.fastTrim trim +:+ ellipsesStr)))
                        lineHeight_)
                   this')).
    { intros trimStr1 Hok.
      destruct (Hgo trimStr1) as [this' [[Hall Hres]|(j & r & trim & Hj & H1 & H2 & Hres)]].
      - exists this'. left. split; [constructor; assumption|].
        rewrite default_last_cons. exact Hres.
      - exists this'. right. exists (S j), r, trim. repeat split; assumption. }
    destruct (Qgtb r1 maxWidthWithEll) eqn:Hell.
    + destruct (Qgtb r1 maxWidth_) eqn:Hmax.
      * eexists. right. exists 0, r1, (set_trimStr trimStr tempArr1).
        repeat split; first [assumption | reflexivity].
      * apply Hlift. rewrite ?Hell, ?Hmax. reflexivity.
    + apply Hlift. rewrite ?Hell. reflexivity.
Qed.


(** When the budget is not larger than the bound and the loop reads at least
    one character, a result without tooltip is not wider than [maxWidth]:
    the running width may have passed the budget, not the bound. *)
Lemma nowrap_width_within_bound (n i : nat) (tempArr : list string)
    (strWidth : Q) (trimStr : option string) (this this' : Manager)
    (c0 : gmap string Q) (sl : SmartLabel) :
  _cache this = Some c0 → 0 < n →
  (maxWidthWithEll <= maxWidth_)%Q →
  loop n i tempArr strWidth trimStr this = Ret sl this' →
  tooltext smartLabel = None → tooltext sl = None →
  ∃ w, width sl = Some w ∧ (w <= maxWidth_)%Q.
Proof.
  intros Hc Hn Hle Hres Hnone Htool.
  destruct (nowrap_loop_spec n i tempArr strWidth trimStr this c0 Hc)
    as [this1 [[Hall Hfull]|(j & r & trim & _ & _ & _ & Htrunc)]].
  - rewrite Hfull in Hres. injection Hres as <- _. cbn.
    eexists. split; [reflexivity|].
    destruct n as [|n]; [lia|]. cbn [seq map runningWidths] in *.
    rewrite default_last_cons.
    set (rs := runningWidths _ _ _) in *.
    assert (Hin : default (strWidth + widthOf getWidth detailObj c0
                                         (oriTextArr_at text_ i))%Q (last rs)
                  ∈ (strWidth + widthOf getWidth detailObj c0
                                  (oriTextArr_at text_ i))%Q :: rs).
    { destruct (last rs) as [x|] eqn:Hlast; cbn.
      - apply elem_of_cons. right. apply last_Some in Hlast as [l' ->].
        apply elem_of_app. right. apply list_elem_of_singleton. reflexivity.
      - apply elem_of_cons. left. reflexivity. }
    rewrite Forall_forall in Hall. specialize (Hall _ Hin).
    destruct (Qgtb _ maxWidth_) eqn:Hgt; [|exact (Qgtb_false _ _ Hgt)].
    rewrite andb_true_r in Hall. apply Qgtb_false in Hall.
    eapply Qle_trans; [exact Hall|exact Hle].
  - rewrite Htrunc in Hres. injection Hres as <- _. cbn in Htool.
    discriminate.
Qed.

End NoWrap.

(** ** The wrap loop *)

Lemma length_array_set (a : list string) (i : nat) (v : string) :
  S i ≤ length (JS.array_set a i v).
Proof.
  unfold JS.array_set. destruct (i <? length a) eqn:Hlt.
  - apply Nat.ltb_lt in Hlt. rewrite length_insert. lia.
  - apply Nat.ltb_ge in Hlt. rewrite !length_app, length_replicate. cbn. lia.
Qed.

Lemma length_splice1 {A} (a : list A) (start : nat) (v : A) :
  length a ≤ length (JS.splice1 a start v).
Proof.
  unfold JS.splice1. rewrite length_app, length_take. cbn. rewrite length_drop. lia.
Qed.

Section Wrap.

Variable L : Lib.
Variable getWidth : option string → Q.
Variable detailObj : option (gmap string Q).
Variable text_ : string.
Variables maxWidth_ maxHeight_ lineHeight_ : Q.
Variable context_ : bool.
Variable smartLabel : SmartLabel.
Variable maxWidthWithEll : Q.
Variable ellipsesStr : string.

Local Abbreviation step :=
  (wrap_step L getWidth detailObj text_ maxWidth_ maxHeight_ lineHeight_
     context_ smartLabel maxWidthWithEll ellipsesStr).
Local Abbreviation loop :=
  (wrap_loop L getWidth detailObj text_ maxWidth_ maxHeight_ lineHeight_
     context_ smartLabel maxWidthWithEll ellipsesStr).
Local Abbreviation break_at := (wrap_break getWidth text_).

Lemma length_wrap_break (i : nat) (tempArr : list string) (lastIndexBroken : Z) :
  length tempArr ≤ length (br_tempArr (break_at i tempArr lastIndexBroken)).
Proof.
  unfold wrap_break.
  repeat match goal with |- context [if ?b then _ else _] => destruct b end;
    cbn; apply length_splice1.
Qed.

(** One iteration, spelled out on the width that [widthOf] gives the
    character read. *)
Lemma wrap_step_spec (st : WrapState) (this : Manager) (c0 : gmap string Q) :
  _cache this = Some c0 →
  let i := w_i st in
  let tempArr := JS.array_set (w_tempArr st) i (oriTextArr_at text_ i) in
  let tempChar :=
    if String.eqb (oriTextArr_at text_ i) " " && negb context_
    then "&nbsp;"%string else oriTextArr_at text_ i in
  let strWidth := (w_strWidth st + widthOf getWidth detailObj c0 tempChar)%Q in
  ∃ this' c1,
    _cache this' = Some c1
    ∧ (∀ ch, widthOf getWidth detailObj c1 ch = widthOf getWidth detailObj c0 ch)
    ∧ _advancedCache this' = _advancedCache this
    ∧ _advancedCacheKey this' = _advancedCacheKey this
    ∧ maxCacheLimit this' = maxCacheLimit this
    ∧ step st this =
        Ret (if Qgtb strWidth maxWidthWithEll then
               if Qgtb strWidth maxWidth_ then
                 if Qgtb (w_strHeight st + lineHeight_) maxHeight_ then
                   inl (truncated smartLabel ellipsesStr
                          (set_trimStr (w_trimStr st) tempArr) maxWidth_
                          (w_strHeight st + lineHeight_ - lineHeight_)%Q)
                 else
                   inr (wrap_continue L getWidth text_ maxWidthWithEll i
                          (w_strHeight st + lineHeight_)%Q (w_maxStrWidth st)
                          (break_at i tempArr (w_lastIndexBroken st)) this')
               else
                 inr {| w_i := S i; w_tempArr := tempArr;
                        w_strWidth := strWidth; w_strHeight := w_strHeight st;
                        w_maxStrWidth := w_maxStrWidth st;
                        w_trimStr := Some (set_trimStr (w_trimStr st) tempArr);
                        w_lastIndexBroken := w_lastIndexBroken st |}
             else
               inr {| w_i := S i; w_tempArr := tempArr;
                      w_strWidth := strWidth; w_strHeight := w_strHeight st;
                      w_maxStrWidth := w_maxStrWidth st;
                      w_trimStr := w_trimStr st;
                      w_lastIndexBroken := w_lastIndexBroken st |})
          this'.
Proof.
  intros Hc i tempArr tempChar strWidth.
  destruct (charWidth_spec getWidth detailObj tempChar this c0 Hc)
    as (this1 & c1 & Hcw & Hc1 & Hext & Ha & Hk & Hm).
  exists this1, c1. repeat (split; [assumption|]).
  unfold wrap_step, bind. fold i. fold tempChar. rewrite Hcw. fold strWidth.
  fold tempArr.
  destruct (Qgtb strWidth maxWidthWithEll); [|reflexivity].
  destruct (Qgtb strWidth maxWidth_); [|reflexivity].
  destruct (Qgtb (w_strHeight st + lineHeight_) maxHeight_); reflexivity.
Qed.

(** An iteration that does not return moves [i] forward and keeps the
    height within the bound. *)
Lemma wrap_step_next (st st' : WrapState) (this this' : Manager) :
  step st this = Ret (inr st') this' →
  w_i st < w_i st'
  ∧ ((w_strHeight st <= maxHeight_)%Q → (w_strHeight st' <= maxHeight_)%Q).
Proof.
  unfold wrap_step, bind.
  destruct (charWidth _ _ _ this) as [w m|e m|]; try discriminate.
  destruct (Qgtb _ maxWidthWithEll);
    [|intros [= <- <-]; cbn; split; [lia|done]].
  destruct (Qgtb _ maxWidth_);
    [|intros [= <- <-]; cbn; split; [lia|done]].
  destruct (Qgtb (w_strHeight st + lineHeight_) maxHeight_) eqn:Hh;
    [discriminate|].
  apply Qgtb_false in Hh.
  intros [= <- <-]. unfold wrap_continue.
  match goal with |- context [if ?b then _ else _] => destruct b end; cbn.
  - split; [|intros _; exact Hh].
    rewrite length_app.
    pose proof (length_wrap_break (w_i st)
                  (JS.array_set (w_tempArr st) (w_i st) (oriTextArr_at text_ (w_i st)))
                  (w_lastIndexBroken st)).
    pose proof (length_array_set (w_tempArr st) (w_i st)
                  (oriTextArr_at text_ (w_i st))).
    lia.
  - split; [lia|intros _; exact Hh].
Qed.

(** An iteration that returns does so with the trimmed string, the
    ellipsis, the tooltip, the width [maxWidth] and the height before the
    break, the break having taken the height past [maxHeight]. *)
Lemma wrap_step_final (st : WrapState) (sl : SmartLabel) (this this' : Manager) :
  step st this = Ret (inl sl) this' →
  ∃ trim,
    sl = truncated smartLabel ellipsesStr trim maxWidth_
           (w_strHeight st + lineHeight_ - lineHeight_)%Q
    ∧ Qgtb (w_strHeight st + lineHeight_) maxHeight_ = true.
Proof.
  unfold wrap_step, bind.
  destruct (charWidth _ _ _ this) as [w m|e m|]; try discriminate.
  destruct (Qgtb _ maxWidthWithEll); [|discriminate].
  destruct (Qgtb _ maxWidth_); [|discriminate].
  destruct (Qgtb (w_strHeight st + lineHeight_) maxHeight_) eqn:Hh;
    [|discriminate].
  intros [= <- <-]. eexists. split; reflexivity.
Qed.

(** What the loop returns: the wrapped text at the end of the string, or
    the result of the iteration that ran out of height. *)
Lemma wrap_loop_result (fuel : nat) (st : WrapState) (sl : SmartLabel)
    (this this' : Manager) :
  loop fuel st this = Ret sl this' →
  (∃ st',
     sl = with_size (js_max (w_maxStrWidth st') (w_strWidth st')) (w_strHeight st')
            (with_text (JS.join (w_tempArr st')) smartLabel)
     ∧ ((w_strHeight st <= maxHeight_)%Q → (w_strHeight st' <= maxHeight_)%Q))
  ∨ (∃ trim strHeight,
       sl = truncated smartLabel ellipsesStr trim maxWidth_
              (strHeight + lineHeight_ - lineHeight_)%Q
       ∧ Qgtb (strHeight + lineHeight_) maxHeight_ = true
       ∧ ((w_strHeight st <= maxHeight_)%Q → (strHeight <= maxHeight_)%Q)).
Proof.
  revert st this. induction fuel as [|fuel IH]; intros st this; cbn.
  - destruct (len text_ <=? w_i st); [|discriminate].
    intros [= <- <-]. left. exists st. split; [reflexivity|done].
  - destruct (len text_ <=? w_i st).
    + intros [= <- <-]. left. exists st. split; [reflexivity|done].
    + unfold bind.
      destruct (step st this) as [[res|st1] this1|e m|] eqn:Hstep;
        try discriminate.
      * intros [= <- <-]. right.
        destruct (wrap_step_final _ _ _ _ Hstep) as (trim & -> & Hh).
        exists trim, (w_strHeight st). repeat split; [exact Hh|done].
      * intros Hloop. destruct (wrap_step_next _ _ _ _ Hstep) as [_ Hh1].
        destruct (IH _ _ Hloop) as [(st' & -> & Hh)|(trim & sh & -> & Hgt & Hh)].
        -- left. exists st'. split; [reflexivity|]. intros H0. apply Hh, Hh1, H0.
        -- right. exists trim, sh. repeat split; [exact Hgt|].
           intros H0. apply Hh, Hh1, H0.
Qed.

(** The loop returns: [len - i] iterations are enough. *)
Lemma wrap_loop_total (fuel : nat) (st : WrapState) (this : Manager)
    (c0 : gmap string Q) :
  _cache this = Some c0 → len text_ - w_i st ≤ fuel →
  ∃ sl this',
    loop fuel st this = Ret sl this'
    ∧ _advancedCache this' = _advancedCache this
    ∧ _advancedCacheKey this' = _advancedCacheKey this
    ∧ maxCacheLimit this' = maxCacheLimit this.
Proof.
  revert st this c0. induction fuel as [|fuel IH]; intros st this c0 Hc Hfuel;
    cbn; destruct (len text_ <=? w_i st) eqn:Hend;
    try (eexists _, _; split; [reflexivity|repeat split]).
  - apply Nat.leb_gt in Hend. lia.
  - apply Nat.leb_gt in Hend. unfold bind.
    destruct (wrap_step_spec st this c0 Hc)
      as (this1 & c1 & Hc1 & _ & Ha & Hk & Hm & Hstep).
    destruct (step st this) as [[res|st1] m|e m|] eqn:Hs; try discriminate.
    + injection Hstep as _ <-. eexists _, _. split; [reflexivity|].
      repeat split; assumption.
    + assert (m = this1) as -> by (injection Hstep as _ H; exact H).
      destruct (wrap_step_next _ _ _ _ Hs) as [Hi _].
      destruct (IH st1 this1 c1 Hc1 ltac:(lia)) as (sl & this' & Hl & Ha' & Hk' & Hm').
      exists sl, this'. split; [exact Hl|].
      repeat split; congruence.
Qed.

End Wrap.

(** ** The break at a hyphen *)

(** The three places a break can take, as [wrap_break] decides them. *)
Lemma wrap_break_cases (getWidth : option string → Q) (text_ : string) (i : nat)
    (tempArr : list string) (lastIndexBroken : Z) :
  let lastSpace :=
    JS.lastIndexOf (JS.substr text_ 0 (Z.of_nat (length tempArr))) " " in
  let lastDash :=
    JS.lastIndexOf (JS.substr text_ 0 (Z.of_nat (length tempArr))) "-" in
  let b := wrap_break getWidth text_ i tempArr lastIndexBroken in
  ((lastIndexBroken < lastSpace)%Z →
     br_tempArr b = JS.splice1 tempArr (Z.to_nat lastSpace) "<br/>"%string
     ∧ br_lastIndexBroken b = lastSpace
     ∧ br_strWidth b
       = getWidth (Some (JS.join (JS.slice tempArr (lastIndexBroken + 1) lastSpace))))
  ∧ ((lastSpace <= lastIndexBroken)%Z → (lastIndexBroken < lastDash)%Z →
     br_tempArr b
       = JS.splice1 tempArr (Z.to_nat lastDash)
           (if (lastDash =? Z.of_nat (length tempArr) - 1)%Z
            then "<br/>-" else "-<br/>")%string
     ∧ br_lastIndexBroken b = lastDash
     ∧ br_strWidth b
       = getWidth (Some (JS.join (JS.slice tempArr (lastIndexBroken + 1) lastSpace))))
  ∧ ((lastSpace <= lastIndexBroken)%Z → (lastDash <= lastIndexBroken)%Z →
     br_tempArr b
       = JS.splice1 tempArr (length tempArr - 1) ("<br/>" +:+ oriTextArr_at text_ i)
     ∧ br_newCharIndex b = Z.of_nat i).
Proof.
  intros lastSpace lastDash b. unfold b, wrap_break.
  fold lastSpace. fold lastDash.
  split; [|split].
  - intros H. apply Z.ltb_lt in H. rewrite H. repeat split.
  - intros H1 H2. apply Z.ltb_ge in H1. apply Z.ltb_lt in H2. rewrite H1, H2.
    destruct (lastDash =? Z.of_nat (length tempArr) - 1)%Z; repeat split.
  - intros H1 H2. apply Z.ltb_ge in H1. apply Z.ltb_ge in H2. rewrite H1, H2.
    repeat split.
Qed.

(** C5, on the code: the text is ["ab-cde"], read up to [d], and nothing has
    been broken yet. The break goes after the hyphen, and the width measured
    for the line that ends is the width of ["ab-c"], the array up to its last
    element, since the slice ends at [lastSpace], which is [-1]; the line
    from the last break to the new one is ["ab-"]. The whole call reports
    the width four for two lines that are three wide. *)
Theorem hyphen_break_measures_to_last_space :
  let getWidth := _getWidthFn (lib_of (fun _ _ _ => 0%Z))
                    (container_of mono_node 4) mono_node in
  let b := wrap_break getWidth "ab-cde" 4 ["a"; "b"; "-"; "c"; "d"]%string (-1) in
  br_tempArr b = ["a"; "b"; "-<br/>"; "c"; "d"]%string
  ∧ br_lastIndexBroken b = 2%Z
  ∧ br_strWidth b = getWidth (Some "ab-c"%string)
  ∧ (br_strWidth b == 4)%Q
  ∧ (getWidth (Some "ab-"%string) == 3)%Q
  ∧ ¬ (br_strWidth b == getWidth (Some "ab-"%string))%Q
  ∧ ∃ sl this',
      getSmartText (lib_of (fun _ _ _ => 0%Z)) (JStr "ab-cde") (9 # 2) 50 false
        (manager_of (container_of mono_node 4) 500 false) = Ret (Val sl) this'
      ∧ text sl = "ab-<br/>cde"%string
      ∧ width sl = Some 4%Q.
Proof.
  cbv zeta. split; [reflexivity|]. split; [reflexivity|].
  split; [reflexivity|]. split; [reflexivity|]. split; [reflexivity|].
  split; [intros H; vm_compute in H; discriminate|].
  eexists _, _. split; [vm_compute; reflexivity|]. split; reflexivity.
Qed.

(** The same call with other break indexes: the text and the width returned
    are the same. *)
Example hyphen_break_other_break_indexes :
  ∀ k, k ∈ [(-1); 1; 2; 3; 7]%Z →
  ∃ sl this',
    getSmartText (lib_of (fun _ _ _ => k)) (JStr "ab-cde") (9 # 2) 50 false
      (manager_of (container_of mono_node 4) 500 false) = Ret (Val sl) this'
    ∧ text sl = "ab-<br/>cde"%string
    ∧ width sl = Some 4%Q.
Proof.
  intros k Hk. repeat (apply elem_of_cons in Hk as [->|Hk]);
    [..|by apply elem_of_nil in Hk];
    eexists _, _; (split; [vm_compute; reflexivity|]); split; reflexivity.
Qed.

(** ** The plain-text part as a whole *)

Lemma firstCharWidth_spec (getWidth : option string → Q) (text_ : string)
    (this : Manager) (c0 : gmap string Q) :
  _cache this = Some c0 →
  ∃ this' c1,
    firstCharWidth getWidth text_ this = Ret (firstWidth getWidth text_ c0) this'
    ∧ _cache this' = Some c1
    ∧ _advancedCache this' = _advancedCache this
    ∧ _advancedCacheKey this' = _advancedCacheKey this
    ∧ maxCacheLimit this' = maxCacheLimit this.
Proof.
  intros Hc. unfold firstCharWidth, firstWidth. rewrite Hc.
  destruct (c0 !! _) as [w|].
  - exists this, c0. repeat split; assumption.
  - eexists _, _. split; [reflexivity|]. repeat split.
Qed.

Lemma firstCharWidth_cache (getWidth : option string → Q) (text_ : string)
    (this this' : Manager) (w : Q) :
  firstCharWidth getWidth text_ this = Ret w this' →
  ∃ c0, _cache this = Some c0 ∧ w = firstWidth getWidth text_ c0
        ∧ ∃ c1, _cache this' = Some c1.
Proof.
  intros Hret. destruct (_cache this) as [c0|] eqn:Hc.
  - destruct (firstCharWidth_spec getWidth text_ this c0 Hc)
      as (this1 & c1 & Hspec & Hc1 & _).
    rewrite Hspec in Hret. injection Hret as <- <-.
    exists c0. split; [reflexivity|]. split; [reflexivity|]. exists c1. exact Hc1.
  - unfold firstCharWidth in Hret. rewrite Hc in Hret. discriminate.
Qed.

(** A first character wider than [maxWidth] leaves no budget, whatever the
    ellipsis setting, provided the ellipsis is not of negative width. *)
Lemma ellipsis_budget_None (L : Lib) (text_ : string) (maxWidth_ : Q)
    (showNoEllipses : bool) (ellipsesWidth_ dotWidth_ minWidth : Q)
    (this : Manager) :
  Qgtb minWidth maxWidth_ = true →
  showNoEllipses = true ∨ (0 <= ellipsesWidth_)%Q →
  ellipsis_budget L text_ maxWidth_ showNoEllipses ellipsesWidth_ dotWidth_
    minWidth this = None.
Proof.
  intros Hgt Hell. unfold ellipsis_budget.
  assert (Hno : Qgtb (if showNoEllipses then maxWidth_
                      else (maxWidth_ - ellipsesWidth_)%Q) minWidth = false).
  { apply Qgtb_true in Hgt. unfold Qgtb.
    assert (Hle : ((if showNoEllipses then maxWidth_
                    else maxWidth_ - ellipsesWidth_) <= minWidth)%Q).
    { destruct showNoEllipses.
      - apply Qlt_le_weak, Hgt.
      - destruct Hell as [Hd|Hpos]; [discriminate|].
        apply Qle_trans with maxWidth_; [|apply Qlt_le_weak, Hgt].
        rewrite <- (Qplus_0_r maxWidth_) at 2.
        unfold Qminus. apply Qplus_le_r.
        apply (Qopp_le_compat 0 ellipsesWidth_) in Hpos. exact Hpos. }
    apply Qle_bool_iff in Hle. rewrite Hle. reflexivity. }
  rewrite Hno, Hgt. reflexivity.
Qed.

Section PlainResult.

Variable L : Lib.
Variable getWidth : option string → Q.
Variable detailObj : option (gmap string Q).
Variable text_ : string.
Variables maxWidth_ maxHeight_ lineHeight_ : Q.
Variable context_ : bool.
Variable smartLabel : SmartLabel.

Local Abbreviation plain :=
  (plainText L getWidth detailObj text_ maxWidth_ maxHeight_ lineHeight_
     context_ smartLabel).

(** What the plain-text part returns: the empty result, or a result that
    keeps the flag and the original size of [smartLabel], whose height is
    within [maxHeight] when one line is, and whose width is [maxWidth] when
    the wrap loop stopped on the height. *)
Lemma plainText_result (showNoEllipses : bool) (ellipsesWidth_ dotWidth_ : Q)
    (noWrap : bool) (this this' : Manager) (r : SmartLabel) :
  plain showNoEllipses ellipsesWidth_ dotWidth_ noWrap this = Ret r this' →
  isTruncated r = isTruncated smartLabel
  ∧ (r = nothing_fits smartLabel
     ∨ (oriTextWidth r = oriTextWidth smartLabel
        ∧ oriTextHeight r = oriTextHeight smartLabel
        ∧ ∃ h, height r = Some h
               ∧ ((lineHeight_ <= maxHeight_)%Q → (h <= maxHeight_)%Q)
               ∧ (noWrap = false → tooltext r ≠ tooltext smartLabel →
                  width r = Some maxWidth_))).
Proof.
  unfold plainText, bind.
  destruct (firstCharWidth getWidth text_ this) as [w this1|e m|] eqn:Hfirst;
    try discriminate.
  destruct (firstCharWidth_cache _ _ _ _ _ Hfirst) as (c0 & _ & _ & c1 & Hc1).
  destruct (ellipsis_budget _ _ _ _ _ _ _ _) as [[[tempArr mwe] ell]|].
  2:{ intros [= <- <-]. split; [reflexivity|]. left. reflexivity. }
  destruct noWrap.
  - destruct (nowrap_loop_spec getWidth detailObj text_ maxWidth_ lineHeight_
                smartLabel mwe ell (len text_ - length tempArr) (length tempArr)
                tempArr (getWidth (Some (JS.join tempArr))) (Some ""%string)
                this1 c1 Hc1)
      as [this2 [[_ Hres]|(j & rj & trim & _ & _ & _ & Hres)]];
      rewrite Hres; intros [= <- <-]; (split; [reflexivity|]); right;
      (split; [reflexivity|]); (split; [reflexivity|]);
      exists lineHeight_; (split; [reflexivity|]); (split; [done|]);
      discriminate.
  - intros Hloop.
    destruct (wrap_loop_result _ _ _ _ _ _ _ _ _ _ _ _ _ _ _ _ Hloop)
      as [(st' & -> & Hh)|(trim & sh & -> & Hgt & Hh)].
    + split; [reflexivity|]. right. split; [reflexivity|]. split; [reflexivity|].
      exists (w_strHeight st'). split; [reflexivity|]. split; [exact Hh|].
      intros _ Htool. cbn in Htool. done.
    + split; [reflexivity|]. right. split; [reflexivity|]. split; [reflexivity|].
      exists (sh + lineHeight_ - lineHeight_)%Q. split; [reflexivity|].
      split; [|intros _ _; reflexivity].
      intros H0. cbn in Hh. specialize (Hh H0).
      assert (Heq : (sh + lineHeight_ - lineHeight_ == sh)%Q) by ring.
      rewrite Heq. exact Hh.
Qed.

(** With a cache to read, the plain-text part always returns. *)
Lemma plainText_total (showNoEllipses : bool) (ellipsesWidth_ dotWidth_ : Q)
    (noWrap : bool) (this : Manager) (c0 : gmap string Q) :
  _cache this = Some c0 →
  ∃ r this',
    plain showNoEllipses ellipsesWidth_ dotWidth_ noWrap this = Ret r this'.
Proof.
  intros Hc. unfold plainText, bind.
  destruct (firstCharWidth_spec getWidth text_ this c0 Hc)
    as (this1 & c1 & Hfirst & Hc1 & _).
  rewrite Hfirst.
  destruct (ellipsis_budget _ _ _ _ _ _ _ _) as [[[tempArr mwe] ell]|].
  2:{ eexists _, _. reflexivity. }
  destruct noWrap.
  - destruct (nowrap_loop_spec getWidth detailObj text_ maxWidth_ lineHeight_
                smartLabel mwe ell (len text_ - length tempArr) (length tempArr)
                tempArr (getWidth (Some (JS.join tempArr))) (Some ""%string)
                this1 c1 Hc1)
      as [this2 [[_ Hres]|(j & rj & trim & _ & _ & _ & Hres)]];
      rewrite Hres; eexists _, _; reflexivity.
  - destruct (wrap_loop_total L getWidth detailObj text_ maxWidth_ maxHeight_
                lineHeight_ context_ smartLabel mwe ell
                (len text_ - length tempArr)
                {| w_i := length tempArr; w_tempArr := tempArr;
                   w_strWidth := getWidth (Some (JS.join tempArr));
                   w_strHeight := lineHeight_; w_maxStrWidth := 0;
                   w_trimStr := Some ""%string; w_lastIndexBroken := (-1)%Z |}
                this1 c1 Hc1 ltac:(cbn; lia))
      as (sl & this' & Hloop & _).
    exists sl, this'. exact Hloop.
Qed.

End PlainResult.

(** ** [getSmartText] as a whole *)

(** Measuring leaves the basic cache alone. *)
Lemma asymmetricDifference_basic_cache (key text : string) (cd : bool) (l : nat)
    (this this' : Manager) (a : Q) :
  asymmetricDifference key text cd l this = Ret a this' →
  _cache this' = _cache this.
Proof.
  unfold asymmetricDifference. destruct cd; cbn; [|intros [= _ <-]; reflexivity].
  destruct (_advancedCache this !! key) as [[q|w h]|]; try discriminate.
  - intros [= _ <-]. reflexivity.
  - destruct (_container this) as [n|]; [|discriminate].
    intros [= _ <-].
    pose proof (cache_store_fields key (CNum (asymmetric n text l)) this)
      as (_&_&_&_&Hc&_). exact Hc.
Qed.

Lemma cachedOrMeasured_basic_cache (key text : string) (asym : Q)
    (this this' : Manager) (size : Size.t) :
  cachedOrMeasured key text asym this = Ret size this' →
  _cache this' = _cache this.
Proof.
  unfold cachedOrMeasured.
  assert (Hmeasure :
    match _container this with
    | Some n =>
        Ret {| Size.height := offsetHeight n text;
               Size.width := (js_add (offsetWidth n text) asym) |}
          (cache_store key
             (CDim (js_add (offsetWidth n text) asym) (offsetHeight n text)) this)
    | None => Throws TypeError this
    end = Ret size this' → _cache this' = _cache this).
  { destruct (_container this) as [n|]; [|discriminate].
    intros [= _ <-].
    pose proof (cache_store_fields key
      (CDim (js_add (offsetWidth n text) asym) (offsetHeight n text)) this)
      as (_&_&_&_&Hc&_). exact Hc. }
  destruct (_advancedCache this !! key) as [[q|w h]|].
  - destruct (Qeq_bool q 0); [exact Hmeasure|discriminate].
  - intros [= _ <-]. reflexivity.
  - destruct (inherited key); [discriminate|exact Hmeasure].
Qed.

Lemma calCharDim_basic_cache (text : string) (cd : bool) (l : nat)
    (this this' : Manager) (r : orFalse Size.t) :
  _calCharDimWithCache text cd l this = Ret r this' → _cache this' = _cache this.
Proof.
  unfold _calCharDimWithCache.
  destruct (_init this); cbn; [|intros [= _ <-]; reflexivity].
  unfold bind.
  destruct (asymmetricDifference _ _ _ _ this) as [a m|e m|] eqn:Ha;
    try discriminate.
  destruct (cachedOrMeasured _ _ _ m) as [sz m'|e m'|] eqn:Hm; try discriminate.
  intros [= _ <-].
  rewrite (cachedOrMeasured_basic_cache _ _ _ _ _ _ Hm).
  exact (asymmetricDifference_basic_cache _ _ _ _ _ _ _ Ha).
Qed.

Lemma getOriSize_loop_basic_cache (textArr : list string) (l : nat)
    (h c : Q) (store : gmap string Q) (this this' : Manager)
    (r : Q * Q * gmap string Q) :
  getOriSize_loop textArr l h c store this = Ret r this' →
  _cache this' = _cache this.
Proof.
  revert h c store this.
  induction textArr as [|letter rest IH]; intros h c store this; cbn.
  - intros [= _ <-]. reflexivity.
  - unfold bind.
    destruct (_calCharDimWithCache letter true l this) as [[|s] m|e m|] eqn:Hcall;
      try discriminate.
    intros Hloop. rewrite (IH _ _ _ _ Hloop).
    exact (calCharDim_basic_cache _ _ _ _ _ _ Hcall).
Qed.

Lemma originalSize_inv (L : Lib) (container : Node) (text : string)
    (this this1 : Manager) (hasTag : bool)
    (ori : option (Q * Q * option (gmap string Q))) :
  originalSize L container text this = Ret (hasTag, ori) this1 →
  _cache this1 = _cache this
  ∧ (isBrowserLess L = true → ori = None ∧ hasTag = false)
  ∧ (isBrowserLess L = false → ∃ ow oh d, ori = Some (ow, oh, d)).
Proof.
  unfold originalSize.
  destruct (isBrowserLess L).
  - intros [= <- <- <-]. repeat split; discriminate.
  - destruct (xmlTagRegEx_test L text).
    + intros [= <- <- <-]. repeat split; try discriminate.
      intros _. eexists _, _, _. reflexivity.
    + unfold bind, getOriSize.
      destruct (_init this); cbn; [|discriminate].
      unfold bind.
      destruct (getOriSize_loop _ _ _ _ _ this) as [[[h c] st] m|e m|] eqn:Hloop;
        try discriminate.
      cbn. intros [= <- <- <-].
      split; [exact (getOriSize_loop_basic_cache _ _ _ _ _ _ _ _ Hloop)|].
      split; [discriminate|]. intros _. eexists _, _, _. reflexivity.
Qed.

(** The method on a manager with a container object, a container and a line
    height, once the size without bounds has been measured. *)
Lemma getSmartText_measured (L : Lib) (text : jsval) (mw mh : Q) (noWrap : bool)
    (this this1 : Manager) (sCont : ContainerObj) (container : Node) (lh : Q)
    (hasTag : bool) (ori : option (Q * Q * option (gmap string Q))) :
  _init this = true → _containerObj this = Some sCont →
  _container this = Some container → _lineHeight this = Some lh →
  originalSize L container (text_of_arg text) this = Ret (hasTag, ori) this1 →
  let sl0 := measuredLabel ori (initialLabel (text_of_arg text) mw mh) in
  let eff := effectiveMaxHeight mh lh in
  getSmartText L text mw mh noWrap this =
    if fits ori mw eff then Ret (Val (wholeText ori sl0)) this1
    else if negb (isBrowserLess L) && Qgtb lh eff
    then Ret (Val (nothing_fits sl0)) this1
    else if hasTag then OutOfModel
    else
      match plainText L (_getWidthFn L sCont container)
              (match ori with Some (_, _, d) => d | None => None end)
              (normalise (text_of_arg text)) mw eff lh (_context this) sl0
              (default false (_showNoEllipses this))
              (ellipsesWidth sCont) (dotWidth sCont) noWrap this1 with
      | Ret r this2 => Ret (Val r) this2
      | Throws e m => Throws e m
      | OutOfModel => OutOfModel
      end.
Proof.
  intros Hinit HsCont Hcont Hlh Hori sl0 eff.
  unfold getSmartText. rewrite Hinit, HsCont, Hcont, Hlh. cbn.
  unfold bind. rewrite Hori. fold eff. fold sl0.
  destruct (fits ori mw eff); [reflexivity|].
  destruct (negb (isBrowserLess L) && Qgtb lh eff); [reflexivity|].
  destruct hasTag; reflexivity.
Qed.

(** A result comes from the missing container, or from a manager with a
    container object, a container and a line height whose measure of the
    text returned. *)
Lemma getSmartText_inv (L : Lib) (text : jsval) (mw mh : Q) (noWrap : bool)
    (this this' : Manager) (sl : SmartLabel) :
  getSmartText L text mw mh noWrap this = Ret (Val sl) this' →
  _init this = true
  ∧ ((_container this = None
      ∧ sl = with_error "Body Tag Missing!" (initialLabel (text_of_arg text) mw mh))
     ∨ ∃ sCont container lh hasTag ori this1,
         _containerObj this = Some sCont ∧ _container this = Some container
         ∧ _lineHeight this = Some lh
         ∧ originalSize L container (text_of_arg text) this = Ret (hasTag, ori) this1).
Proof.
  unfold getSmartText.
  destruct (_init this); [|discriminate]. cbn.
  destruct (_containerObj this) as [sCont|]; [|discriminate].
  destruct (_container this) as [container|].
  2:{ intros [= <- <-]. split; [reflexivity|]. left. split; reflexivity. }
  destruct (_lineHeight this) as [lh|]; [|discriminate].
  unfold bind.
  destruct (originalSize L container (text_of_arg text) this)
    as [[hasTag ori] this1|e m|] eqn:Hori; try discriminate.
  intros _. split; [reflexivity|]. right.
  exists sCont, container, lh, hasTag, ori, this1. repeat split. exact Hori.
Qed.

(** No result of the plain-text part has its flag set: [isTruncated] is
    assigned only where markup is handled. *)
Lemma plain_text_flag_never_set (L : Lib) (text : jsval) (mw mh : Q)
    (noWrap : bool) (this this' : Manager) (sl : SmartLabel) :
  getSmartText L text mw mh noWrap this = Ret (Val sl) this' →
  isTruncated sl = false.
Proof.
  intros Hret.
  destruct (getSmartText_inv _ _ _ _ _ _ _ _ Hret)
    as [Hinit [[_ ->]|(sCont & container & lh & hasTag & ori & this1
                        & HsCont & Hcont & Hlh & Hori)]]; [reflexivity|].
  rewrite (getSmartText_measured _ _ _ _ _ _ _ _ _ _ _ _ Hinit HsCont Hcont Hlh Hori)
    in Hret.
  destruct (fits ori mw _).
  { injection Hret as <- _. destruct ori as [[[ow oh] d]|]; reflexivity. }
  destruct (negb (isBrowserLess L) && Qgtb lh _).
  { injection Hret as <- _. destruct ori as [[[ow oh] d]|]; reflexivity. }
  destruct hasTag; [discriminate|].
  destruct (plainText _ _ _ _ _ _ _ _ _ _ _ _ _ this1) as [r this2|e m|] eqn:Hplain;
    try discriminate.
  injection Hret as <- _.
  destruct (plainText_result _ _ _ _ _ _ _ _ _ _ _ _ _ _ _ _ Hplain) as [-> _].
  destruct ori as [[[ow oh] d]|]; reflexivity.
Qed.

(** C1, on the code: ["Hello World"] on one line, in a box too narrow for
    it, with the ellipsis enabled. The text returned is trimmed and ends
    with the ellipsis, the tooltip is the original text, and [isTruncated]
    is still false. The same holds when the wrap loop runs out of height.
    The first case does not depend on the break index of the library. *)
Theorem truncated_text_not_flagged :
  (∀ nbi, ∃ sl this',
     getSmartText (lib_of nbi) (JStr "Hello World") (17 # 2) 100 true
       (manager_of (container_of mono_node 8) 500 false) = Ret (Val sl) this'
     ∧ text sl = "Hello.."%string
     ∧ text sl ≠ oriText sl
     ∧ tooltext sl = Some "Hello World"%string
     ∧ isTruncated sl = false)
  ∧ (∃ sl this',
       getSmartText (lib_of (fun _ _ _ => 0%Z)) (JStr "Hello World") (17 # 2) 100 true
         (manager_of (container_of mono_node 3) 500 false) = Ret (Val sl) this'
       ∧ text sl = "Hello..."%string
       ∧ tooltext sl = Some "Hello World"%string
       ∧ isTruncated sl = false)
  ∧ (∃ sl this',
       getSmartText (lib_of (fun _ _ _ => 0%Z)) (JStr "Hello World") (17 # 2) 15 false
         (manager_of (container_of mono_node 3) 500 false) = Ret (Val sl) this'
       ∧ text sl = "Hello..."%string
       ∧ tooltext sl = Some "Hello World"%string
       ∧ isTruncated sl = false).
Proof.
  split; [|split].
  - intros nbi. eexists _, _. split; [vm_compute; reflexivity|].
    repeat split. discriminate.
  - eexists _, _. split; [vm_compute; reflexivity|]. repeat split.
  - eexists _, _. split; [vm_compute; reflexivity|]. repeat split.
Qed.

(** ** The bounds of the result *)

(** C8, on the code. First, a height equal to the line height is enlarged
    before the test: a text that measures eleven pixels high fits the
    enlarged bound and is returned eleven high for a [maxHeight] of ten.
    Second, only the first character is compared with [maxWidth]: wrapped in
    a box five wide, ["iW"] with a [W] ten wide comes back ten wide. *)
Lemma fit_or_shrink_counterexample :
  (∃ sl this',
     getSmartText (lib_of (fun _ _ _ => 0%Z)) (JStr "Hello") 100 10 false
       (manager_of (container_of tall_node 3) 500 false) = Ret (Val sl) this'
     ∧ text sl = "Hello"%string
     ∧ height sl = Some 11%Q ∧ maxHeight sl = 10%Q
     ∧ ¬ (11 <= maxHeight sl)%Q)
  ∧ (∃ sl this',
       getSmartText (lib_of (fun _ _ _ => 0%Z)) (JStr "iW") 5 100 false
         (manager_of (container_of wide_node 3) 500 false) = Ret (Val sl) this'
       ∧ text sl = "i<br/>W"%string
       ∧ width sl = Some 10%Q ∧ maxWidth sl = 5%Q
       ∧ ¬ (10 <= maxWidth sl)%Q).
Proof.
  split.
  - eexists _, _. split; [vm_compute; reflexivity|].
    repeat split. intros H. vm_compute in H. apply H. reflexivity.
  - eexists _, _. split; [vm_compute; reflexivity|].
    repeat split. intros H. vm_compute in H. apply H. reflexivity.
Qed.

(** The second case with other break indexes: the width returned is past
    [maxWidth] each time. *)
Example wide_letter_other_break_indexes :
  ∀ k, k ∈ [1; 2; 3; 7]%Z →
  ∃ sl this' w,
    getSmartText (lib_of (fun _ _ _ => k)) (JStr "iW") 5 100 false
      (manager_of (container_of wide_node 3) 500 false) = Ret (Val sl) this'
    ∧ width sl = Some w ∧ Qgtb w 5 = true.
Proof.
  intros k Hk. repeat (apply elem_of_cons in Hk as [->|Hk]);
    [..|by apply elem_of_nil in Hk];
    eexists _, _, _; (split; [vm_compute; reflexivity|]); split; reflexivity.
Qed.

(** C8, amended. In a document with layout support, a result with a text
    that is not empty has a height within the bound in force, which is
    [maxHeight], or [1.2 * maxHeight] when [maxHeight] is the line height.
    When the whole text fits the bounds, it is returned with its own width
    and height; when the wrap loop stops on the height, the width returned is
    [maxWidth]. (The other widths are running sums and measures that the
    method does not compare with [maxWidth] again.) *)
Theorem fit_within_effective_bounds (L : Lib) (text_arg : jsval) (mw mh : Q)
    (noWrap : bool) (this this' : Manager) (sl : SmartLabel) (lh : Q)
    (Hsupport : isBrowserLess L = false)
    (Hlh : _lineHeight this = Some lh)
    (Hret : getSmartText L text_arg mw mh noWrap this = Ret (Val sl) this')
    (Hne : text sl ≠ ""%string) :
  let eff := effectiveMaxHeight mh lh in
  (∀ h, height sl = Some h → (h <= eff)%Q)
  ∧ (∀ ow oh,
       oriTextWidth sl = Some ow → oriTextHeight sl = Some oh →
       (ow <= mw)%Q → (oh <= eff)%Q →
       width sl = Some ow ∧ height sl = Some oh)
  ∧ (noWrap = false → tooltext sl ≠ None → width sl = Some mw).
Proof.
  intros eff.
  destruct (getSmartText_inv _ _ _ _ _ _ _ _ Hret)
    as [Hinit [[_ ->]|(sCont & container & lh' & hasTag & ori & this1
                        & HsCont & Hcont & Hlh' & Hori)]].
  { cbn. repeat split; try discriminate. intros _ H. done. }
  rewrite Hlh in Hlh'. injection Hlh' as <-.
  rewrite (getSmartText_measured _ _ _ _ _ _ _ _ _ _ _ _ Hinit HsCont Hcont Hlh Hori)
    in Hret. fold eff in Hret.
  destruct (originalSize_inv _ _ _ _ _ _ _ Hori) as (_ & _ & Hsome).
  destruct (Hsome Hsupport) as (ow0 & oh0 & d & ->).
  destruct (fits _ mw eff) eqn:Hfits.
  { injection Hret as <- _. cbn in *.
    apply andb_prop in Hfits as [Hh Hw]. apply Qle_bool_iff in Hh.
    split; [intros h [= <-]; exact Hh|].
    split; [intros ow oh [= <-] [= <-] _ _; split; reflexivity|].
    intros _ H. done. }
  rewrite Hsupport in Hret. cbn [negb andb] in Hret.
  destruct (Qgtb lh eff) eqn:Hline.
  { injection Hret as <- _. cbn in Hne. done. }
  apply Qgtb_false in Hline.
  destruct hasTag; [discriminate|].
  destruct (plainText _ _ _ _ _ _ _ _ _ _ _ _ _ this1) as [r this2|e m|] eqn:Hplain;
    try discriminate.
  injection Hret as <- _.
  destruct (plainText_result _ _ _ _ _ _ _ _ _ _ _ _ _ _ _ _ Hplain)
    as [_ [->|(How & Hoh & h & Hheight & Hbound & Hwrap)]].
  { cbn in Hne. done. }
  cbn in How, Hoh.
  split; [intros h' Hh'; rewrite Hheight in Hh'; injection Hh' as <-;
          exact (Hbound Hline)|].
  split.
  - intros ow oh Hw Hh Hle_w Hle_h.
    rewrite Hw in How. injection How as ->. rewrite Hh in Hoh. injection Hoh as ->.
    cbn in Hfits. apply Qle_bool_iff in Hle_w. apply Qle_bool_iff in Hle_h.
    rewrite Hle_w, Hle_h in Hfits. discriminate.
  - intros Hnw Htool. apply Hwrap; [exact Hnw|]. cbn. exact Htool.
Qed.

(** [fit_within_effective_bounds] on a text eleven high, for a [maxHeight]
    of ten that is the line height. *)
Lemma fit_within_effective_bounds_witness :
  let L := lib_of (fun _ _ _ => 0%Z) in
  let this := manager_of (container_of tall_node 3) 500 false in
  isBrowserLess L = false ∧ _lineHeight this = Some 10%Q
  ∧ ∃ sl this',
      getSmartText L (JStr "Hello") 100 10 false this = Ret (Val sl) this'
      ∧ text sl = "Hello"%string
      ∧ effectiveMaxHeight 10 10 = (10 * (6 # 5))%Q
      ∧ ∀ h, height sl = Some h → (h <= effectiveMaxHeight 10 10)%Q.
Proof.
  intros L this. split; [reflexivity|]. split; [reflexivity|].
  destruct (getSmartText L (JStr "Hello") 100 10 false this)
    as [[|sl] this'|e m|] eqn:Hret;
    [vm_compute in Hret; discriminate| |vm_compute in Hret; discriminate..].
  assert (Htext : text sl = "Hello"%string).
  { pose proof Hret as Hcomputed. vm_compute in Hcomputed.
    injection Hcomputed as <- _. reflexivity. }
  assert (Hne : text sl ≠ ""%string) by (rewrite Htext; discriminate).
  exists sl, this'. split; [reflexivity|]. split; [exact Htext|].
  split; [reflexivity|].
  exact (proj1 (fit_within_effective_bounds L (JStr "Hello") 100 10 false this
                  this' sl 10 eq_refl eq_refl Hret Hne)).
Defined.
(** ** Nothing fits *)

(** C9. On a manager that can measure, for a text without markup that does
    not fit as a whole: when the line height exceeds [maxHeight] (in a
    document with layout support), or when the first character is wider than
    [maxWidth] (the ellipsis being disabled, or not of negative width), the
    method returns, without exception, the empty text with width, height,
    original width and original height all zero. The manager is any: the
    ellipsis setting does not matter. *)
Theorem nothing_fits_is_silent (L : Lib) (text_arg : jsval) (mw mh : Q)
    (noWrap : bool) (this : Manager) (sCont : ContainerObj)
    (container : Node) (lh : Q)
    (Hinit : _init this = true)
    (HsCont : _containerObj this = Some sCont)
    (Hcont : _container this = Some container)
    (Hlh : _lineHeight this = Some lh)
    (Hmeasured :
       match originalSize L container (text_of_arg text_arg) this with
       | Ret (false, ori) _ => fits ori mw (effectiveMaxHeight mh lh) = false
       | _ => False
       end)
    (Hnothing :
       (isBrowserLess L = false ∧ Qgtb lh mh = true)
       ∨ (∃ c0, _cache this = Some c0
                ∧ Qgtb (firstWidth (_getWidthFn L sCont container)
                          (normalise (text_of_arg text_arg)) c0) mw = true
                ∧ (default false (_showNoEllipses this) = true
                   ∨ (0 <= ellipsesWidth sCont)%Q))) :
  ∃ sl this',
    getSmartText L text_arg mw mh noWrap this = Ret (Val sl) this'
    ∧ text sl = ""%string
    ∧ width sl = Some 0%Q ∧ height sl = Some 0%Q
    ∧ oriTextWidth sl = Some 0%Q ∧ oriTextHeight sl = Some 0%Q.
Proof.
  destruct (originalSize L container (text_of_arg text_arg) this)
    as [[[|] ori] this1|e m|] eqn:Hori; try contradiction.
  rename Hmeasured into Hfit.
  rewrite (getSmartText_measured _ _ _ _ _ _ _ _ _ _ _ _ Hinit HsCont Hcont Hlh Hori).
  rewrite Hfit.
  destruct (negb (isBrowserLess L) && Qgtb lh (effectiveMaxHeight mh lh)) eqn:Hline.
  { eexists _, _. split; [reflexivity|]. repeat split. }
  destruct Hnothing as [[Hsupport Hgt]|(c0 & Hcache & Hgt & Hell)].
  - exfalso. rewrite Hsupport in Hline. cbn in Hline.
    unfold effectiveMaxHeight in Hline.
    assert (Hneq : Qeq_bool mh lh = false).
    { apply Qgtb_true in Hgt. destruct (Qeq_bool mh lh) eqn:Heq; [|reflexivity].
      apply Qeq_bool_iff in Heq. rewrite Heq in Hgt.
      exfalso. exact (Qlt_irrefl _ Hgt). }
    rewrite Hneq in Hline. congruence.
  - destruct (originalSize_inv _ _ _ _ _ _ _ Hori) as (Hc1 & _ & _).
    rewrite Hcache in Hc1.
    unfold plainText, bind.
    destruct (firstCharWidth_spec (_getWidthFn L sCont container)
                (normalise (text_of_arg text_arg)) this1 c0 Hc1)
      as (this2 & c2 & Hfirst & _).
    rewrite Hfirst, (ellipsis_budget_None _ _ _ _ _ _ _ _ Hgt Hell).
    eexists _, _. split; [reflexivity|]. repeat split.
Qed.

(** [nothing_fits_is_silent] on a first character ten wide in a box five
    wide, under both ellipsis settings, and on a line height of ten in a box
    five high. *)
Lemma nothing_fits_is_silent_witness :
  let L := lib_of (fun _ _ _ => 0%Z) in
  let co := container_of wide_node 3 in
  (let this := manager_of co 500 false in
   _init this = true ∧ _containerObj this = Some co
   ∧ _container this = Some wide_node ∧ _lineHeight this = Some 10%Q
   ∧ Qgtb (firstWidth (_getWidthFn L co wide_node) "Wi" ∅) 5 = true
   ∧ ∃ sl this',
       getSmartText L (JStr "Wi") 5 100 false this = Ret (Val sl) this'
       ∧ text sl = ""%string ∧ width sl = Some 0%Q ∧ height sl = Some 0%Q)
  ∧ (let this := manager_of co 500 true in
     ∃ sl this',
       getSmartText L (JStr "Wi") 5 100 false this = Ret (Val sl) this'
       ∧ text sl = ""%string ∧ width sl = Some 0%Q ∧ height sl = Some 0%Q)
  ∧ (let this := manager_of (container_of mono_node 3) 500 false in
     Qgtb 10 5 = true
     ∧ ∃ sl this',
         getSmartText L (JStr "Hello") 3 5 true this = Ret (Val sl) this'
         ∧ text sl = ""%string ∧ width sl = Some 0%Q ∧ height sl = Some 0%Q).
Proof.
  intros L co.
  assert (Hfirst : Qgtb (firstWidth (_getWidthFn L co wide_node) "Wi" ∅) 5 = true)
    by (vm_compute; reflexivity).
  split; [|split].
  - intros this.
    split; [reflexivity|]. split; [reflexivity|]. split; [reflexivity|].
    split; [reflexivity|]. split; [exact Hfirst|].
    assert (Hmeasured :
      match originalSize L wide_node (text_of_arg (JStr "Wi")) this with
      | Ret (false, ori) _ => fits ori 5 (effectiveMaxHeight 100 10) = false
      | _ => False
      end) by (vm_compute; reflexivity).
    assert (Hell : default false (_showNoEllipses this) = true
                   ∨ (0 <= ellipsesWidth co)%Q) by (right; discriminate).
    destruct (nothing_fits_is_silent L (JStr "Wi") 5 100 false this co
                wide_node 10 eq_refl eq_refl eq_refl eq_refl Hmeasured
                (or_intror (ex_intro _ ∅ (conj eq_refl (conj Hfirst Hell)))))
      as (sl & this' & Hret & Ht & Hw & Hh & _).
    exists sl, this'. repeat split; assumption.
  - intros this.
    assert (Hmeasured :
      match originalSize L wide_node (text_of_arg (JStr "Wi")) this with
      | Ret (false, ori) _ => fits ori 5 (effectiveMaxHeight 100 10) = false
      | _ => False
      end) by (vm_compute; reflexivity).
    assert (Hell : default false (_showNoEllipses this) = true
                   ∨ (0 <= ellipsesWidth co)%Q) by (left; reflexivity).
    destruct (nothing_fits_is_silent L (JStr "Wi") 5 100 false this co
                wide_node 10 eq_refl eq_refl eq_refl eq_refl Hmeasured
                (or_intror (ex_intro _ ∅ (conj eq_refl (conj Hfirst Hell)))))
      as (sl & this' & Hret & Ht & Hw & Hh & _).
    exists sl, this'. repeat split; assumption.
  - intros this. split; [reflexivity|].
    assert (Hmeasured :
      match originalSize L mono_node (text_of_arg (JStr "Hello")) this with
      | Ret (false, ori) _ => fits ori 3 (effectiveMaxHeight 5 10) = false
      | _ => False
      end) by (vm_compute; reflexivity).
    assert (Hline : isBrowserLess L = false ∧ Qgtb 10 5 = true)
      by (split; reflexivity).
    destruct (nothing_fits_is_silent L (JStr "Hello") 3 5 true this
                (container_of mono_node 3) mono_node 10
                eq_refl eq_refl eq_refl eq_refl Hmeasured (or_introl Hline))
      as (sl & this' & Hret & Ht & Hw & Hh & _).
    exists sl, this'. repeat split; assumption.
Defined.

(** ** The advanced cache across the calls of the manager *)

Lemma same_advanced_refl (this : Manager) : same_advanced this this.
Proof. repeat split. Qed.

Lemma same_advanced_trans (a b c : Manager) :
  same_advanced a b → same_advanced b c → same_advanced a c.
Proof. intros (?&?&?) (?&?&?). repeat split; congruence. Qed.

Lemma same_advanced_inv (this this' : Manager) :
  same_advanced this this' →
  cache_bounded this → cache_listed this →
  cache_bounded this' ∧ cache_listed this'.
Proof.
  intros (Ha & Hk & Hm) Hb Hl. unfold cache_bounded, cache_listed in *.
  rewrite Ha, Hk, Hm. split; assumption.
Qed.

Section PlainState.

Variable L : Lib.
Variable getWidth : option string → Q.
Variable detailObj : option (gmap string Q).
Variable text_ : string.
Variables maxWidth_ maxHeight_ lineHeight_ : Q.
Variable context_ : bool.
Variable smartLabel : SmartLabel.

Lemma charWidth_state (tempChar : string) (this this' : Manager) :
  outcome_state (charWidth getWidth detailObj tempChar this) = Some this' →
  same_advanced this this'.
Proof.
  unfold charWidth. destruct (_cache this) as [c|]; cbn.
  - destruct (c !! tempChar); cbn; intros [= <-]; repeat split.
  - intros [= <-]. repeat split.
Qed.

Lemma firstCharWidth_state (this this' : Manager) :
  outcome_state (firstCharWidth getWidth text_ this) = Some this' →
  same_advanced this this'.
Proof.
  unfold firstCharWidth. destruct (_cache this) as [c|]; cbn.
  - destruct (c !! _); cbn; intros [= <-]; repeat split.
  - intros [= <-]. repeat split.
Qed.

Lemma nowrap_loop_state (mwe : Q) (ell : string) (n i : nat)
    (tempArr : list string) (strWidth : Q) (trimStr : option string)
    (this this' : Manager) :
  outcome_state
    (nowrap_loop getWidth detailObj text_ maxWidth_ lineHeight_ smartLabel
       mwe ell n i tempArr strWidth trimStr this) = Some this' →
  same_advanced this this'.
Proof.
  revert i tempArr strWidth trimStr this.
  induction n as [|n IH]; intros i tempArr strWidth trimStr this; cbn.
  - intros [= <-]. apply same_advanced_refl.
  - unfold bind.
    destruct (charWidth getWidth detailObj (oriTextArr_at text_ i) this)
      as [w m|e m|] eqn:Hcw; [| |discriminate].
    + assert (Hm : same_advanced this m)
        by (apply (charWidth_state (oriTextArr_at text_ i)); rewrite Hcw; reflexivity).
      destruct (Qgtb _ mwe).
      * destruct (Qgtb _ maxWidth_).
        -- cbn. intros [= <-]. exact Hm.
        -- intros H. eapply same_advanced_trans; [exact Hm|]. eapply IH, H.
      * intros H. eapply same_advanced_trans; [exact Hm|]. eapply IH, H.
    + cbn. intros [= <-].
      apply (charWidth_state (oriTextArr_at text_ i)). rewrite Hcw. reflexivity.
Qed.

Lemma wrap_step_state (mwe : Q) (ell : string) (st : WrapState)
    (this this' : Manager) :
  outcome_state
    (wrap_step L getWidth detailObj text_ maxWidth_ maxHeight_ lineHeight_
       context_ smartLabel mwe ell st this) = Some this' →
  same_advanced this this'.
Proof.
  unfold wrap_step, bind.
  destruct (charWidth getWidth detailObj _ this) as [w m|e m|] eqn:Hcw;
    [| |discriminate].
  - assert (Hm : same_advanced this m)
      by (eapply charWidth_state; rewrite Hcw; reflexivity).
    destruct (Qgtb _ mwe); [|cbn; intros [= <-]; exact Hm].
    destruct (Qgtb _ maxWidth_); [|cbn; intros [= <-]; exact Hm].
    destruct (Qgtb _ maxHeight_); cbn; intros [= <-]; exact Hm.
  - cbn. intros [= <-]. eapply charWidth_state. rewrite Hcw. reflexivity.
Qed.

Lemma wrap_loop_state (mwe : Q) (ell : string) (fuel : nat) (st : WrapState)
    (this this' : Manager) :
  outcome_state
    (wrap_loop L getWidth detailObj text_ maxWidth_ maxHeight_ lineHeight_
       context_ smartLabel mwe ell fuel st this) = Some this' →
  same_advanced this this'.
Proof.
  revert st this. induction fuel as [|fuel IH]; intros st this; cbn [wrap_loop];
    destruct (len text_ <=? w_i st);
    try (cbn; intros [= <-]; apply same_advanced_refl).
  unfold bind.
  destruct (wrap_step _ _ _ _ _ _ _ _ _ _ _ st this) as [[r|st1] m|e m|] eqn:Hs;
    [| | |discriminate].
  - cbn. intros [= <-]. eapply wrap_step_state. rewrite Hs. reflexivity.
  - intros H. eapply same_advanced_trans; [|eapply IH, H].
    eapply wrap_step_state. rewrite Hs. reflexivity.
  - cbn. intros [= <-]. eapply wrap_step_state. rewrite Hs. reflexivity.
Qed.

Lemma plainText_state (showNoEllipses : bool) (ellipsesWidth_ dotWidth_ : Q)
    (noWrap : bool) (this this' : Manager) :
  outcome_state
    (plainText L getWidth detailObj text_ maxWidth_ maxHeight_ lineHeight_
       context_ smartLabel showNoEllipses ellipsesWidth_ dotWidth_ noWrap this)
    = Some this' →
  same_advanced this this'.
Proof.
  unfold plainText, bind.
  destruct (firstCharWidth getWidth text_ this) as [w m|e m|] eqn:Hf;
    [| |discriminate].
  - assert (Hm : same_advanced this m)
      by (apply firstCharWidth_state; rewrite Hf; reflexivity).
    destruct (ellipsis_budget _ _ _ _ _ _ _ _) as [[[tempArr mwe] ell]|];
      [|cbn; intros [= <-]; exact Hm].
    destruct noWrap; intros H; (eapply same_advanced_trans; [exact Hm|]).
    + eapply nowrap_loop_state, H.
    + eapply wrap_loop_state, H.
  - cbn. intros [= <-]. apply firstCharWidth_state. rewrite Hf. reflexivity.
Qed.

End PlainState.

Lemma originalSize_cache_inv (L : Lib) (container : Node) (text : string)
    (this this' : Manager) :
  cache_bounded this → cache_listed this →
  outcome_state (originalSize L container text this) = Some this' →
  cache_bounded this' ∧ cache_listed this'.
Proof.
  intros Hb Hl. unfold originalSize.
  destruct (isBrowserLess L); [cbn; intros [= <-]; done|].
  destruct (xmlTagRegEx_test L text); [cbn; intros [= <-]; done|].
  unfold bind.
  destruct (getOriSize _ true this) as [r m|e m|] eqn:Hg; [| |discriminate].
  - destruct (getOriSize_cache_inv _ true this m Hb Hl
                ltac:(rewrite Hg; reflexivity)) as (?&?&_).
    destruct r; cbn; [discriminate|]. intros [= <-]. done.
  - destruct (getOriSize_cache_inv _ true this m Hb Hl
                ltac:(rewrite Hg; reflexivity)) as (?&?&_).
    cbn. intros [= <-]. done.
Qed.

Lemma getSmartText_cache_inv (L : Lib) (text : jsval) (mw mh : Q)
    (noWrap : bool) (this this' : Manager) :
  cache_bounded this → cache_listed this →
  outcome_state (getSmartText L text mw mh noWrap this) = Some this' →
  cache_bounded this' ∧ cache_listed this'.
Proof.
  intros Hb Hl. unfold getSmartText.
  destruct (_init this); cbn; [|intros [= <-]; done].
  destruct (_containerObj this) as [sCont|]; cbn; [|intros [= <-]; done].
  destruct (_container this) as [container|]; cbn; [|intros [= <-]; done].
  destruct (_lineHeight this) as [lh|]; [|discriminate].
  unfold bind.
  destruct (originalSize L container (text_of_arg text) this)
    as [[hasTag ori] m|e m|] eqn:Ho; [| |discriminate].
  - destruct (originalSize_cache_inv L container _ this m Hb Hl
                ltac:(rewrite Ho; reflexivity)) as [Hb1 Hl1].
    destruct (fits _ _ _); [cbn; intros [= <-]; done|].
    destruct (negb _ && Qgtb _ _); [cbn; intros [= <-]; done|].
    destruct hasTag; [discriminate|].
    destruct (plainText _ _ _ _ _ _ _ _ _ _ _ _ _ m) as [r m'|e m'|] eqn:Hp;
      [| |discriminate]; cbn; intros [= <-];
      eapply same_advanced_inv; try eassumption;
      eapply plainText_state; rewrite Hp; reflexivity.
  - cbn. intros [= <-].
    exact (originalSize_cache_inv L container _ this m Hb Hl
             ltac:(rewrite Ho; reflexivity)).
Qed.

(** After any sequence of calls that measure and stay within what is
    modelled, on a manager whose key list is within the limit and holds
    every key of the cache, the key list is within the limit, every key of
    the cache is in the key list, and the cache holds no more entries than
    the limit. *)
Lemma cache_bound_after_calls (cs : list Call) (this this' : Manager) :
  cache_bounded this → cache_listed this →
  run_calls cs this = Some this' →
  cache_bounded this' ∧ cache_listed this'
  ∧ (Qnat (size (_advancedCache this')) <= maxCacheLimit this')%Q.
Proof.
  intros Hb Hl Hrun.
  assert (Hinv : cache_bounded this' ∧ cache_listed this').
  { revert this Hb Hl Hrun.
    induction cs as [|c cs IH]; intros this Hb Hl; cbn.
    - intros [= <-]. done.
    - destruct (call_state c this) as [m|] eqn:Hc; [|discriminate].
      apply IH.
      + destruct c; cbn in Hc.
        * by destruct (calCharDim_cache_inv _ _ _ this m Hb Hl Hc) as (?&?&_).
        * by destruct (getOriSize_cache_inv _ _ this m Hb Hl Hc) as (?&?&_).
        * by destruct (getSmartText_cache_inv _ _ _ _ _ this m Hb Hl Hc).
      + destruct c; cbn in Hc.
        * by destruct (calCharDim_cache_inv _ _ _ this m Hb Hl Hc) as (?&?&_).
        * by destruct (getOriSize_cache_inv _ _ this m Hb Hl Hc) as (?&?&_).
        * by destruct (getSmartText_cache_inv _ _ _ _ _ this m Hb Hl Hc). }
  destruct Hinv as [Hb' Hl']. repeat split; [done|done|].
  eapply Qle_trans; [|exact Hb'].
  unfold Qnat. rewrite <- Zle_Qle. apply Nat2Z.inj_le.
  by apply cache_listed_size.
Qed.

Lemma fresh_manager_cache_inv (co : ContainerObj) (limit : Q) (b : bool) :
  (0 <= limit)%Q →
  cache_bounded (manager_of co limit b) ∧ cache_listed (manager_of co limit b).
Proof.
  intros Hpos. split.
  - exact Hpos.
  - intros k [v Hk]. cbn in Hk. rewrite lookup_empty in Hk. discriminate.
Qed.

(** ** Strings *)


Lemma str_app_cons (c : ascii) (s t : string) :
  (String c s +:+ t)%string = String c (s +:+ t).
Proof. reflexivity. Qed.

Lemma str_app_nil_l (t : string) : ("" +:+ t)%string = t.
Proof. reflexivity. Qed.

Lemma str_app_nil_r (s : string) : (s +:+ "")%string = s.
Proof.
  induction s as [|c s IH]; [reflexivity|]. rewrite str_app_cons, IH. reflexivity.
Qed.

Lemma str_app_assoc (s t u : string) :
  ((s +:+ t) +:+ u)%string = (s +:+ (t +:+ u))%string.
Proof.
  induction s as [|c s IH]; [reflexivity|]. rewrite !str_app_cons, IH. reflexivity.
Qed.

Lemma match_br_tail_app (t r : string) (k : nat) :
  JS.match_br_tail t = Some k → JS.match_br_tail (t +:+ r) = Some k.
Proof.
  revert k. induction t as [|c t IH]; intros k; [discriminate|].
  rewrite str_app_cons. cbn [JS.match_br_tail].
  destruct (JS.is_ws c).
  - destruct (JS.match_br_tail t) as [k0|]; [|discriminate].
    rewrite (IH k0 eq_refl). done.
  - destruct (Ascii.eqb c "/").
    + destruct t as [|d t]; [discriminate|]. rewrite str_app_cons. done.
    + done.
Qed.

(** A match of the separator reads the characters it matches and no
    other. *)
Lemma match_sep_app (t r : string) (k : nat) :
  JS.match_sep t = Some k → JS.match_sep (t +:+ r) = Some k.
Proof.
  destruct t as [|c t]; [discriminate|].
  rewrite str_app_cons. cbn [JS.match_sep].
  destruct (Ascii.eqb c "010"); [done|].
  destruct (Ascii.eqb c "<"); [|done].
  destruct t as [|b [|r0 t]]; try discriminate.
  rewrite !str_app_cons.
  destruct (JS.is_b b && JS.is_r r0); [|done].
  destruct (JS.match_br_tail t) as [k0|] eqn:Hk; [|discriminate].
  rewrite (match_br_tail_app _ r _ Hk). done.
Qed.

Lemma has_sep_false (s : string) :
  (∀ p t, s = (p +:+ t)%string → JS.match_sep t = None) → has_sep s = false.
Proof.
  induction s as [|c s IH]; intros H; [reflexivity|].
  cbn [has_sep]. rewrite (H ""%string (String c s) eq_refl).
  apply IH. intros p t ->. apply (H (String c p) t). reflexivity.
Qed.

Lemma str_snoc_split (cur p t : string) (c : ascii) :
  (cur +:+ String c "")%string = (p +:+ t)%string → t ≠ ""%string →
  ∃ t0, t = (t0 +:+ String c "")%string ∧ cur = (p +:+ t0)%string.
Proof.
  revert cur. induction p as [|a p IH]; intros cur Heq Hne.
  - exists cur. rewrite str_app_nil_l in Heq. split; [done|reflexivity].
  - destruct cur as [|a' cur].
    + rewrite str_app_nil_l, str_app_cons in Heq. injection Heq as _ Heq.
      destruct p; [|discriminate]. rewrite str_app_nil_l in Heq. done.
    + rewrite !str_app_cons in Heq. injection Heq as -> Heq.
      destruct (IH cur Heq Hne) as (t0 & -> & ->).
      exists t0. split; reflexivity.
Qed.

Lemma split_sep_from_no_sep (s : string) (skip : nat) (cur : string) :
  (skip = 0 ∨ cur = ""%string) →
  (∀ p t, cur = (p +:+ t)%string → t ≠ ""%string →
          JS.match_sep (t +:+ s) = None) →
  Forall (fun line => has_sep line = false) (JS.split_sep_from skip cur s).
Proof.
  revert skip cur. induction s as [|c s IH]; intros skip cur Hskip Hinv.
  - cbn. constructor; [|constructor]. apply has_sep_false.
    intros p t Hpt. destruct t as [|a t]; [reflexivity|].
    specialize (Hinv p (String a t) Hpt ltac:(discriminate)).
    rewrite str_app_nil_r in Hinv. exact Hinv.
  - cbn [JS.split_sep_from]. destruct skip as [|k].
    + destruct (JS.match_sep (String c s)) as [n|] eqn:Hm.
      * constructor.
        -- apply has_sep_false. intros p t Hpt.
           destruct t as [|a t]; [reflexivity|].
           specialize (Hinv p (String a t) Hpt ltac:(discriminate)).
           destruct (JS.match_sep (String a t)) as [k|] eqn:Hk; [|reflexivity].
           rewrite (match_sep_app _ (String c s) _ Hk) in Hinv. discriminate.
        -- apply IH; [right; reflexivity|].
           intros p t Hpt Hne. destruct p; [|discriminate].
           rewrite str_app_nil_l in Hpt. congruence.
      * apply IH; [left; reflexivity|].
        intros p t Hpt Hne.
        destruct (str_snoc_split cur p t c Hpt Hne) as (t0 & -> & ->).
        rewrite str_app_assoc, str_app_cons, str_app_nil_l.
        destruct t0 as [|a t0]; [exact Hm|].
        apply (Hinv p (String a t0) eq_refl). discriminate.
    + destruct Hskip as [Hk| ->]; [discriminate|].
      apply IH; [right; reflexivity|].
      intros p t Hpt Hne. destruct p; [|discriminate].
      rewrite str_app_nil_l in Hpt. congruence.
Qed.

Lemma split_sep_from_nonempty (s : string) (skip : nat) (cur : string) :
  JS.split_sep_from skip cur s ≠ [].
Proof.
  revert skip cur. induction s as [|c s IH]; intros skip cur; [discriminate|].
  cbn [JS.split_sep_from]. destruct skip; [|apply IH].
  destruct (JS.match_sep _); [discriminate|apply IH].
Qed.

(** X1. The [lines] that [textToLines] sets are never an empty array, and no
    line holds a separator: neither a line feed nor a [<br>] marker, in any
    of its writings, occurs inside a line. *)
Theorem textToLines_lines_hold_no_separator (a : ref_arg) (h : heap) :
  ∃ lines,
    get_prop ((textToLines a h).2 !!! (textToLines a h).1) "lines" = JArr lines
    ∧ lines ≠ []
    ∧ Forall (fun line => has_sep line = false) lines.
Proof.
  assert (Hsplit : ∀ t, JS.split_sep t ≠ []
                        ∧ Forall (fun line => has_sep line = false) (JS.split_sep t)).
  { intros t. split; [apply split_sep_from_nonempty|].
    apply split_sep_from_no_sep; [left; reflexivity|].
    intros p t0 Hpt Hne. destruct p; [|discriminate].
    rewrite str_app_nil_l in Hpt. congruence. }
  destruct a as [| |l0]; cbn [textToLines fst snd];
    rewrite lookup_total_insert_eq; unfold get_prop at 1;
    rewrite lookup_insert_eq; cbn [default from_option Datatypes.id];
    eexists; (split; [reflexivity|]); apply Hsplit.
Qed.


(** [textToLines] on an object it has already filled. *)
Lemma textToLines_on_result (l : loc) (o : obj) (h0 : heap) (t : string) :
  let o' := <["lines"%string := JArr (JS.split_sep t)]>
              (<["text"%string := JStr t]> o) in
  textToLines (ARef l) (<[l := o']> h0) = (l, <[l := o']> h0).
Proof.
  intros o'. unfold textToLines.
  rewrite lookup_total_insert_eq. unfold get_prop.
  assert (Hlook : o' !! "text"%string = Some (JStr t)).
  { unfold o'. rewrite lookup_insert_ne by done. apply lookup_insert_eq. }
  rewrite Hlook. cbn [default from_option Datatypes.id truthy].
  assert (Htext : (if negb (negb (String.eqb t "")) then ""%string else t) = t).
  { destruct (String.eqb_spec t ""); subst; reflexivity. }
  rewrite Htext, insert_insert_eq.
  assert (Hsame : <["lines"%string := JArr (JS.split_sep t)]>
                    (<["text"%string := JStr t]> o') = o').
  { unfold o'.
    rewrite (insert_insert_ne _ "text"%string "lines"%string) by done.
    rewrite !insert_insert_eq. reflexivity. }
  rewrite Hsame. reflexivity.
Qed.

(** X2. [textToLines] on the object it returned changes nothing: the
    reference, the object and the heap are the same after the second call as
    after the first. *)
Theorem textToLines_idempotent (a : ref_arg) (h : heap) :
  textToLines (ARef (textToLines a h).1) (textToLines a h).2 = textToLines a h.
Proof.
  destruct a as [| |l0]; cbn [textToLines fst snd]; apply textToLines_on_result.
Qed.


(** ** After [dispose], and [setStyle] *)

(** X3. A manager that has been disposed still passes the guard on [_init]
    and can no longer measure. [dispose] once more changes nothing.
    [setStyle] with a style throws a [TypeError], the container manager
    being gone, after it has recorded the style. The style being gone, the
    key of a text in the advanced cache is the text alone: [getOriSize]
    without details returns the size cached under that key when there is
    one, and throws a [TypeError] when there is none, the container being
    gone too. *)
Theorem disposed_manager_cannot_measure (this : Manager)
    (Hinit : _init this = true) :
  ∃ this',
    dispose this = Ret RThis this'
    ∧ dispose this' = Ret RThis this'
    ∧ (∀ L st, ∃ m,
         setStyle L (Some st) this' = Throws TypeError m
         ∧ style m = Some (setLineHeight L st)
         ∧ _containerObj m = None ∧ _container m = None)
    ∧ (∀ text,
         _advancedCache this !! text = None →
         getOriSize text false this' = Throws TypeError this')
    ∧ (∀ text w h,
         _advancedCache this !! text = Some (CDim w h) →
         getOriSize text false this'
           = Ret (Val {| OriSize.width := w; OriSize.height := h;
                         OriSize.detailObj := None |}) this').
Proof.
  eexists. unfold dispose at 1. rewrite Hinit. cbn [negb].
  split; [reflexivity|].
  split; [reflexivity|].
  split; [|split].
  - intros L st. eexists. split; [reflexivity|]. repeat split.
  - intros text Hmiss. unfold getOriSize, _calCharDimWithCache. cbn.
    unfold bind, asymmetricDifference, cachedOrMeasured. cbn.
    rewrite str_app_nil_r, Hmiss. destruct (inherited text); reflexivity.
  - intros text w h Hhit. unfold getOriSize, _calCharDimWithCache. cbn.
    unfold bind, asymmetricDifference, cachedOrMeasured. cbn.
    rewrite str_app_nil_r, Hhit. reflexivity.
Qed.

(** [disposed_manager_cannot_measure] on a manager as the constructor
    leaves it. *)
Lemma disposed_manager_cannot_measure_witness :
  let this := manager_of (container_of mono_node 3) 500 false in
  _init this = true
  ∧ ∃ this',
      dispose this = Ret RThis this'
      ∧ dispose this' = Ret RThis this'
      ∧ getOriSize "Hello" false this' = Throws TypeError this'.
Proof.
  intros this. split; [reflexivity|].
  destruct (disposed_manager_cannot_measure this eq_refl)
    as (this' & Hd & Hdd & _ & Hmiss & _).
  exists this'. split; [exact Hd|]. split; [exact Hdd|].
  apply Hmiss. reflexivity.
Defined.

(** X4. [setStyle] with the style object the manager already has, once that
    style has been set with success, returns [undefined] and not the
    manager, and changes nothing. So after any call of [setStyle] that
    obtains a container object, the same call again returns [undefined].
    ([setLineHeight] works on the style object in place: the object stays the
    same.) *)
Theorem setStyle_same_style_again (L : Lib) (st : Style) (this : Manager)
    (cm : ContainerManager.t) (co : ContainerObj)
    (Hinit : _init this = true)
    (Hcm : _containerManager this = Some cm)
    (Hplace : styleRef (setLineHeight L st) = styleRef st)
    (Hget : ContainerManager.get cm (setLineHeight L st) = Some co) :
  ∃ r this1,
    setStyle L (Some st) this = Ret r this1
    ∧ _styleNotSet this1 = false
    ∧ setStyle L (Some st) this1 = Ret RUndefined this1.
Proof.
  unfold setStyle at 1. rewrite Hinit. cbn [negb].
  destruct (same_style (Some st) (style this) && negb (_styleNotSet this)) eqn:Hsame.
  - exists RUndefined, this. split; [reflexivity|].
    destruct (andb_prop _ _ Hsame) as [_ Hns].
    split; [destruct (_styleNotSet this); [discriminate|reflexivity]|].
    unfold setStyle. rewrite Hinit. cbn [negb]. rewrite Hsame. reflexivity.
  - rewrite Hcm, Hget. eexists _, _. split; [reflexivity|].
    split; [reflexivity|].
    unfold setStyle. cbn. rewrite Hplace, Nat.eqb_refl.
    reflexivity.
Qed.

(** [setStyle_same_style_again] on a style the manager does not have yet. *)
Lemma setStyle_same_style_again_witness :
  let co := container_of mono_node 3 in
  let this := manager_of co 500 false in
  let st := {| styleRef := 7; fontSize := Some "10px"%string; fontFamily := None;
               fontWeight := None; fontStyle := None |} in
  ∃ r this1,
    setStyle (lib_of (fun _ _ _ => 0%Z)) (Some st) this = Ret r this1
    ∧ setStyle (lib_of (fun _ _ _ => 0%Z)) (Some st) this1 = Ret RUndefined this1.
Proof.
  intros co this st.
  destruct (setStyle_same_style_again (lib_of (fun _ _ _ => 0%Z)) st this
              {| ContainerManager.get := fun _ => Some co |} co
              eq_refl eq_refl eq_refl eq_refl) as (r & this1 & H1 & _ & H2).
  exists r, this1. split; [exact H1|exact H2].
Defined.

(** X5. When the container manager hands out nothing for the style,
    [setStyle] records the style, marks it as not set and returns the
    manager; the container, the basic cache and the line height stay those
    of the previous style, and the container object is gone, so that
    [getSmartText] throws a [TypeError]. The next [setStyle], with the same
    style or another, is not skipped: it asks the container manager again. *)
Theorem setStyle_without_container_object (L : Lib) (st : Style)
    (this : Manager) (cm : ContainerManager.t)
    (Hinit : _init this = true)
    (Hcm : _containerManager this = Some cm)
    (Hnew : same_style (Some st) (style this) && negb (_styleNotSet this) = false)
    (Hget : ContainerManager.get cm (setLineHeight L st) = None) :
  ∃ this1,
    setStyle L (Some st) this = Ret RThis this1
    ∧ style this1 = Some (setLineHeight L st)
    ∧ _styleNotSet this1 = true ∧ _containerObj this1 = None
    ∧ _container this1 = _container this ∧ _cache this1 = _cache this
    ∧ _lineHeight this1 = _lineHeight this
    ∧ (∀ L' text w h noWrap,
         getSmartText L' text w h noWrap this1 = Throws TypeError this1)
    ∧ (∀ st', ∃ this2, setStyle L (Some st') this1 = Ret RThis this2).
Proof.
  eexists. unfold setStyle at 1. rewrite Hinit. cbn [negb].
  rewrite Hnew, Hcm, Hget. split; [reflexivity|]. cbn.
  do 6 (split; [reflexivity|]). split.
  - intros L' text w h noWrap. reflexivity.
  - intros st'. unfold setStyle. cbn.
    rewrite andb_false_r. eexists. reflexivity.
Qed.

(** [setStyle_without_container_object] with a container manager that has
    nothing to hand out. *)
Lemma setStyle_without_container_object_witness :
  let cm := {| ContainerManager.get := fun _ => None |} in
  let this :=
    {| _init := true; id := Some "sl"%string; parentContainer := Some mono_node;
       _containerManager := Some cm; _showNoEllipses := Some false;
       style := Some arial12; maxCacheLimit := 500; _containerObj := None;
       _container := None; _context := false; _cache := None;
       _lineHeight := None; _styleNotSet := true;
       _advancedCache := ∅; _advancedCacheKey := [] |} in
  ∃ this1,
    setStyle (lib_of (fun _ _ _ => 0%Z)) (Some arial12) this = Ret RThis this1
    ∧ _styleNotSet this1 = true
    ∧ getSmartText (lib_of (fun _ _ _ => 0%Z)) (JStr "Hello") 100 100 false this1
        = Throws TypeError this1.
Proof.
  intros cm this.
  destruct (setStyle_without_container_object (lib_of (fun _ _ _ => 0%Z))
              arial12 this cm eq_refl eq_refl eq_refl eq_refl)
    as (this1 & H1 & _ & Hns & _ & _ & _ & _ & Hthrow & _).
  exists this1. split; [exact H1|]. split; [exact Hns|]. apply Hthrow.
Defined.

(** ** The width of an SVG text *)

(** X6. With an SVG text node, the width [_getWidthFn] gives is the width
    of the bounding box less the correction (nothing on WebKit, 4.5
    elsewhere), unless that is below one, in which case it is the width of
    the bounding box itself. So the width is never more than the bounding
    box, it is at least one when the bounding box is, on WebKit it is the
    bounding box, and elsewhere it is the bounding box below 5.5 and 4.5
    less from 5.5 on. *)
Theorem svg_width_correction (L : Lib) (contObj : ContainerObj)
    (container : Node) (bbox : string → Q) (str : option string)
    (Hsvg : svgText contObj = Some bbox) :
  let bw := bbox (default ""%string str) in
  let w := _getWidthFn L contObj container str in
  (w <= bw)%Q
  ∧ ((1 <= bw)%Q → (1 <= w)%Q)
  ∧ ((bw < 1)%Q → w = bw)
  ∧ (isWebKit L = true → (w == bw)%Q)
  ∧ (isWebKit L = false → (11 # 2 <= bw)%Q → (w == bw - (9 # 2))%Q)
  ∧ (isWebKit L = false → (bw < 11 # 2)%Q → w = bw).
Proof.
  intros bw w. unfold w, _getWidthFn. rewrite Hsvg. fold bw.
  assert (Hcorr : (0 <= SVG_BBOX_CORRECTION L)%Q)
    by (unfold SVG_BBOX_CORRECTION; destruct (isWebKit L); discriminate).
  destruct (Qgtb 1 (bw - SVG_BBOX_CORRECTION L)) eqn:Hlt.
  - apply Qgtb_true in Hlt.
    split; [apply Qle_refl|]. split; [done|]. split; [done|].
    split; [reflexivity|]. split; [|done].
    intros Hwk Hge. exfalso. unfold SVG_BBOX_CORRECTION in Hlt. rewrite Hwk in Hlt.
    apply (Qlt_not_le _ _ Hlt).
    apply (Qplus_le_l _ _ (9 # 2)). ring_simplify. exact Hge.
  - apply Qgtb_false in Hlt.
    split; [|split; [|split; [|split; [|split]]]].
    + apply (Qplus_le_l _ _ (SVG_BBOX_CORRECTION L)). ring_simplify.
      rewrite <- (Qplus_0_r bw) at 1. apply Qplus_le_r. exact Hcorr.
    + intros _. exact Hlt.
    + intros Hbw. exfalso. apply (Qlt_not_le _ _ Hbw).
      eapply Qle_trans; [exact Hlt|].
      apply (Qplus_le_l _ _ (SVG_BBOX_CORRECTION L)). ring_simplify.
      rewrite <- (Qplus_0_r bw) at 1. apply Qplus_le_r. exact Hcorr.
    + intros Hwk. unfold SVG_BBOX_CORRECTION. rewrite Hwk. ring.
    + intros Hwk _. unfold SVG_BBOX_CORRECTION. rewrite Hwk. reflexivity.
    + intros Hwk Hbw. exfalso. unfold SVG_BBOX_CORRECTION in Hlt.
      rewrite Hwk in Hlt. apply (Qlt_not_le _ _ Hbw).
      apply (Qplus_le_l _ _ (- (9 # 2))). ring_simplify.
      ring_simplify in Hlt. exact Hlt.
Qed.

(** [svg_width_correction] on a bounding box half a pixel wider than the
    number of characters: five and a half, four and a half, a half. *)
Lemma svg_width_correction_witness :
  let L := {| isWebKit := false; isBrowserLess := false;
              xmlTagRegEx_test := fun _ => false;
              ltgtRegex_replace := fun s => s;
              getNearestBreakIndex := fun _ _ _ => 0%Z;
              setLineHeight := fun st => st |} in
  let bbox := fun s : string => (Qnat (String.length s) + (1 # 2))%Q in
  let co := {| node := Some mono_node; context := true; charCache := ∅;
               lineHeight := 10; ellipsesWidth := 3; dotWidth := 1;
               svgText := Some bbox |} in
  (_getWidthFn L co mono_node (Some "Hello"%string)
   == bbox "Hello"%string - (9 # 2))%Q
  ∧ _getWidthFn L co mono_node (Some "Hell"%string) = bbox "Hell"%string
  ∧ (_getWidthFn L co mono_node None <= bbox ""%string)%Q.
Proof.
  intros L bbox co.
  destruct (svg_width_correction L co mono_node bbox (Some "Hello"%string)
              eq_refl) as (_ & _ & _ & _ & Hbig & _).
  destruct (svg_width_correction L co mono_node bbox (Some "Hell"%string)
              eq_refl) as (_ & _ & _ & _ & _ & Hsmall).
  destruct (svg_width_correction L co mono_node bbox None eq_refl)
    as (Hle & _).
  split; [apply (Hbig eq_refl); discriminate|].
  split; [apply (Hsmall eq_refl); reflexivity|exact Hle].
Defined.


Lemma cache_room_le (n m : nat) (this : Manager) :
  m ≤ n → cache_room n this → cache_room m this.
Proof.
  unfold cache_room. intros Hle Hroom. eapply Qle_trans; [|exact Hroom].
  unfold Qnat. rewrite <- Zle_Qle. lia.
Qed.

(** With room for one more key, a store evicts nothing. *)
Lemma cache_store_room (key : string) (v : cval) (this : Manager) :
  cache_room 1 this →
  cache_store key v this
  = set_advanced (<[key := v]> (_advancedCache this))
      (_advancedCacheKey this ++ [key]) this.
Proof.
  unfold cache_room, cache_store, evict. intros Hroom.
  assert (Hno : Qgtb (Qnat (length (_advancedCacheKey this ++ [key])))
                  (maxCacheLimit this) = false).
  { unfold Qgtb. rewrite length_app. cbn [length].
    apply Qle_bool_iff in Hroom. rewrite Hroom. reflexivity. }
  rewrite Hno. reflexivity.
Qed.

Lemma cache_store_room_after (n : nat) (key : string) (v : cval) (this : Manager) :
  cache_room (S n) this → cache_room n (cache_store key v this).
Proof.
  intros Hroom. rewrite cache_store_room by (eapply cache_room_le; [|exact Hroom]; lia).
  unfold cache_room in *. cbn. rewrite length_app. cbn [length].
  replace (length (_advancedCacheKey this) + 1 + n)
    with (length (_advancedCacheKey this) + S n) by lia. exact Hroom.
Qed.

(** What the first half leaves when it returns and nothing is evicted: the
    correction under its key, the other keys as they were. *)
Lemma asymmetricDifference_leaves (key text : string) (l : nat)
    (this this1 : Manager) (a : Q) :
  cache_room 1 this →
  asymmetricDifference key text true l this = Ret a this1 →
  _advancedCache this1 !! key = Some (CNum a)
  ∧ (∀ k, k ≠ key → _advancedCache this1 !! k = _advancedCache this !! k)
  ∧ _init this1 = _init this ∧ style this1 = style this
  ∧ (this1 = this ∨ this1 = cache_store key (CNum a) this).
Proof.
  intros Hroom. unfold asymmetricDifference. cbn [negb].
  destruct (_advancedCache this !! key) as [[q|w h]|] eqn:Hlook; try discriminate.
  - intros [= <- <-]. repeat split; [exact Hlook|]. left. reflexivity.
  - destruct (_container this) as [n|]; [|discriminate].
    intros [= <- <-]. rewrite cache_store_room by exact Hroom. cbn.
    split; [apply lookup_insert_eq|].
    split; [intros k Hk; apply lookup_insert_ne; done|].
    repeat split. right. reflexivity.
Qed.

Lemma cachedOrMeasured_leaves (key text : string) (asym : Q)
    (this this' : Manager) (size : Size.t) :
  cache_room 1 this →
  cachedOrMeasured key text asym this = Ret size this' →
  _advancedCache this' !! key
    = Some (CDim (Size.width size) (Size.height size))
  ∧ (∀ k, k ≠ key → _advancedCache this' !! k = _advancedCache this !! k)
  ∧ _init this' = _init this ∧ style this' = style this.
Proof.
  intros Hroom. unfold cachedOrMeasured.
  assert (Hmeasure :
    match _container this with
    | Some n =>
        Ret {| Size.height := offsetHeight n text;
               Size.width := (js_add (offsetWidth n text) asym) |}
          (cache_store key
             (CDim (js_add (offsetWidth n text) asym) (offsetHeight n text)) this)
    | None => Throws TypeError this
    end = Ret size this' →
    _advancedCache this' !! key
      = Some (CDim (Size.width size) (Size.height size))
    ∧ (∀ k, k ≠ key → _advancedCache this' !! k = _advancedCache this !! k)
    ∧ _init this' = _init this ∧ style this' = style this).
  { destruct (_container this) as [n|]; [|discriminate].
    intros [= <- <-]. rewrite cache_store_room by exact Hroom. cbn.
    split; [apply lookup_insert_eq|].
    split; [intros k Hk; apply lookup_insert_ne; done|]. split; reflexivity. }
  destruct (_advancedCache this !! key) as [[q|w h]|] eqn:Hlook.
  - destruct (Qeq_bool q 0); [exact Hmeasure|discriminate].
  - intros [= <- <-]. cbn. repeat split. exact Hlook.
  - destruct (inherited key); [discriminate|exact Hmeasure].
Qed.

(** X7. While the key list has room for two more keys, what
    [_calCharDimWithCache] returns for a text it returns again on the next
    call for that text, whatever the length passed, and that call changes
    nothing: neither cache nor key list. The same holds for [getOriSize]
    without details. *)
Theorem measure_is_memoised (text : string) (this : Manager)
    (Hroom : cache_room 2 this) :
  (∀ cd l l' size this',
     _calCharDimWithCache text cd l this = Ret (Val size) this' →
     _calCharDimWithCache text cd l' this' = Ret (Val size) this')
  ∧ (∀ o this',
       getOriSize text false this = Ret (Val o) this' →
       getOriSize text false this' = Ret (Val o) this').
Proof.
  assert (Hcal : ∀ cd l l' size this',
     _calCharDimWithCache text cd l this = Ret (Val size) this' →
     _calCharDimWithCache text cd l' this' = Ret (Val size) this').
  { intros cd l l' size this'. unfold _calCharDimWithCache.
    destruct (_init this) eqn:Hinit; [|discriminate]. cbn [negb].
    set (name := (text +:+ style_suffix (style this))%string).
    set (init := (text +:+ "init" +:+ style_suffix (style this))%string).
    assert (Hne : name ≠ init) by apply (cacheName_neq_init this text).
    unfold bind.
    destruct (asymmetricDifference init _ cd l this) as [a this1|e m|] eqn:Ha;
      try discriminate.
    destruct (cachedOrMeasured name _ a this1) as [sz this2|e m|] eqn:Hc;
      try discriminate.
    intros [= <- <-].
    assert (H1 : (cd = true → _advancedCache this1 !! init = Some (CNum a))
                 ∧ _init this1 = true ∧ style this1 = style this
                 ∧ cache_room 1 this1).
    { destruct cd.
      - destruct (asymmetricDifference_leaves _ _ _ _ _ _
                    (cache_room_le 2 1 this ltac:(lia) Hroom) Ha)
          as (Hk & _ & Hi & Hs & [->| ->]).
        + repeat split; try done. eapply cache_room_le; [|exact Hroom]. lia.
        + repeat split; try done; [congruence|].
          by apply cache_store_room_after.
      - unfold asymmetricDifference in Ha. cbn in Ha. injection Ha as <- <-.
        repeat split; try done. eapply cache_room_le; [|exact Hroom]. lia. }
    destruct H1 as (Hk1 & Hi1 & Hs1 & Hroom1).
    destruct (cachedOrMeasured_leaves _ _ _ _ _ _ Hroom1 Hc)
      as (Hk2 & Hother & Hi2 & Hs2).
    rewrite Hi2, Hi1. cbn [negb]. rewrite Hs2, Hs1. fold name init.
    assert (Hasym : ∃ a', asymmetricDifference init (htmlSplCharSpace text) cd l' this2
                          = Ret a' this2).
    { unfold asymmetricDifference. destruct cd; cbn [negb].
      - rewrite (Hother init) by done. rewrite (Hk1 eq_refl). eexists. reflexivity.
      - eexists. reflexivity. }
    destruct Hasym as [a' ->].
    unfold cachedOrMeasured. rewrite Hk2. destruct sz. reflexivity. }
  split; [exact Hcal|].
  intros o this'. unfold getOriSize.
  destruct (_init this) eqn:Hinit; [|discriminate]. cbn [negb]. unfold bind.
  destruct (_calCharDimWithCache text false 0 this) as [[|s] m|e m|] eqn:Hcall;
    try discriminate.
  cbn. intros [= <- <-].
  assert (Hm : _init m = true).
  { pose proof (Hcal false 0 0 s m Hcall) as H2.
    unfold _calCharDimWithCache in H2. destruct (_init m); [reflexivity|discriminate]. }
  rewrite Hm. cbn [negb]. rewrite (Hcal false 0 0 s m Hcall). reflexivity.
Qed.

(** [measure_is_memoised] on an empty cache: the character [a] of a string
    of length two, then of length five. *)
Lemma measure_is_memoised_witness :
  let this := manager_of (container_of kern_node 3) 500 false in
  cache_room 2 this
  ∧ ∃ size this',
      _calCharDimWithCache "a" true 2 this = Ret (Val size) this'
      ∧ _calCharDimWithCache "a" true 5 this' = Ret (Val size) this'
      ∧ (Size.width size == 11)%Q.
Proof.
  intros this.
  assert (Hroom : cache_room 2 this) by (unfold cache_room; cbn; discriminate).
  split; [exact Hroom|].
  destruct (_calCharDimWithCache "a" true 2 this) as [[|size] this'|e m|] eqn:Hcall;
    [vm_compute in Hcall; discriminate| |vm_compute in Hcall; discriminate..].
  exists size, this'. split; [reflexivity|].
  split; [exact (proj1 (measure_is_memoised "a" this Hroom) true 2 5 size this' Hcall)|].
  vm_compute in Hcall. injection Hcall as <- _. reflexivity.
Defined.

(** ** What a call can change *)

Section Steps.

(** A relation between the manager before and after, kept by the two writes
    the measuring methods make: a store in the advanced cache, and a new
    entry in the basic cache. *)
Variable R : Manager → Manager → Prop.
Hypothesis R_refl : ∀ this, R this this.
Hypothesis R_trans : ∀ a b c, R a b → R b c → R a c.
Hypothesis R_store : ∀ key v this, R this (cache_store key v this).
Hypothesis R_cache : ∀ this c k w,
  _cache this = Some c → c !! k = None → R this (set_cache (<[k := w]> c) this).

Lemma asymmetricDifference_steps (key text : string) (cd : bool) (l : nat)
    (this this' : Manager) :
  outcome_state (asymmetricDifference key text cd l this) = Some this' →
  R this this'.
Proof.
  unfold asymmetricDifference.
  destruct cd; cbn; [|intros [= <-]; apply R_refl].
  destruct (_advancedCache this !! key) as [[q|w h]|]; cbn;
    [intros [= <-]; apply R_refl|discriminate|].
  destruct (_container this); cbn; intros [= <-]; [apply R_store|apply R_refl].
Qed.

Lemma cachedOrMeasured_steps (key text : string) (asym : Q)
    (this this' : Manager) :
  outcome_state (cachedOrMeasured key text asym this) = Some this' →
  R this this'.
Proof.
  unfold cachedOrMeasured.
  destruct (_advancedCache this !! key) as [[q|w h]|];
    [destruct (Qeq_bool q 0)| |destruct (inherited key)];
    try (destruct (_container this)); cbn; intros [= <-];
    first [apply R_store|apply R_refl].
Qed.

Lemma calCharDim_steps (text : string) (cd : bool) (l : nat)
    (this this' : Manager) :
  outcome_state (_calCharDimWithCache text cd l this) = Some this' →
  R this this'.
Proof.
  unfold _calCharDimWithCache.
  destruct (_init this); cbn; [|intros [= <-]; apply R_refl].
  unfold bind.
  destruct (asymmetricDifference _ _ _ _ this) as [a m|e m|] eqn:Ha;
    [| |discriminate].
  - assert (Hm : R this m)
      by (eapply asymmetricDifference_steps; rewrite Ha; reflexivity).
    destruct (cachedOrMeasured _ _ _ m) as [sz m'|e m'|] eqn:Hc;
      [| |discriminate]; cbn; intros [= <-];
      (eapply R_trans; [exact Hm|]);
      eapply cachedOrMeasured_steps; rewrite Hc; reflexivity.
  - cbn. intros [= <-]. eapply asymmetricDifference_steps. rewrite Ha. reflexivity.
Qed.

Lemma getOriSize_loop_steps (textArr : list string) (l : nat)
    (h c : Q) (store : gmap string Q) (this this' : Manager) :
  outcome_state (getOriSize_loop textArr l h c store this) = Some this' →
  R this this'.
Proof.
  revert h c store this.
  induction textArr as [|letter rest IH]; intros h c store this; cbn.
  - intros [= <-]. apply R_refl.
  - unfold bind.
    destruct (_calCharDimWithCache letter true l this) as [r m|e m|] eqn:Hcall;
      cbn; [| |discriminate].
    + assert (Hm : R this m)
        by (eapply calCharDim_steps; rewrite Hcall; reflexivity).
      destruct r as [|lSize]; [discriminate|].
      intros Hout. eapply R_trans; [exact Hm|]. eapply IH, Hout.
    + intros [= <-]. eapply calCharDim_steps. rewrite Hcall. reflexivity.
Qed.

Lemma getOriSize_steps (text : string) (detailed : bool)
    (this this' : Manager) :
  outcome_state (getOriSize text detailed this) = Some this' → R this this'.
Proof.
  unfold getOriSize.
  destruct (_init this); cbn; [|intros [= <-]; apply R_refl].
  destruct detailed; cbn; unfold bind.
  - destruct (getOriSize_loop _ _ _ _ _ this) as [[[h c] st] m|e m|] eqn:Hloop;
      cbn; [| |discriminate]; intros [= <-];
      eapply getOriSize_loop_steps; rewrite Hloop; reflexivity.
  - destruct (_calCharDimWithCache text false 0 this) as [r m|e m|] eqn:Hcall;
      cbn; [| |discriminate]; intros [= <-];
      eapply calCharDim_steps; rewrite Hcall; reflexivity.
Qed.

Lemma charWidth_steps (getWidth : option string → Q)
    (detailObj : option (gmap string Q)) (tempChar : string)
    (this this' : Manager) :
  outcome_state (charWidth getWidth detailObj tempChar this) = Some this' →
  R this this'.
Proof.
  unfold charWidth. destruct (_cache this) as [c|] eqn:Hc; cbn.
  - destruct (c !! tempChar) eqn:Hlook; cbn; intros [= <-];
      [apply R_refl|by apply R_cache].
  - intros [= <-]. apply R_refl.
Qed.

Lemma firstCharWidth_steps (getWidth : option string → Q) (text_ : string)
    (this this' : Manager) :
  outcome_state (firstCharWidth getWidth text_ this) = Some this' →
  R this this'.
Proof.
  unfold firstCharWidth. destruct (_cache this) as [c|] eqn:Hc; cbn.
  - destruct (c !! _) eqn:Hlook; cbn; intros [= <-];
      [apply R_refl|by apply R_cache].
  - intros [= <-]. apply R_refl.
Qed.

Lemma nowrap_loop_steps (getWidth : option string → Q)
    (detailObj : option (gmap string Q)) (text_ : string)
    (maxWidth_ lineHeight_ : Q) (smartLabel : SmartLabel)
    (mwe : Q) (ell : string) (n i : nat)
    (tempArr : list string) (strWidth : Q) (trimStr : option string)
    (this this' : Manager) :
  outcome_state
    (nowrap_loop getWidth detailObj text_ maxWidth_ lineHeight_ smartLabel
       mwe ell n i tempArr strWidth trimStr this) = Some this' →
  R this this'.
Proof.
  revert i tempArr strWidth trimStr this.
  induction n as [|n IH]; intros i tempArr strWidth trimStr this; cbn.
  - intros [= <-]. apply R_refl.
  - unfold bind.
    destruct (charWidth getWidth detailObj (oriTextArr_at text_ i) this)
      as [w m|e m|] eqn:Hcw; [| |discriminate].
    + assert (Hm : R this m)
        by (eapply charWidth_steps; rewrite Hcw; reflexivity).
      destruct (Qgtb _ mwe).
      * destruct (Qgtb _ maxWidth_).
        -- cbn. intros [= <-]. exact Hm.
        -- intros H. eapply R_trans; [exact Hm|]. eapply IH, H.
      * intros H. eapply R_trans; [exact Hm|]. eapply IH, H.
    + cbn. intros [= <-]. eapply charWidth_steps. rewrite Hcw. reflexivity.
Qed.

Lemma wrap_step_steps (L : Lib) (getWidth : option string → Q)
    (detailObj : option (gmap string Q)) (text_ : string)
    (maxWidth_ maxHeight_ lineHeight_ : Q) (context_ : bool)
    (smartLabel : SmartLabel) (mwe : Q) (ell : string) (st : WrapState)
    (this this' : Manager) :
  outcome_state
    (wrap_step L getWidth detailObj text_ maxWidth_ maxHeight_ lineHeight_
       context_ smartLabel mwe ell st this) = Some this' →
  R this this'.
Proof.
  unfold wrap_step, bind.
  destruct (charWidth getWidth detailObj _ this) as [w m|e m|] eqn:Hcw;
    [| |discriminate].
  - assert (Hm : R this m)
      by (eapply charWidth_steps; rewrite Hcw; reflexivity).
    destruct (Qgtb _ mwe); [|cbn; intros [= <-]; exact Hm].
    destruct (Qgtb _ maxWidth_); [|cbn; intros [= <-]; exact Hm].
    destruct (Qgtb _ maxHeight_); cbn; intros [= <-]; exact Hm.
  - cbn. intros [= <-]. eapply charWidth_steps. rewrite Hcw. reflexivity.
Qed.

Lemma wrap_loop_steps (L : Lib) (getWidth : option string → Q)
    (detailObj : option (gmap string Q)) (text_ : string)
    (maxWidth_ maxHeight_ lineHeight_ : Q) (context_ : bool)
    (smartLabel : SmartLabel) (mwe : Q) (ell : string) (fuel : nat)
    (st : WrapState) (this this' : Manager) :
  outcome_state
    (wrap_loop L getWidth detailObj text_ maxWidth_ maxHeight_ lineHeight_
       context_ smartLabel mwe ell fuel st this) = Some this' →
  R this this'.
Proof.
  revert st this. induction fuel as [|fuel IH]; intros st this; cbn [wrap_loop];
    destruct (len text_ <=? w_i st);
    try (cbn; intros [= <-]; apply R_refl).
  unfold bind.
  destruct (wrap_step _ _ _ _ _ _ _ _ _ _ _ st this) as [[r|st1] m|e m|] eqn:Hs;
    [| | |discriminate].
  - cbn. intros [= <-]. eapply wrap_step_steps. rewrite Hs. reflexivity.
  - intros H. eapply R_trans; [|eapply IH, H].
    eapply wrap_step_steps. rewrite Hs. reflexivity.
  - cbn. intros [= <-]. eapply wrap_step_steps. rewrite Hs. reflexivity.
Qed.

Lemma plainText_steps (L : Lib) (getWidth : option string → Q)
    (detailObj : option (gmap string Q)) (text_ : string)
    (maxWidth_ maxHeight_ lineHeight_ : Q) (context_ : bool)
    (smartLabel : SmartLabel) (showNoEllipses : bool)
    (ellipsesWidth_ dotWidth_ : Q) (noWrap : bool) (this this' : Manager) :
  outcome_state
    (plainText L getWidth detailObj text_ maxWidth_ maxHeight_ lineHeight_
       context_ smartLabel showNoEllipses ellipsesWidth_ dotWidth_ noWrap this)
    = Some this' →
  R this this'.
Proof.
  unfold plainText, bind.
  destruct (firstCharWidth getWidth text_ this) as [w m|e m|] eqn:Hf;
    [| |discriminate].
  - assert (Hm : R this m)
      by (eapply firstCharWidth_steps; rewrite Hf; reflexivity).
    destruct (ellipsis_budget _ _ _ _ _ _ _ _) as [[[tempArr mwe] ell]|];
      [|cbn; intros [= <-]; exact Hm].
    destruct noWrap; intros H; (eapply R_trans; [exact Hm|]).
    + eapply nowrap_loop_steps, H.
    + eapply wrap_loop_steps, H.
  - cbn. intros [= <-]. eapply firstCharWidth_steps. rewrite Hf. reflexivity.
Qed.

Lemma originalSize_steps (L : Lib) (container : Node) (text : string)
    (this this' : Manager) :
  outcome_state (originalSize L container text this) = Some this' →
  R this this'.
Proof.
  unfold originalSize.
  destruct (isBrowserLess L); [cbn; intros [= <-]; apply R_refl|].
  destruct (xmlTagRegEx_test L text); [cbn; intros [= <-]; apply R_refl|].
  unfold bind.
  destruct (getOriSize _ true this) as [r m|e m|] eqn:Hg; [| |discriminate].
  - assert (Hm : R this m) by (eapply getOriSize_steps; rewrite Hg; reflexivity).
    destruct r; cbn; [discriminate|]. intros [= <-]. exact Hm.
  - cbn. intros [= <-]. eapply getOriSize_steps. rewrite Hg. reflexivity.
Qed.

Lemma getSmartText_steps (L : Lib) (text : jsval) (mw mh : Q)
    (noWrap : bool) (this this' : Manager) :
  outcome_state (getSmartText L text mw mh noWrap this) = Some this' →
  R this this'.
Proof.
  unfold getSmartText.
  destruct (_init this); cbn; [|intros [= <-]; apply R_refl].
  destruct (_containerObj this) as [sCont|]; cbn; [|intros [= <-]; apply R_refl].
  destruct (_container this) as [container|]; cbn; [|intros [= <-]; apply R_refl].
  destruct (_lineHeight this) as [lh|]; [|discriminate].
  unfold bind.
  destruct (originalSize L container (text_of_arg text) this)
    as [[hasTag ori] m|e m|] eqn:Ho; [| |discriminate].
  - assert (Hm : R this m) by (eapply originalSize_steps; rewrite Ho; reflexivity).
    destruct (fits _ _ _); [cbn; intros [= <-]; exact Hm|].
    destruct (negb _ && Qgtb _ _); [cbn; intros [= <-]; exact Hm|].
    destruct hasTag; [discriminate|].
    destruct (plainText _ _ _ _ _ _ _ _ _ _ _ _ _ m) as [r m'|e m'|] eqn:Hp;
      [| |discriminate]; cbn; intros [= <-];
      (eapply R_trans; [exact Hm|]);
      eapply plainText_steps; rewrite Hp; reflexivity.
  - cbn. intros [= <-]. eapply originalSize_steps. rewrite Ho. reflexivity.
Qed.

Lemma call_steps (c : Call) (this this' : Manager) :
  call_state c this = Some this' → R this this'.
Proof.
  destruct c; cbn.
  - apply calCharDim_steps.
  - apply getOriSize_steps.
  - apply getSmartText_steps.
Qed.

End Steps.

Lemma same_setup_refl (this : Manager) : same_setup this this.
Proof. repeat split. Qed.

Lemma same_setup_trans (a b c : Manager) :
  same_setup a b → same_setup b c → same_setup a c.
Proof.
  unfold same_setup. intros H1 H2.
  repeat match goal with H : _ ∧ _ |- _ => destruct H end.
  repeat split; congruence.
Qed.

Lemma same_setup_store (key : string) (v : cval) (this : Manager) :
  same_setup this (cache_store key v this).
Proof. unfold cache_store. destruct (evict _ _ _). repeat split. Qed.

Lemma same_setup_cache (this : Manager) (c : gmap string Q) :
  same_setup this (set_cache c this).
Proof. repeat split. Qed.

Lemma basic_cache_same_store (key : string) (v : cval) (this : Manager) :
  _cache (cache_store key v this) = _cache this.
Proof. unfold cache_store. destruct (evict _ _ _). reflexivity. Qed.

(** X8. Measuring writes the caches and nothing else: however
    [getSmartText], [getOriSize] or [_calCharDimWithCache] ends, the guard,
    the id, the style, the ellipsis setting, the limit of the cache, the
    container manager, the container object, the container, the context and
    the line height are those of before; [getOriSize] and
    [_calCharDimWithCache] leave the basic cache alone as well. *)
Theorem measuring_keeps_the_setup :
  (∀ L text mw mh noWrap this this',
     outcome_state (getSmartText L text mw mh noWrap this) = Some this' →
     same_setup this this')
  ∧ (∀ text detailed this this',
       outcome_state (getOriSize text detailed this) = Some this' →
       same_setup this this' ∧ _cache this' = _cache this)
  ∧ (∀ text cd l this this',
       outcome_state (_calCharDimWithCache text cd l this) = Some this' →
       same_setup this this' ∧ _cache this' = _cache this).
Proof.
  split; [|split].
  - intros L text mw mh noWrap this this'.
    apply (getSmartText_steps same_setup same_setup_refl same_setup_trans
             same_setup_store (fun this c k w _ _ => same_setup_cache this _)).
  - intros text detailed this this' H. split; revert H.
    + apply (getOriSize_steps same_setup same_setup_refl same_setup_trans
               same_setup_store).
    + apply (getOriSize_steps (fun a b => _cache b = _cache a));
        [reflexivity|intros a b c H1 H2; congruence
        |apply basic_cache_same_store].
  - intros text cd l this this' H. split; revert H.
    + apply (calCharDim_steps same_setup same_setup_refl same_setup_trans
               same_setup_store).
    + apply (calCharDim_steps (fun a b => _cache b = _cache a));
        [reflexivity|intros a b c H1 H2; congruence
        |apply basic_cache_same_store].
Qed.

Lemma basic_cache_kept_refl (this : Manager) : basic_cache_kept this this.
Proof.
  unfold basic_cache_kept. destruct (_cache this) as [c|]; [|reflexivity].
  exists c. split; reflexivity.
Qed.

Lemma basic_cache_kept_trans (a b c : Manager) :
  basic_cache_kept a b → basic_cache_kept b c → basic_cache_kept a c.
Proof.
  unfold basic_cache_kept. destruct (_cache a) as [ca|].
  - intros (cb & Hb & Hab). rewrite Hb. intros (cc & Hc & Hbc).
    exists cc. split; [exact Hc|]. etransitivity; eassumption.
  - intros ->. done.
Qed.

Lemma basic_cache_kept_store (key : string) (v : cval) (this : Manager) :
  basic_cache_kept this (cache_store key v this).
Proof.
  unfold basic_cache_kept. rewrite basic_cache_same_store.
  destruct (_cache this) as [c|]; [|reflexivity]. exists c. split; reflexivity.
Qed.

Lemma basic_cache_kept_cache (this : Manager) (c : gmap string Q) (k : string)
    (w : Q) :
  _cache this = Some c → c !! k = None →
  basic_cache_kept this (set_cache (<[k := w]> c) this).
Proof.
  intros Hc Hk. unfold basic_cache_kept. rewrite Hc. cbn.
  eexists. split; [reflexivity|]. by apply insert_subseteq.
Qed.

(** X9. The basic cache only grows: however [getSmartText] ends, every
    character that had a width in the basic cache before the call has the
    same width after it. *)
Theorem basic_cache_only_grows (L : Lib) (text : jsval) (mw mh : Q)
    (noWrap : bool) (this this' : Manager) (c0 : gmap string Q)
    (Hcall : outcome_state (getSmartText L text mw mh noWrap this) = Some this')
    (Hcache : _cache this = Some c0) :
  ∃ c1, _cache this' = Some c1
        ∧ ∀ ch w, c0 !! ch = Some w → c1 !! ch = Some w.
Proof.
  pose proof (getSmartText_steps basic_cache_kept basic_cache_kept_refl
                basic_cache_kept_trans basic_cache_kept_store
                basic_cache_kept_cache L text mw mh noWrap this this' Hcall) as H.
  unfold basic_cache_kept in H. rewrite Hcache in H.
  destruct H as (c1 & Hc1 & Hsub). exists c1. split; [exact Hc1|].
  intros ch w Hch. eapply lookup_weaken; eassumption.
Qed.

(** [basic_cache_only_grows] on a cache that holds a width of two for [H]. *)
Lemma basic_cache_only_grows_witness :
  let L := lib_of (fun _ _ _ => 0%Z) in
  let co := {| node := Some mono_node; context := true;
               charCache := {[ "H"%string := 2%Q ]}; lineHeight := 10;
               ellipsesWidth := 3; dotWidth := 1; svgText := None |} in
  let this := manager_of co 500 false in
  ∃ this' c1,
    outcome_state (getSmartText L (JStr "Hello World") (17 # 2) 100 true this)
      = Some this'
    ∧ _cache this' = Some c1
    ∧ c1 !! "H"%string = Some 2%Q.
Proof.
  intros L co this.
  destruct (outcome_state
              (getSmartText L (JStr "Hello World") (17 # 2) 100 true this))
    as [this'|] eqn:Hcall; [|vm_compute in Hcall; discriminate].
  destruct (basic_cache_only_grows L (JStr "Hello World") (17 # 2) 100 true
              this this' {[ "H"%string := 2%Q ]} Hcall eq_refl)
    as (c1 & Hc1 & Hkept).
  exists this', c1. split; [reflexivity|]. split; [exact Hc1|].
  apply Hkept. reflexivity.
Defined.

(** ** The advanced cache under every method *)

(** The relation of [Steps] that carries the two properties of the advanced
    cache from the manager before to the manager after. *)
Lemma cache_inv_steps (c : Call) (this this' : Manager) :
  call_state c this = Some this' →
  cache_bounded this ∧ cache_listed this →
  cache_bounded this' ∧ cache_listed this'.
Proof.
  apply (call_steps
           (fun a b => cache_bounded a ∧ cache_listed a →
                       cache_bounded b ∧ cache_listed b)).
  - done.
  - intros a b d Hab Hbd Ha. apply Hbd, Hab, Ha.
  - intros key v m [Hb Hl].
    split; [by apply cache_store_bounded|by apply cache_store_listed].
  - intros m d k w _ _ Hm. exact Hm.
Qed.

Lemma setStyle_advanced (L : Lib) (st : option Style) (this this' : Manager) :
  outcome_state (setStyle L st this) = Some this' → same_advanced this this'.
Proof.
  unfold setStyle.
  destruct (_init this); cbn; [|intros [= <-]; apply same_advanced_refl].
  destruct (same_style st (style this) && negb (_styleNotSet this));
    [cbn; intros [= <-]; apply same_advanced_refl|].
  destruct (if st is Some _ then st else style this); [|discriminate].
  destruct (_containerManager this); cbn; intros [= <-]; repeat split.
Qed.

Lemma method_advanced (m : Method) (this this' : Manager) :
  method_state m this = Some this' →
  cache_bounded this ∧ cache_listed this →
  (cache_bounded this' ∧ cache_listed this')
  ∧ maxCacheLimit this' = maxCacheLimit this.
Proof.
  destruct m as [c|L st|b|]; cbn.
  - intros Hc Hinv. split; [exact (cache_inv_steps c this this' Hc Hinv)|].
    revert Hc.
    apply (call_steps (fun a b => maxCacheLimit b = maxCacheLimit a)).
    + reflexivity.
    + intros a b d H1 H2. congruence.
    + intros key v m. unfold cache_store. destruct (evict _ _ _). reflexivity.
    + reflexivity.
  - intros Hs [Hb Hl]. pose proof (setStyle_advanced L st this this' Hs) as Hsame.
    split; [exact (same_advanced_inv this this' Hsame Hb Hl)|].
    apply Hsame.
  - unfold useEllipsesOnOverflow. destruct (_init this); cbn;
      intros [= <-] Hinv; (split; [exact Hinv|reflexivity]).
  - unfold dispose. destruct (_init this); cbn;
      intros [= <-] Hinv; (split; [exact Hinv|reflexivity]).
Qed.

Lemma run_methods_app (ms1 ms2 : list Method) (this : Manager) :
  run_methods (ms1 ++ ms2) this
  = match run_methods ms1 this with
    | Some m => run_methods ms2 m
    | None => None
    end.
Proof.
  revert this. induction ms1 as [|m ms1 IH]; intros this; cbn; [reflexivity|].
  destruct (method_state m this); [apply IH|reflexivity].
Qed.

(** X10. On a manager that starts with an empty advanced cache and a limit
    that is not negative, along any sequence of calls of the public methods
    and of [_calCharDimWithCache] that stay within what is modelled, and so
    after each call of the sequence, the limit is the one set at the start,
    the key list is not longer than the limit, the cache holds no more
    entries than the limit, and every key of the cache is in the key
    list. *)
Theorem advanced_cache_stays_within_limit (ms : list Method)
    (this this' : Manager)
    (Hempty : _advancedCache this = ∅)
    (Hkeys : _advancedCacheKey this = [])
    (Hlimit : (0 <= maxCacheLimit this)%Q)
    (Hrun : run_methods ms this = Some this') :
  ∀ done rest, ms = done ++ rest →
    ∃ m, run_methods done this = Some m
         ∧ maxCacheLimit m = maxCacheLimit this
         ∧ (Qnat (length (_advancedCacheKey m)) <= maxCacheLimit this)%Q
         ∧ (Qnat (size (_advancedCache m)) <= maxCacheLimit this)%Q
         ∧ (∀ k, is_Some (_advancedCache m !! k) → k ∈ _advancedCacheKey m).
Proof.
  assert (Hstart : cache_bounded this ∧ cache_listed this).
  { split.
    - unfold cache_bounded. rewrite Hkeys. exact Hlimit.
    - intros k [v Hk]. rewrite Hempty, lookup_empty in Hk. discriminate. }
  clear Hempty Hkeys Hlimit.
  assert (Hsteps : ∀ l m0 m1, cache_bounded m0 ∧ cache_listed m0 →
            run_methods l m0 = Some m1 →
            (cache_bounded m1 ∧ cache_listed m1)
            ∧ maxCacheLimit m1 = maxCacheLimit m0).
  { induction l as [|m l IH]; intros m0 m1 Hinv; cbn.
    - intros [= <-]. done.
    - destruct (method_state m m0) as [m2|] eqn:Hm; [|discriminate].
      intros Hl.
      destruct (method_advanced m m0 m2 Hm Hinv) as [Hinv2 Hl2].
      destruct (IH m2 m1 Hinv2 Hl) as [Hinv1 Hl1].
      split; [exact Hinv1|congruence]. }
  intros done rest ->. rewrite run_methods_app in Hrun.
  destruct (run_methods done this) as [m|] eqn:Hdone; [|discriminate].
  exists m. split; [reflexivity|].
  destruct (Hsteps done this m Hstart Hdone) as [[Hb Hl] Hsame].
  split; [exact Hsame|]. unfold cache_bounded in Hb. rewrite Hsame in Hb.
  split; [exact Hb|]. split; [|exact Hl].
  eapply Qle_trans; [|exact Hb].
  unfold Qnat. rewrite <- Zle_Qle. apply Nat2Z.inj_le.
  by apply cache_listed_size.
Qed.

(** [advanced_cache_stays_within_limit] for a limit of two, at the end of a
    sequence that measures, changes the style, measures and disposes. *)
Lemma advanced_cache_stays_within_limit_witness :
  let this := manager_of (container_of mono_node 3) 2 false in
  let ms := [Measure (CallGetOriSize "a" true);
             Measure (CallGetOriSize "ainit" false);
             SetStyle (lib_of (fun _ _ _ => 0%Z)) (Some arial12);
             Measure (CallGetSmartText (lib_of (fun _ _ _ => 0%Z))
                        (JStr "Hello World") (17 # 2) 100 true);
             Dispose] in
  ∃ this',
    run_methods ms this = Some this'
    ∧ _advancedCacheKey this' ≠ []
    ∧ (Qnat (length (_advancedCacheKey this')) <= 2)%Q
    ∧ (Qnat (size (_advancedCache this')) <= 2)%Q.
Proof.
  intros this ms.
  destruct (run_methods ms this) as [this'|] eqn:Hrun;
    [|vm_compute in Hrun; discriminate].
  destruct (advanced_cache_stays_within_limit ms this this' eq_refl eq_refl
              ltac:(discriminate) Hrun ms [] (eq_sym (app_nil_r ms)))
    as (m & Hm & _ & Hk & Hs & _).
  rewrite Hrun in Hm. injection Hm as <-.
  exists this'. split; [reflexivity|].
  split; [vm_compute in Hrun; injection Hrun as <-; discriminate|].
  split; [exact Hk|exact Hs].
Defined.

Lemma set_advanced_same (this : Manager) :
  set_advanced (_advancedCache this) (_advancedCacheKey this) this = this.
Proof. destruct this. reflexivity. Qed.

(** With a limit below one and nothing cached, a store is undone at once. *)
Lemma cache_store_no_room (key : string) (v : cval) (this : Manager) :
  (maxCacheLimit this < 1)%Q →
  _advancedCache this = ∅ → _advancedCacheKey this = [] →
  cache_store key v this = this.
Proof.
  intros Hlimit Hempty Hkeys. unfold cache_store, evict.
  rewrite Hkeys. cbn [app length].
  assert (Hgt : Qgtb (Qnat 1) (maxCacheLimit this) = true).
  { unfold Qgtb. destruct (Qle_bool (Qnat 1) (maxCacheLimit this)) eqn:Hle;
      [|reflexivity].
    apply Qle_bool_iff in Hle. exfalso. exact (Qlt_not_le _ _ Hlimit Hle). }
  rewrite Hgt, Hempty, delete_insert_eq, delete_empty.
  rewrite <- Hempty, <- Hkeys. apply set_advanced_same.
Qed.

(** X11. With a limit below one, nothing stays cached: on an empty advanced
    cache every call of [_calCharDimWithCache] measures the text, derives
    the correction when asked for one, and leaves the manager as it was; it
    throws, the manager as it was, when the key of the text is a name every
    object inherits. The width is the sum the engine makes of the width
    measured and the correction. *)
Theorem limit_below_one_caches_nothing (text : string) (cd : bool) (l : nat)
    (this : Manager) (n : Node)
    (Hinit : _init this = true) (Hcontainer : _container this = Some n)
    (Hlimit : (maxCacheLimit this < 1)%Q)
    (Hempty : _advancedCache this = ∅)
    (Hkeys : _advancedCacheKey this = []) :
  let t := htmlSplCharSpace text in
  _calCharDimWithCache text cd l this =
    if inherited (cacheName this text) then Throws TypeError this
    else
      Ret (Val {| Size.width :=
                    js_add (offsetWidth n t) (if cd then asymmetric n t l else 0);
                  Size.height := offsetHeight n t |}) this.
Proof.
  intros t. unfold _calCharDimWithCache. rewrite Hinit. cbn [negb].
  unfold bind, asymmetricDifference, cachedOrMeasured. fold t.
  fold (cacheName this text).
  destruct cd; cbn [negb].
  - rewrite Hempty, lookup_empty, Hcontainer.
    rewrite (cache_store_no_room _ _ this Hlimit Hempty Hkeys).
    rewrite Hempty, lookup_empty, Hcontainer.
    destruct (inherited (cacheName this text)); [reflexivity|].
    rewrite (cache_store_no_room _ _ this Hlimit Hempty Hkeys). reflexivity.
  - rewrite Hempty, lookup_empty, Hcontainer.
    destruct (inherited (cacheName this text)); [reflexivity|].
    rewrite (cache_store_no_room _ _ this Hlimit Hempty Hkeys). reflexivity.
Qed.

(** [limit_below_one_caches_nothing] for a limit of zero. *)
Lemma limit_below_one_caches_nothing_witness :
  let this := manager_of (container_of kern_node 3) 0 false in
  ∃ size,
    _calCharDimWithCache "a" true 2 this = Ret (Val size) this
    ∧ _calCharDimWithCache "a" true 2 this = Ret (Val size) this
    ∧ (Size.width size == 11)%Q
    ∧ _advancedCache this = ∅.
Proof.
  intros this.
  pose proof (limit_below_one_caches_nothing "a" true 2 this kern_node
                eq_refl eq_refl ltac:(reflexivity) eq_refl eq_refl) as H.
  eexists. split; [exact H|]. split; [exact H|]. split; reflexivity.
Defined.

(** X12. The order of eviction is the order of first measure: reading an
    entry does not move its key. When the key list is full and starts with
    the key of [text0], a call for [text0] returns the cached size and
    changes nothing, and the next call for a text not yet cached evicts the
    entry of [text0]. (When the key of that text is a name every object
    inherits, what line 151 finds is no cached size: the call throws and
    nothing is evicted.) *)
Theorem eviction_ignores_reads (text0 text1 : string) (this : Manager)
    (n : Node) (rest : list string) (w h : Q)
    (Hinit : _init this = true) (Hcontainer : _container this = Some n)
    (Hkeys : _advancedCacheKey this = cacheName this text0 :: rest)
    (Hfull : Qgtb (Qnat (S (S (length rest)))) (maxCacheLimit this) = true)
    (Hhit : _advancedCache this !! cacheName this text0 = Some (CDim w h))
    (Hmiss : _advancedCache this !! cacheName this text1 = None) :
  _calCharDimWithCache text0 false 0 this
    = Ret (Val {| Size.width := w; Size.height := h |}) this
  ∧ (inherited (cacheName this text1) = false →
     ∃ size this1,
       _calCharDimWithCache text1 false 0 this = Ret (Val size) this1
       ∧ _advancedCacheKey this1 = rest ++ [cacheName this text1]
       ∧ _advancedCache this1 !! cacheName this text0 = None
       ∧ _advancedCache this1 !! cacheName this text1
         = Some (CDim (Size.width size) (Size.height size)))
  ∧ (inherited (cacheName this text1) = true →
     _calCharDimWithCache text1 false 0 this = Throws TypeError this).
Proof.
  split; [|split].
  - unfold _calCharDimWithCache. rewrite Hinit. cbn [negb].
    unfold bind, asymmetricDifference, cachedOrMeasured. cbn [negb].
    fold (cacheName this text0). rewrite Hhit. reflexivity.
  - intros Hown.
    unfold _calCharDimWithCache. rewrite Hinit. cbn [negb].
    unfold bind, asymmetricDifference, cachedOrMeasured. cbn [negb].
    fold (cacheName this text1). rewrite Hmiss, Hcontainer, Hown.
    eexists _, _. split; [reflexivity|].
    unfold cache_store, evict. rewrite Hkeys. cbn [app length].
    rewrite length_app. cbn [length].
    replace (length rest + 1) with (S (length rest)) by lia.
    rewrite Hfull. cbn.
    split; [reflexivity|]. split; [apply lookup_delete_eq|].
    rewrite lookup_delete_ne by (intros Heq; rewrite Heq, Hmiss in Hhit; discriminate).
    apply lookup_insert_eq.
  - intros Hown.
    unfold _calCharDimWithCache. rewrite Hinit. cbn [negb].
    unfold bind, asymmetricDifference, cachedOrMeasured. cbn [negb].
    fold (cacheName this text1). rewrite Hmiss, Hown. reflexivity.
Qed.

(** [eviction_ignores_reads] for a limit of one: [a] is cached, read, and
    evicted by [b]. *)
Lemma eviction_ignores_reads_witness :
  let this0 := manager_of (container_of mono_node 3) 1 false in
  let this := set_advanced {[ "a12pxArial"%string := CDim 1 10 ]}
                ["a12pxArial"%string] this0 in
  _calCharDimWithCache "a" false 0 this
    = Ret (Val {| Size.width := 1; Size.height := 10 |}) this
  ∧ ∃ size this1,
      _calCharDimWithCache "b" false 0 this = Ret (Val size) this1
      ∧ _advancedCacheKey this1 = ["b12pxArial"%string]
      ∧ _advancedCache this1 !! "a12pxArial"%string = None.
Proof.
  intros this0 this.
  destruct (eviction_ignores_reads "a" "b" this mono_node [] 1 10
              eq_refl eq_refl eq_refl eq_refl eq_refl eq_refl)
    as (Hread & Hevict & _).
  destruct (Hevict eq_refl) as (size & this1 & Hcall & Hk & Hgone & _).
  split; [exact Hread|]. exists size, this1.
  split; [exact Hcall|]. split; [exact Hk|exact Hgone].
Defined.

(** ** The detailed measure *)

Lemma js_max_ge (x y : Q) : (x <= js_max x y)%Q.
Proof.
  unfold js_max. destruct (Qle_bool x y) eqn:Hle.
  - by apply Qle_bool_iff.
  - apply Qle_refl.
Qed.

Lemma getOriSize_loop_detail (textArr : list string) (l : nat)
    (h c : Q) (store : gmap string Q) (this this' : Manager)
    (h' c' : Q) (store' : gmap string Q) :
  getOriSize_loop textArr l h c store this = Ret (h', c', store') this' →
  dom store' = dom store ∪ list_to_set textArr ∧ (h <= h')%Q.
Proof.
  revert h c store this.
  induction textArr as [|letter rest IH]; intros h c store this; cbn.
  - intros [= <- <- <- <-]. split; [|apply Qle_refl].
    cbn. rewrite (right_id_L ∅ (∪)). reflexivity.
  - unfold bind.
    destruct (_calCharDimWithCache letter true l this) as [[|s] m|e m|];
      try discriminate.
    intros Hloop. destruct (IH _ _ _ _ Hloop) as [Hdom Hh].
    split.
    + rewrite Hdom, dom_insert_L. cbn [list_to_set].
      rewrite (comm_L (∪) {[letter]} (dom store)), (assoc_L (∪)). reflexivity.
    + eapply Qle_trans; [apply js_max_ge|exact Hh].
Qed.

(** X13. What [getOriSize] returns with details: the detail object has one
    entry for each character that occurs in the text and no other, the
    height is not negative, and the width is a whole number. The basic
    cache is not touched. For the empty text the size is zero by zero, the
    detail object is empty and the manager is as it was. *)
Theorem getOriSize_detailed_result (text : string) (this this' : Manager)
    (o : OriSize.t)
    (Hcall : getOriSize text true this = Ret (Val o) this') :
  ∃ d,
    OriSize.detailObj o = Some d
    ∧ dom d = list_to_set (JS.split_chars text)
    ∧ (0 <= OriSize.height o)%Q
    ∧ (∃ z, OriSize.width o = inject_Z z)
    ∧ _cache this' = _cache this
    ∧ (text = ""%string →
       this' = this ∧ d = ∅ ∧ OriSize.width o = 0%Q ∧ OriSize.height o = 0%Q).
Proof.
  revert Hcall. unfold getOriSize.
  destruct (_init this); [|discriminate]. cbn [negb]. unfold bind.
  destruct (getOriSize_loop _ _ _ _ _ this) as [[[h c] st] m|e m|] eqn:Hloop;
    try discriminate.
  cbn. intros [= <- <-]. cbn.
  destruct (getOriSize_loop_detail _ _ _ _ _ _ _ _ _ _ Hloop) as [Hdom Hh].
  exists st. split; [reflexivity|].
  split; [rewrite Hdom, dom_empty_L, (left_id_L ∅ (∪)); reflexivity|].
  split; [exact Hh|].
  split; [eexists; reflexivity|].
  split; [exact (getOriSize_loop_basic_cache _ _ _ _ _ _ _ _ Hloop)|].
  intros ->. cbn in Hloop. injection Hloop as <- <- <- <-. repeat split.
Qed.

(** [getOriSize_detailed_result] on a text with a character that occurs
    twice. *)
Lemma getOriSize_detailed_result_witness :
  let this := manager_of (container_of kern_node 3) 500 false in
  ∃ o this' d,
    getOriSize "abca" true this = Ret (Val o) this'
    ∧ OriSize.detailObj o = Some d
    ∧ dom d = ({[ "a"; "b"; "c" ]} : gset string)%string.
Proof.
  intros this.
  destruct (getOriSize "abca" true this) as [[|o] this'|e m|] eqn:Hcall;
    [vm_compute in Hcall; discriminate| |vm_compute in Hcall; discriminate..].
  destruct (getOriSize_detailed_result "abca" this this' o Hcall)
    as (d & Hd & Hdom & _).
  exists o, this', d. split; [reflexivity|]. split; [exact Hd|].
  rewrite Hdom. apply (bool_decide_unpack _). vm_compute. exact I.
Defined.

(** ** The label returned *)

Section PlainEcho.

Variable L : Lib.
Variable getWidth : option string → Q.
Variable detailObj : option (gmap string Q).
Variable text_ : string.
Variables maxWidth_ maxHeight_ lineHeight_ : Q.
Variable context_ : bool.
Variable smartLabel : SmartLabel.

(** The plain-text part fills the text, the sizes and the tooltip, and
    leaves the other fields of [smartLabel] as they are; the tooltip it sets
    is the original text. *)
Lemma plainText_echo (showNoEllipses : bool) (ellipsesWidth_ dotWidth_ : Q)
    (noWrap : bool) (this this' : Manager) (r : SmartLabel) :
  plainText L getWidth detailObj text_ maxWidth_ maxHeight_ lineHeight_
    context_ smartLabel showNoEllipses ellipsesWidth_ dotWidth_ noWrap this
    = Ret r this' →
  oriText r = oriText smartLabel ∧ maxWidth r = maxWidth smartLabel
  ∧ maxHeight r = maxHeight smartLabel ∧ error r = error smartLabel
  ∧ (tooltext r = tooltext smartLabel ∨ tooltext r = Some (oriText smartLabel))
  ∧ (∃ w h, width r = Some w ∧ height r = Some h).
Proof.
  unfold plainText, bind.
  destruct (firstCharWidth getWidth text_ this) as [w this1|e m|] eqn:Hfirst;
    try discriminate.
  destruct (firstCharWidth_cache _ _ _ _ _ Hfirst) as (c0 & _ & _ & c1 & Hc1).
  destruct (ellipsis_budget _ _ _ _ _ _ _ _) as [[[tempArr mwe] ell]|].
  2:{ intros [= <- <-]. cbn. repeat split; [by left|]. eexists _, _. done. }
  destruct noWrap.
  - destruct (nowrap_loop_spec getWidth detailObj text_ maxWidth_ lineHeight_
                smartLabel mwe ell (len text_ - length tempArr) (length tempArr)
                tempArr (getWidth (Some (JS.join tempArr))) (Some ""%string)
                this1 c1 Hc1)
      as [this2 [[_ Hres]|(j & rj & trim & _ & _ & _ & Hres)]];
      rewrite Hres; intros [= <- <-]; cbn; repeat split;
      first [by left | by right | eexists _, _; done].
  - intros Hloop.
    destruct (wrap_loop_result _ _ _ _ _ _ _ _ _ _ _ _ _ _ _ _ Hloop)
      as [(st' & -> & _)|(trim & sh & -> & _ & _)];
      cbn; repeat split; first [by left | by right | eexists _, _; done].
Qed.

End PlainEcho.

(** X14. The label [getSmartText] returns echoes the call: [oriText] is the
    text as converted to a string, [maxWidth] and [maxHeight] are the bounds
    as given (the height as given even when the bound in force was
    enlarged), and the tooltip, when there is one, is the original text.
    Either the label has no error and carries a width and a height, or the
    manager has no container: then the error is set, the text is the text
    given, the sizes are still null and the manager is untouched. *)
Theorem label_echoes_the_call (L : Lib) (text_arg : jsval) (mw mh : Q)
    (noWrap : bool) (this this' : Manager) (sl : SmartLabel)
    (Hret : getSmartText L text_arg mw mh noWrap this = Ret (Val sl) this') :
  oriText sl = text_of_arg text_arg
  ∧ maxWidth sl = mw ∧ maxHeight sl = mh
  ∧ (tooltext sl = None ∨ tooltext sl = Some (text_of_arg text_arg))
  ∧ ((error sl = None ∧ _container this ≠ None
      ∧ ∃ w h, width sl = Some w ∧ height sl = Some h)
     ∨ (error sl = Some "Body Tag Missing!"%string ∧ _container this = None
        ∧ text sl = text_of_arg text_arg
        ∧ width sl = None ∧ height sl = None
        ∧ oriTextWidth sl = None ∧ oriTextHeight sl = None
        ∧ this' = this)).
Proof.
  destruct (getSmartText_inv _ _ _ _ _ _ _ _ Hret)
    as [Hinit [[Hnone ->]|(sCont & container & lh & hasTag & ori & this1
                        & HsCont & Hcont & Hlh & Hori)]].
  { cbn. repeat split; [by left|]. right. repeat split; [exact Hnone|].
    revert Hret. unfold getSmartText. rewrite Hinit, Hnone. cbn.
    destruct (_containerObj this); [|discriminate]. intros [= <-]. reflexivity. }
  rewrite (getSmartText_measured _ _ _ _ _ _ _ _ _ _ _ _ Hinit HsCont Hcont Hlh Hori)
    in Hret.
  assert (Hcase : ∀ P : Prop,
            (error sl = None ∧ ∃ w h, width sl = Some w ∧ height sl = Some h) →
            (error sl = None ∧ _container this ≠ None
             ∧ ∃ w h, width sl = Some w ∧ height sl = Some h) ∨ P).
  { intros P [He Hwh]. left. split; [exact He|]. split; [|exact Hwh].
    rewrite Hcont. discriminate. }
  destruct (fits ori mw _) eqn:Hfits.
  { injection Hret as <- _. destruct ori as [[[ow oh] d]|]; [|discriminate].
    cbn. repeat split; [by left|]. apply Hcase. split; [done|]. eexists _, _. done. }
  destruct (negb (isBrowserLess L) && Qgtb lh _).
  { injection Hret as <- _. destruct ori as [[[ow oh] d]|];
      cbn; (repeat split; [by left|]); apply Hcase; (split; [done|]);
      eexists _, _; done. }
  destruct hasTag; [discriminate|].
  destruct (plainText _ _ _ _ _ _ _ _ _ _ _ _ _ this1) as [r this2|e m|] eqn:Hplain;
    try discriminate.
  injection Hret as <- _.
  destruct (plainText_echo _ _ _ _ _ _ _ _ _ _ _ _ _ _ _ _ Hplain)
    as (Ho & Hw & Hh & He & Ht & Hwh).
  rewrite Ho, Hw, Hh.
  assert (Hm : ∀ s, oriText (measuredLabel ori s) = oriText s
                    ∧ maxWidth (measuredLabel ori s) = maxWidth s
                    ∧ maxHeight (measuredLabel ori s) = maxHeight s
                    ∧ error (measuredLabel ori s) = error s
                    ∧ tooltext (measuredLabel ori s) = tooltext s).
  { intros s. destruct ori as [[[ow oh] d]|]; repeat split. }
  destruct (Hm (initialLabel (text_of_arg text_arg) mw mh))
    as (-> & -> & -> & He' & Ht').
  cbn. repeat split.
  - rewrite Ht' in Ht. destruct Ht as [Ht|Ht]; [by left|].
    right. rewrite Ht. cbn. destruct ori as [[[ow oh] d]|]; reflexivity.
  - apply Hcase. split; [|exact Hwh]. rewrite He, He'. reflexivity.
Qed.

(** [label_echoes_the_call] on a number, truncated in a box five wide. *)
Lemma label_echoes_the_call_witness :
  let L := lib_of (fun _ _ _ => 0%Z) in
  let this := manager_of (container_of tall_node 3) 500 false in
  ∃ sl this',
    getSmartText L (JNum 1234567) 5 10 true this = Ret (Val sl) this'
    ∧ oriText sl = "1234567"%string
    ∧ maxHeight sl = 10%Q
    ∧ tooltext sl = Some "1234567"%string.
Proof.
  intros L this.
  destruct (getSmartText L (JNum 1234567) 5 10 true this)
    as [[|sl] this'|e m|] eqn:Hret;
    [vm_compute in Hret; discriminate| |vm_compute in Hret; discriminate..].
  destruct (label_echoes_the_call L (JNum 1234567) 5 10 true this this' sl Hret)
    as (Ho & _ & Hh & Ht & _).
  exists sl, this'. split; [reflexivity|]. split; [exact Ho|]. split; [exact Hh|].
  destruct Ht as [Ht|Ht]; [|exact Ht].
  exfalso. vm_compute in Hret. injection Hret as <- _. discriminate.
Defined.

(** ** The empty text *)

(** X15. A text that converts to the empty string ([undefined], [null], the
    empty string, an empty array) in a box whose bounds are not negative, on
    a manager that can measure in a document with layout support: the
    method returns the empty text with a width and a height of zero, no
    tooltip and no error, and neither measures nor caches anything. *)
Theorem empty_text_is_returned_empty (L : Lib) (text_arg : jsval) (mw mh : Q)
    (noWrap : bool) (this : Manager) (sCont : ContainerObj)
    (container : Node) (lh : Q)
    (Hempty : text_of_arg text_arg = ""%string)
    (Hinit : _init this = true)
    (HsCont : _containerObj this = Some sCont)
    (Hcont : _container this = Some container)
    (Hlh : _lineHeight this = Some lh)
    (Hsupport : isBrowserLess L = false)
    (Htag : xmlTagRegEx_test L "" = false)
    (Hentity : ltgtRegex_replace L "" = ""%string)
    (Hw : (0 <= mw)%Q) (Hh : (0 <= mh)%Q) :
  ∃ sl,
    getSmartText L text_arg mw mh noWrap this = Ret (Val sl) this
    ∧ text sl = ""%string ∧ oriText sl = ""%string
    ∧ width sl = Some 0%Q ∧ height sl = Some 0%Q
    ∧ oriTextWidth sl = Some 0%Q ∧ oriTextHeight sl = Some 0%Q
    ∧ tooltext sl = None ∧ error sl = None.
Proof.
  assert (Hori : originalSize L container (text_of_arg text_arg) this
                 = Ret (false, Some (0%Q, 0%Q, Some ∅)) this).
  { unfold originalSize. rewrite Hempty, Hsupport, Htag, Hentity.
    unfold bind, getOriSize. rewrite Hinit. reflexivity. }
  rewrite (getSmartText_measured _ _ _ _ _ _ _ _ _ _ _ _ Hinit HsCont Hcont Hlh Hori).
  assert (Hfits : fits (Some (0%Q, 0%Q, Some (∅ : gmap string Q))) mw
                    (effectiveMaxHeight mh lh) = true).
  { cbn. apply andb_true_intro. split; apply Qle_bool_iff; [|exact Hw].
    unfold effectiveMaxHeight. destruct (Qeq_bool mh lh); [|exact Hh].
    apply Qmult_le_0_compat; [exact Hh|discriminate]. }
  rewrite Hfits, Hempty. eexists. split; [reflexivity|]. repeat split.
Qed.

(** [empty_text_is_returned_empty] on [undefined] in a box of zero by zero
    and on an empty array. *)
Lemma empty_text_is_returned_empty_witness :
  let L := lib_of (fun _ _ _ => 0%Z) in
  let co := container_of mono_node 3 in
  let this := manager_of co 500 false in
  (∃ sl, getSmartText L JUndefined 0 0 false this = Ret (Val sl) this
         ∧ text sl = ""%string ∧ width sl = Some 0%Q)
  ∧ (∃ sl, getSmartText L (JArr []) 50 20 true this = Ret (Val sl) this
           ∧ text sl = ""%string ∧ width sl = Some 0%Q).
Proof.
  intros L co this. split.
  - destruct (empty_text_is_returned_empty L JUndefined 0 0 false this co
                mono_node 10 eq_refl eq_refl eq_refl eq_refl eq_refl eq_refl
                eq_refl eq_refl ltac:(discriminate) ltac:(discriminate))
      as (sl & Hret & Ht & _ & Hw & _).
    exists sl. split; [exact Hret|]. split; [exact Ht|exact Hw].
  - destruct (empty_text_is_returned_empty L (JArr []) 50 20 true this co
                mono_node 10 eq_refl eq_refl eq_refl eq_refl eq_refl eq_refl
                eq_refl eq_refl ltac:(discriminate) ltac:(discriminate))
      as (sl & Hret & Ht & _ & Hw & _).
    exists sl. split; [exact Hret|]. split; [exact Ht|exact Hw].
Defined.

(** ** The text of a result on one line *)

Lemma join_cons (x : string) (l : list string) :
  JS.join (x :: l) = (x +:+ JS.join l)%string.
Proof.
  unfold JS.join. destruct l as [|y l]; cbn [concat].
  - rewrite str_app_nil_r. reflexivity.
  - reflexivity.
Qed.

Lemma join_split_chars (s : string) : JS.join (JS.split_chars s) = s.
Proof.
  induction s as [|c s IH]; [reflexivity|].
  cbn [JS.split_chars]. rewrite join_cons, IH. reflexivity.
Qed.

Lemma length_split_chars (s : string) :
  length (JS.split_chars s) = String.length s.
Proof. induction s as [|c s IH]; [reflexivity|]. cbn. rewrite IH. reflexivity. Qed.

Lemma split_chars_substring (m : nat) (s : string) :
  JS.split_chars (String.substring 0 m s) = take m (JS.split_chars s).
Proof.
  revert s. induction m as [|m IH]; intros s.
  - destruct s; reflexivity.
  - destruct s as [|c s]; [reflexivity|]. cbn. rewrite IH. reflexivity.
Qed.

Lemma join_take_split_chars (k : nat) (s : string) :
  JS.join (take k (JS.split_chars s)) = String.substring 0 k s.
Proof.
  rewrite <- split_chars_substring. apply join_split_chars.
Qed.

Lemma slice_all_but_last {A} (a : list A) :
  JS.slice a 0 (-1) = take (length a - 1) a.
Proof.
  unfold JS.slice. cbn [Z.ltb Z.compare].
  replace (Z.min 0 (Z.of_nat (length a))) with 0%Z by lia.
  cbn [Z.to_nat drop]. f_equal. lia.
Qed.

Section NoWrapText.

Variable getWidth : option string → Q.
Variable detailObj : option (gmap string Q).
Variable text_ : string.
Variables maxWidth_ lineHeight_ : Q.
Variable smartLabel : SmartLabel.
Variable maxWidthWithEll : Q.
Variable ellipsesStr : string.

Lemma array_set_next (i : nat) :
  i < len text_ →
  JS.array_set (take i (oriTextArr text_)) i (oriTextArr_at text_ i)
  = take (S i) (oriTextArr text_).
Proof.
  intros Hi. unfold JS.array_set, len in *.
  rewrite length_take, Nat.min_l by lia. rewrite Nat.ltb_irrefl, Nat.sub_diag.
  cbn [replicate app]. unfold oriTextArr_at.
  destruct (lookup_lt_is_Some_2 (oriTextArr text_) i Hi) as [x Hx].
  rewrite Hx. cbn. symmetry. by apply take_S_r.
Qed.

(** The text the loop returns: every character, or a prefix that stops
    before the last character, trimmed and followed by the ellipsis. *)
Lemma nowrap_loop_text (n i k : nat) (strWidth : Q) (this this' : Manager)
    (sl : SmartLabel) :
  i + n = len text_ → k ≤ i →
  nowrap_loop getWidth detailObj text_ maxWidth_ lineHeight_ smartLabel
    maxWidthWithEll ellipsesStr n i (take i (oriTextArr text_)) strWidth
    (Some (JS.join (take k (oriTextArr text_)))) this = Ret sl this' →
  (text sl = text_ ∧ tooltext sl = tooltext smartLabel)
  ∨ (∃ k', k' < len text_
           ∧ text sl = (JS.fastTrim (String.substring 0 k' text_)
                        +:+ ellipsesStr)%string
           ∧ tooltext sl = Some (oriText smartLabel)).
Proof.
  revert i k strWidth this.
  induction n as [|n IH]; intros i k strWidth this Hlen Hk; cbn [nowrap_loop].
  - intros [= <- <-]. left. cbn. split; [|reflexivity].
    rewrite take_ge by (unfold len in Hlen; lia). apply join_split_chars.
  - unfold bind.
    destruct (charWidth getWidth detailObj (oriTextArr_at text_ i) this)
      as [w m|e m|]; try discriminate.
    rewrite array_set_next by lia.
    assert (Htrim : ∃ k', k' ≤ i
              ∧ set_trimStr (Some (JS.join (take k (oriTextArr text_))))
                  (take (S i) (oriTextArr text_))
                = JS.join (take k' (oriTextArr text_))).
    { unfold set_trimStr.
      destruct (JS.join (take k (oriTextArr text_))) eqn:Hj.
      - exists i. split; [lia|]. rewrite slice_all_but_last.
        rewrite length_take, Nat.min_l by (unfold len in Hlen; lia).
        rewrite take_take. f_equal. f_equal. lia.
      - exists k. split; [lia|]. exact (eq_sym Hj). }
    destruct Htrim as (k' & Hk' & ->).
    destruct (Qgtb _ maxWidthWithEll).
    + destruct (Qgtb _ maxWidth_).
      * intros [= <- <-]. right. exists k'. split; [lia|]. cbn.
        rewrite join_take_split_chars. split; reflexivity.
      * apply (IH (S i) k'); lia.
    + apply (IH (S i) k); lia.
Qed.

End NoWrapText.

(** The ellipsis the budget settles on. *)
Lemma ellipsis_budget_ellipsis (L : Lib) (text_ : string) (maxWidth_ : Q)
    (showNoEllipses : bool) (ellipsesWidth_ dotWidth_ minWidth : Q)
    (this : Manager) (tempArr : list string) (mwe : Q) (ell : string) :
  ellipsis_budget L text_ maxWidth_ showNoEllipses ellipsesWidth_ dotWidth_
    minWidth this = Some (tempArr, mwe, ell) →
  ell ∈ ["..."; ".."; "."; ""]%string
  ∧ (showNoEllipses = true → ell = ""%string)
  ∧ ∃ m, tempArr = take m (oriTextArr text_).
Proof.
  unfold ellipsis_budget.
  destruct (Qgtb _ minWidth).
  { intros [= <- <- <-]. split; [|split].
    - destruct showNoEllipses; repeat constructor.
    - intros ->. reflexivity.
    - eexists. apply split_chars_substring. }
  destruct (Qgtb minWidth maxWidth_); [discriminate|].
  destruct showNoEllipses; cbn.
  { intros [= <- <- <-]. split; [repeat constructor|].
    split; [done|]. exists 0. reflexivity. }
  destruct (Qgtb _ minWidth).
  { intros [= <- <- <-]. split; [repeat constructor|].
    split; [done|]. exists 0. reflexivity. }
  destruct (Qgtb _ minWidth); intros [= <- <- <-];
    (split; [repeat constructor|]); (split; [done|]); exists 0; reflexivity.
Qed.

(** X16. On one line ([noWrap]), the text returned is never made up: it is
    the text as given (when it fits as it is, or when there is no
    container), the empty text (when nothing fits), the text with its white
    space normalised, or a prefix of the normalised text that stops before
    its last character, trimmed and followed by the ellipsis: three dots,
    two, one or none, and none when the ellipsis is disabled. In the last
    case the tooltip is the text given. This holds whatever the break index
    of the library returns. *)
Theorem nowrap_text_is_a_prefix (L : Lib) (text_arg : jsval) (mw mh : Q)
    (this this' : Manager) (sl : SmartLabel)
    (Hret : getSmartText L text_arg mw mh true this = Ret (Val sl) this') :
  let given := text_of_arg text_arg in
  let normal := normalise given in
  text sl = given
  ∨ text sl = ""%string
  ∨ (text sl = normal ∧ tooltext sl = None)
  ∨ ∃ k ell,
      k < String.length normal
      ∧ text sl = (JS.fastTrim (String.substring 0 k normal) +:+ ell)%string
      ∧ tooltext sl = Some given
      ∧ ell ∈ ["..."; ".."; "."; ""]%string
      ∧ (default false (_showNoEllipses this) = true → ell = ""%string).
Proof.
  intros given normal.
  destruct (getSmartText_inv _ _ _ _ _ _ _ _ Hret)
    as [Hinit [[Hnone ->]|(sCont & container & lh & hasTag & ori & this1
                        & HsCont & Hcont & Hlh & Hori)]]; [by left|].
  rewrite (getSmartText_measured _ _ _ _ _ _ _ _ _ _ _ _ Hinit HsCont Hcont Hlh Hori)
    in Hret.
  destruct (fits ori mw _).
  { injection Hret as <- _. left. destruct ori as [[[ow oh] d]|]; reflexivity. }
  destruct (negb (isBrowserLess L) && Qgtb lh _).
  { injection Hret as <- _. right. left.
    destruct ori as [[[ow oh] d]|]; reflexivity. }
  destruct hasTag; [discriminate|].
  destruct (plainText _ _ _ _ _ _ _ _ _ _ _ _ _ this1) as [r this2|e m|] eqn:Hplain;
    try discriminate.
  injection Hret as <- _. fold given normal in Hplain.
  revert Hplain. unfold plainText, bind.
  destruct (firstCharWidth _ normal this1) as [w m|e m|]; try discriminate.
  destruct (ellipsis_budget _ _ _ _ _ _ _ _) as [[[tempArr mwe] ell]|] eqn:Hbudget.
  2:{ intros [= <- <-]. right. left.
      destruct ori as [[[ow oh] d]|]; reflexivity. }
  destruct (ellipsis_budget_ellipsis _ _ _ _ _ _ _ _ _ _ _ Hbudget)
    as (Hell & Hnoell & m0 & ->).
  set (i := length (take m0 (oriTextArr normal))).
  assert (Hi : i ≤ len normal)
    by (unfold i, len; rewrite length_take; lia).
  assert (Htake : take m0 (oriTextArr normal) = take i (oriTextArr normal)).
  { unfold i. rewrite length_take.
    destruct (Nat.le_ge_cases m0 (length (oriTextArr normal))) as [Hle|Hge].
    - rewrite Nat.min_l by lia. reflexivity.
    - rewrite Nat.min_r by lia. rewrite !take_ge by lia. reflexivity. }
  rewrite Htake at 1.
  change (Some ""%string) with (Some (JS.join (take 0 (oriTextArr normal)))).
  intros Hloop.
  eapply (nowrap_loop_text _ _ _ _ _ _ _ _ (len normal - i) i 0) in Hloop;
    [|lia|lia].
  destruct Hloop as [[Htext Htool]|(k' & Hk' & Htext & Htool)].
  - right. right. left. split; [exact Htext|].
    rewrite Htool. destruct ori as [[[ow oh] d]|]; reflexivity.
  - right. right. right. exists k', ell.
    split; [unfold len, oriTextArr in Hk'; rewrite length_split_chars in Hk'; exact Hk'|].
    split; [exact Htext|].
    split; [rewrite Htool; destruct ori as [[[ow oh] d]|]; reflexivity|].
    split; [exact Hell|exact Hnoell].
Qed.

(** [nowrap_text_is_a_prefix] on a text with white space to normalise. *)
Lemma nowrap_text_is_a_prefix_witness :
  let L := lib_of (fun _ _ _ => 3%Z) in
  let this := manager_of (container_of mono_node 3) 500 false in
  ∃ sl this',
    getSmartText L (JStr "  Hello   wide World ") (17 # 2) 100 true this
      = Ret (Val sl) this'
    ∧ text sl = "Hello..."%string
    ∧ ∃ k ell,
        k < 16
        ∧ text sl = (JS.fastTrim (String.substring 0 k "Hello wide World")
                     +:+ ell)%string.
Proof.
  intros L this.
  destruct (getSmartText L (JStr "  Hello   wide World ") (17 # 2) 100 true this)
    as [[|sl] this'|e m|] eqn:Hret;
    [vm_compute in Hret; discriminate| |vm_compute in Hret; discriminate..].
  assert (Htext : text sl = "Hello..."%string).
  { pose proof Hret as Hc. vm_compute in Hc. injection Hc as <- _. reflexivity. }
  exists sl, this'. split; [reflexivity|]. split; [exact Htext|].
  destruct (nowrap_text_is_a_prefix L _ _ _ this this' sl Hret)
    as [H|[H|[[H _]|(k & ell & Hk & Hpre & _)]]];
    try (rewrite Htext in H; discriminate).
  exists k, ell. split; [exact Hk|exact Hpre].
Defined.

(** ** The text the loops work on *)

Lemma drop_ws_starts (s : string) : starts_ws (JS.drop_ws s) = false.
Proof.
  induction s as [|c s IH]; [reflexivity|]. cbn [JS.drop_ws].
  destruct (JS.is_ws c) eqn:Hc; [exact IH|]. cbn. exact Hc.
Qed.

Lemma drop_ws_end_ends (s : string) : ends_ws (JS.drop_ws_end s) = false.
Proof.
  induction s as [|c s IH]; [reflexivity|]. cbn [JS.drop_ws_end].
  destruct (JS.drop_ws_end s) as [|d r] eqn:Hr.
  - destruct (JS.is_ws c) eqn:Hc; [reflexivity|]. cbn. exact Hc.
  - exact IH.
Qed.

Lemma drop_ws_end_starts (s : string) :
  starts_ws s = false → starts_ws (JS.drop_ws_end s) = false.
Proof.
  destruct s as [|c s]; [reflexivity|]. cbn [starts_ws JS.drop_ws_end].
  intros Hc. destruct (JS.drop_ws_end s); [rewrite Hc|]; cbn; exact Hc.
Qed.

Lemma collapse_starts (b : bool) (s : string) :
  starts_ws s = false → starts_ws (JS.collapse_ws_from b s) = false.
Proof.
  destruct s as [|c s]; [reflexivity|]. cbn [starts_ws JS.collapse_ws_from].
  intros Hc. rewrite Hc. cbn. exact Hc.
Qed.

Lemma collapse_nonempty (b : bool) (s : string) :
  s ≠ ""%string → ends_ws s = false → JS.collapse_ws_from b s ≠ ""%string.
Proof.
  revert b. induction s as [|c s IH]; intros b Hne Hend; [done|].
  cbn [JS.collapse_ws_from].
  destruct (JS.is_ws c) eqn:Hc; [|discriminate].
  destruct s as [|d s]; [cbn in Hend; congruence|].
  assert (Hrest : JS.collapse_ws_from true (String d s) ≠ ""%string)
    by (apply IH; [discriminate|exact Hend]).
  destruct b; [exact Hrest|discriminate].
Qed.

Lemma ends_ws_cons (c : ascii) (s : string) :
  s ≠ ""%string → ends_ws (String c s) = ends_ws s.
Proof. destruct s; [done|reflexivity]. Qed.

Lemma collapse_ends (b : bool) (s : string) :
  ends_ws s = false → ends_ws (JS.collapse_ws_from b s) = false.
Proof.
  revert b. induction s as [|c s IH]; intros b Hend; [reflexivity|].
  cbn [JS.collapse_ws_from].
  destruct s as [|d s].
  - cbn in Hend. rewrite Hend. cbn. exact Hend.
  - assert (Hend' : ends_ws (String d s) = false) by exact Hend.
    assert (Hne : ∀ b', JS.collapse_ws_from b' (String d s) ≠ ""%string)
      by (intros b'; apply collapse_nonempty; [discriminate|exact Hend']).
    destruct (JS.is_ws c).
    + destruct b; [by apply IH|].
      rewrite ends_ws_cons by apply Hne. by apply IH.
    + rewrite ends_ws_cons by apply Hne. by apply IH.
Qed.

Lemma collapse_single_spaced (b : bool) (s : string) :
  single_spaced b (JS.collapse_ws_from b s) = true.
Proof.
  revert b. induction s as [|c s IH]; intros b; [reflexivity|].
  cbn [JS.collapse_ws_from]. destruct (JS.is_ws c) eqn:Hc.
  - destruct b; [apply IH|]. cbn. apply IH.
  - cbn [single_spaced]. rewrite Hc. apply IH.
Qed.

Lemma drop_ws_id (s : string) : starts_ws s = false → JS.drop_ws s = s.
Proof.
  destruct s as [|c s]; [reflexivity|]. cbn. intros ->. reflexivity.
Qed.

Lemma drop_ws_end_id (s : string) : ends_ws s = false → JS.drop_ws_end s = s.
Proof.
  induction s as [|c s IH]; [reflexivity|]. intros Hend.
  cbn [JS.drop_ws_end]. destruct s as [|d s].
  - cbn in *. rewrite Hend. reflexivity.
  - rewrite IH by exact Hend. reflexivity.
Qed.

Lemma collapse_id (b : bool) (s : string) :
  single_spaced b s = true → JS.collapse_ws_from b s = s.
Proof.
  revert b. induction s as [|c s IH]; intros b; [reflexivity|].
  cbn [single_spaced JS.collapse_ws_from].
  destruct (JS.is_ws c).
  - intros H. apply andb_prop in H as [H Hs]. apply andb_prop in H as [Hsp Hb].
    apply Ascii.eqb_eq in Hsp as ->. destruct b; [discriminate|].
    rewrite (IH true Hs). reflexivity.
  - intros H. rewrite (IH false H). reflexivity.
Qed.

Lemma non_ws_drop_ws (s : string) : non_ws (JS.drop_ws s) = non_ws s.
Proof.
  induction s as [|c s IH]; [reflexivity|]. cbn [JS.drop_ws non_ws].
  destruct (JS.is_ws c) eqn:Hc; [exact IH|]. cbn. rewrite Hc. reflexivity.
Qed.

Lemma non_ws_drop_ws_end (s : string) : non_ws (JS.drop_ws_end s) = non_ws s.
Proof.
  induction s as [|c s IH]; [reflexivity|]. cbn [JS.drop_ws_end non_ws].
  destruct (JS.drop_ws_end s) as [|d r] eqn:Hr.
  - rewrite <- IH. destruct (JS.is_ws c) eqn:Hc; cbn; [reflexivity|].
    rewrite Hc. reflexivity.
  - cbn [non_ws]. rewrite <- IH. reflexivity.
Qed.

Lemma non_ws_collapse (b : bool) (s : string) :
  non_ws (JS.collapse_ws_from b s) = non_ws s.
Proof.
  revert b. induction s as [|c s IH]; intros b; [reflexivity|].
  cbn [JS.collapse_ws_from non_ws]. destruct (JS.is_ws c) eqn:Hc.
  - destruct b; [apply IH|]. cbn. apply IH.
  - cbn [non_ws]. rewrite Hc, IH. reflexivity.
Qed.

(** X17. The text the loops of [getSmartText] read, [fastTrim(text)] with
    every run of white space replaced by one space: it neither starts nor
    ends with white space, its white space is single spaces, the characters
    that are not white space are those of the text in the same order, and
    trimming or normalising it again changes nothing. *)
Theorem normalise_spec (s : string) :
  let t := normalise s in
  starts_ws t = false ∧ ends_ws t = false
  ∧ single_spaced false t = true
  ∧ non_ws t = non_ws s
  ∧ JS.fastTrim t = t
  ∧ normalise t = t.
Proof.
  intros t.
  assert (Hs : starts_ws t = false).
  { apply collapse_starts, drop_ws_end_starts, drop_ws_starts. }
  assert (He : ends_ws t = false) by apply collapse_ends, drop_ws_end_ends.
  assert (Hsp : single_spaced false t = true) by apply collapse_single_spaced.
  assert (Htrim : JS.fastTrim t = t).
  { unfold JS.fastTrim. rewrite (drop_ws_id t Hs). exact (drop_ws_end_id t He). }
  split; [exact Hs|]. split; [exact He|]. split; [exact Hsp|].
  split; [|split; [exact Htrim|]].
  - unfold t, normalise, JS.collapse_ws, JS.fastTrim.
    rewrite non_ws_collapse, non_ws_drop_ws_end, non_ws_drop_ws. reflexivity.
  - unfold normalise at 1. rewrite Htrim. exact (collapse_id false t Hsp).
Qed.

(** ** The constructor *)

(** [setStyle()] as the constructor calls it: it returns. *)
Lemma setStyle_initialised (D : SmartLabelManager.Document) (L : Lib)
    (style_ref : nat) (key : string)
    (container : SmartLabelManager.container_arg) (useEllipses : bool)
    (limit : option Q) :
  let this0 := SmartLabelManager.initialised D style_ref key container
                 useEllipses limit in
  ∃ this,
    setStyle L None this0 = Ret RThis this
    ∧ _init this = true ∧ id this = Some key
    ∧ _showNoEllipses this = Some (negb useEllipses)
    ∧ maxCacheLimit this
      = default (SmartLabelManager.maxDefaultCacheLimit D) limit
    ∧ _advancedCache this = ∅ ∧ _advancedCacheKey this = []
    ∧ _containerManager this = _containerManager this0
    ∧ (_styleNotSet this = true ↔ _containerObj this = None)
    ∧ (∀ co, _containerObj this = Some co →
             _container this = node co ∧ _cache this = Some (charCache co)
             ∧ _lineHeight this = Some (lineHeight co)).
Proof.
  intros this0. unfold setStyle. cbn.
  destruct (ContainerManager.get _ _) as [co|]; eexists;
    (split; [reflexivity|]); cbn; do 7 (split; [reflexivity|]); split.
  - split; discriminate.
  - intros co' [= <-]. repeat split.
  - split; reflexivity.
  - discriminate.
Qed.

(** X18. Without an id ([undefined], [null] or an object) the constructor
    returns at once: nothing is registered in the store, no other instance
    changes, and the object [new] returns is not initialised, so that every
    method of it returns [false] or the object and does nothing. *)
Theorem new_without_id (D : SmartLabelManager.Document) (L : Lib)
    (style_ref : nat) (id_arg : jsval)
    (container : SmartLabelManager.container_arg) (useEllipses : bool)
    (limit : option Q) (w : SmartLabelManager.World)
    (Hid : SmartLabelManager.no_id id_arg = true) :
  ∃ l m,
    SmartLabelManager.new D L style_ref id_arg container useEllipses limit w
    = SmartLabelManager.Created l
        {| SmartLabelManager.store := SmartLabelManager.store w;
           SmartLabelManager.instances :=
             <[l := m]> (SmartLabelManager.instances w) |}
    ∧ SmartLabelManager.instances w !! l = None
    ∧ _init m = false
    ∧ (∀ L' text mw mh noWrap,
         getSmartText L' text mw mh noWrap m = Ret IsFalse m)
    ∧ (∀ text detailed, getOriSize text detailed m = Ret IsFalse m)
    ∧ (∀ L' st, setStyle L' st m = Ret RThis m)
    ∧ (∀ b, useEllipsesOnOverflow b m = Ret RThis m)
    ∧ dispose m = Ret RThis m.
Proof.
  unfold SmartLabelManager.new. rewrite Hid.
  eexists _, _. split; [reflexivity|].
  split; [apply not_elem_of_dom, is_fresh|].
  repeat split.
Qed.

(** [new_without_id] on [null]. *)
Lemma new_without_id_witness :
  let D := document_of mono_node (container_of mono_node 3) in
  let L := lib_of (fun _ _ _ => 0%Z) in
  ∃ l m,
    SmartLabelManager.new D L 0 JNull SmartLabelManager.NoContainer true None
      empty_world
    = SmartLabelManager.Created l
        {| SmartLabelManager.store := ∅;
           SmartLabelManager.instances := <[l := m]> ∅ |}
    ∧ getSmartText L (JStr "Hello") 100 100 false m = Ret IsFalse m.
Proof.
  intros D L.
  destruct (new_without_id D L 0 JNull SmartLabelManager.NoContainer true None
              empty_world eq_refl) as (l & m & Hnew & _ & _ & Hget & _).
  exists l, m. split; [exact Hnew|apply Hget].
Defined.

(** X19. With an id that is a string, a number or a boolean (and not a name
    every object inherits), the constructor registers the new instance
    under the id as a property name and returns it initialised: the
    ellipsis setting is the negation of [useEllipses], the limit of the
    cache is the finite number given or else the default of the library,
    both caches of measures are empty, and the style is set or marked as
    not set according to what the container manager handed out. The
    instance registered before under that name is disposed in place; every
    other instance is left as it was. *)
Theorem new_registers_the_instance (D : SmartLabelManager.Document) (L : Lib)
    (style_ref : nat) (id_arg : jsval)
    (container : SmartLabelManager.container_arg) (useEllipses : bool)
    (limit : option Q) (w : SmartLabelManager.World)
    (Hid : SmartLabelManager.no_id id_arg = false)
    (Hown : inherited (js_toString id_arg) = false) :
  let key := js_toString id_arg in
  ∃ l this w',
    SmartLabelManager.new D L style_ref id_arg container useEllipses limit w
    = SmartLabelManager.Created l w'
    ∧ SmartLabelManager.instances w !! l = None
    ∧ SmartLabelManager.store w' = <[key := l]> (SmartLabelManager.store w)
    ∧ SmartLabelManager.instances w' !! l = Some this
    ∧ _init this = true
    ∧ _showNoEllipses this = Some (negb useEllipses)
    ∧ maxCacheLimit this
      = default (SmartLabelManager.maxDefaultCacheLimit D) limit
    ∧ _advancedCache this = ∅ ∧ _advancedCacheKey this = []
    ∧ (_styleNotSet this = true ↔ _containerObj this = None)
    ∧ (∀ l0 prev,
         SmartLabelManager.store w !! key = Some l0 →
         SmartLabelManager.instances w !! l0 = Some prev →
         ∃ prev', dispose prev = Ret RThis prev'
                  ∧ SmartLabelManager.instances w' !! l0 = Some prev')
    ∧ (∀ l', l' ≠ l → SmartLabelManager.store w !! key ≠ Some l' →
             SmartLabelManager.instances w' !! l'
             = SmartLabelManager.instances w !! l').
Proof.
  intros key. unfold SmartLabelManager.new. rewrite Hid, Hown. fold key.
  set (l := fresh (dom (SmartLabelManager.instances w))).
  assert (Hl : SmartLabelManager.instances w !! l = None)
    by apply not_elem_of_dom, is_fresh.
  destruct (setStyle_initialised D L style_ref key container useEllipses limit)
    as (this & -> & Hi & _ & Hs & Hm & Hc & Hk & _ & Hns & _).
  eexists l, this, _. split; [reflexivity|]. split; [exact Hl|].
  cbn [SmartLabelManager.store SmartLabelManager.instances].
  split; [reflexivity|]. split; [apply lookup_insert_eq|].
  do 6 (split; [assumption|]). split.
  - intros l0 prev Hstore Hprev. rewrite Hstore.
    assert (Hne : l0 ≠ l) by (intros ->; congruence).
    rewrite lookup_insert_ne by done.
    rewrite lookup_alter_eq, Hprev. cbn.
    unfold dispose. destruct (_init prev); eexists; split; reflexivity.
  - intros l' Hne Hother. rewrite lookup_insert_ne by done.
    destruct (SmartLabelManager.store w !! key) as [l0|]; [|reflexivity].
    apply lookup_alter_ne. congruence.
Qed.

(** [new_registers_the_instance] on the id [7] with a limit of twenty. *)
Lemma new_registers_the_instance_witness :
  let co := container_of mono_node 3 in
  let D := document_of mono_node co in
  let L := lib_of (fun _ _ _ => 0%Z) in
  ∃ l this w',
    SmartLabelManager.new D L 0 (JNum 7) SmartLabelManager.NoContainer true
      (Some (20 : Q)) empty_world = SmartLabelManager.Created l w'
    ∧ SmartLabelManager.store w' = {[ "7"%string := l ]}
    ∧ SmartLabelManager.instances w' !! l = Some this
    ∧ _init this = true ∧ _showNoEllipses this = Some false
    ∧ maxCacheLimit this = 20%Q.
Proof.
  intros co D L.
  destruct (new_registers_the_instance D L 0 (JNum 7)
              SmartLabelManager.NoContainer true (Some (20 : Q)) empty_world
              eq_refl eq_refl)
    as (l & this & w' & Hnew & _ & Hstore & Hinst & Hi & Hs & Hm & _).
  exists l, this, w'. split; [exact Hnew|]. split; [exact Hstore|].
  split; [exact Hinst|]. split; [exact Hi|]. split; [exact Hs|exact Hm].
Defined.

(** X20. Two instances made one after the other with ids that are the same
    property name (the same string, or a number and its decimal writing):
    the store holds the second, and the first has been disposed. The first
    still passes the guard on [_init], has lost its container, its
    container manager and its basic cache, and [getSmartText] on it
    throws. *)
Theorem second_instance_disposes_first (D : SmartLabelManager.Document)
    (L : Lib) (ref1 ref2 : nat) (id1 id2 : jsval)
    (container1 container2 : SmartLabelManager.container_arg)
    (useEllipses1 useEllipses2 : bool) (limit1 limit2 : option Q)
    (w w1 w2 : SmartLabelManager.World) (l1 l2 : loc)
    (Hid1 : SmartLabelManager.no_id id1 = false)
    (Hid2 : SmartLabelManager.no_id id2 = false)
    (Hkey : js_toString id2 = js_toString id1)
    (Hfirst : SmartLabelManager.new D L ref1 id1 container1 useEllipses1
                limit1 w = SmartLabelManager.Created l1 w1)
    (Hsecond : SmartLabelManager.new D L ref2 id2 container2 useEllipses2
                 limit2 w1 = SmartLabelManager.Created l2 w2) :
  l2 ≠ l1
  ∧ SmartLabelManager.store w2 !! js_toString id1 = Some l2
  ∧ ∃ m1,
      SmartLabelManager.instances w2 !! l1 = Some m1
      ∧ _init m1 = true
      ∧ _container m1 = None ∧ _containerManager m1 = None ∧ _cache m1 = None
      ∧ ∀ L' text mw mh noWrap,
          getSmartText L' text mw mh noWrap m1 = Throws TypeError m1.
Proof.
  destruct (inherited (js_toString id1)) eqn:Hown.
  { unfold SmartLabelManager.new in Hfirst. rewrite Hid1, Hown in Hfirst.
    discriminate. }
  destruct (new_registers_the_instance D L ref1 id1 container1 useEllipses1
              limit1 w Hid1 Hown)
    as (l & this & w' & Hnew & _ & Hstore1 & Hinst1 & Hinit1 & _).
  rewrite Hfirst in Hnew. injection Hnew as <- <-.
  assert (Hown2 : inherited (js_toString id2) = false)
    by (rewrite Hkey; exact Hown).
  destruct (new_registers_the_instance D L ref2 id2 container2 useEllipses2
              limit2 w1 Hid2 Hown2)
    as (l & this2 & w' & Hnew & Hfresh & Hstore2 & _ & _ & _ & _ & _ & _ & _
        & Hprev & _).
  rewrite Hsecond in Hnew. injection Hnew as <- <-.
  split; [intros ->; congruence|].
  split; [rewrite Hstore2, Hkey; apply lookup_insert_eq|].
  destruct (Hprev l1 this) as (m1 & Hd & Hm1).
  { rewrite Hkey, Hstore1. apply lookup_insert_eq. }
  { exact Hinst1. }
  exists m1. split; [exact Hm1|].
  revert Hd. unfold dispose. rewrite Hinit1. cbn. intros [= <-].
  repeat split.
Qed.

(** [second_instance_disposes_first] on the number one and on the string
    that writes it. *)
Lemma second_instance_disposes_first_witness :
  let co := container_of mono_node 3 in
  let D := document_of mono_node co in
  let L := lib_of (fun _ _ _ => 0%Z) in
  ∃ l1 w1 l2 w2 m1,
    SmartLabelManager.new D L 0 (JNum 1) SmartLabelManager.NoContainer true None
      empty_world = SmartLabelManager.Created l1 w1
    ∧ SmartLabelManager.new D L 1 (JStr "1") SmartLabelManager.NoContainer
        false None w1 = SmartLabelManager.Created l2 w2
    ∧ l2 ≠ l1
    ∧ SmartLabelManager.store w2 !! "1"%string = Some l2
    ∧ SmartLabelManager.instances w2 !! l1 = Some m1
    ∧ _container m1 = None.
Proof.
  intros co D L.
  destruct (SmartLabelManager.new D L 0 (JNum 1) SmartLabelManager.NoContainer
              true None empty_world) as [l1 w1|e w1|] eqn:H1;
    [|vm_compute in H1; discriminate..].
  destruct (SmartLabelManager.new D L 1 (JStr "1") SmartLabelManager.NoContainer
              false None w1) as [l2 w2|e w2|] eqn:H2.
  - destruct (second_instance_disposes_first D L 0 1 (JNum 1) (JStr "1")
                SmartLabelManager.NoContainer SmartLabelManager.NoContainer
                true false None None empty_world w1 w2 l1 l2
                eq_refl eq_refl eq_refl H1 H2)
      as (Hne & Hstore & m1 & Hm1 & _ & Hc & _).
    exists l1, w1, l2, w2, m1. repeat split; assumption.
  - exfalso. vm_compute in H1. injection H1 as <- <-.
    vm_compute in H2. discriminate.
  - exfalso. vm_compute in H1. injection H1 as <- <-.
    vm_compute in H2. discriminate.
Defined.

(** The names every object inherits, one by one. *)
Lemma inherited_names (name : string) :
  inherited name = true
  ↔ name ∈ ("constructor" :: "__proto__" :: inherited_functions)%string.
Proof.
  unfold inherited, inherited_text.
  destruct (String.eqb_spec name "constructor") as [->|Hc].
  { split; [intros _; apply elem_of_cons; by left|done]. }
  destruct (String.eqb_spec name "__proto__") as [->|Hp].
  { split; [intros _|done]. apply elem_of_cons. right. apply elem_of_cons. by left. }
  destruct (existsb (String.eqb name) inherited_functions) eqn:Hex.
  - split; [intros _|done].
    apply existsb_exists in Hex as (x & Hin & Heq).
    apply String.eqb_eq in Heq as <-.
    do 2 (apply elem_of_cons; right). apply list_elem_of_In. exact Hin.
  - split; [discriminate|]. intros Hin.
    apply elem_of_cons in Hin as [->|Hin]; [done|].
    apply elem_of_cons in Hin as [->|Hin]; [done|].
    assert (Hex' : existsb (String.eqb name) inherited_functions = true).
    { apply existsb_exists. exists name.
      split; [apply list_elem_of_In; exact Hin|apply String.eqb_refl]. }
    congruence.
Qed.

(** No correction key is a name every object inherits: the lookup of
    line 136 finds own properties only. *)
Lemma holds_init_app (text sfx : string) :
  holds_init (text +:+ "init" +:+ sfx) = true.
Proof.
  induction text as [|c text IH].
  - rewrite str_app_nil_l, !str_app_cons, str_app_nil_l.
    destruct sfx; reflexivity.
  - rewrite str_app_cons. cbn [holds_init]. rewrite IH. apply orb_true_r.
Qed.

Lemma init_key_not_inherited (this : Manager) (text : string) :
  inherited (cacheInitName this text) = false.
Proof.
  destruct (inherited (cacheInitName this text)) eqn:Hin; [|reflexivity].
  pose proof (holds_init_app text (style_suffix (style this))) as Hinit.
  fold (cacheInitName this text) in Hinit.
  apply inherited_names in Hin.
  repeat (apply elem_of_cons in Hin as [Hin|Hin];
          [rewrite Hin in Hinit; vm_compute in Hinit; discriminate|]).
  by apply elem_of_nil in Hin.
Qed.

(** X21. The constructor throws for the ids that name a property every
    object inherits, and for no other: [constructor], [__proto__] and the
    ten functions of [Object.prototype]. For an id whose property name is
    one of these twelve, what [store[id]] finds is not an instance and has
    no [dispose]: a [TypeError] is thrown before anything is registered or
    disposed, and the store and the instances are as they were. For every
    other id the constructor returns an instance. *)
Theorem new_throws_on_inherited_names (D : SmartLabelManager.Document)
    (L : Lib) (style_ref : nat) (id_arg : jsval)
    (container : SmartLabelManager.container_arg) (useEllipses : bool)
    (limit : option Q) (w : SmartLabelManager.World) :
  let names := ("constructor" :: "__proto__" :: inherited_functions)%string in
  let named := SmartLabelManager.no_id id_arg = false
               ∧ js_toString id_arg ∈ names in
  let r := SmartLabelManager.new D L style_ref id_arg container useEllipses
             limit w in
  (named → r = SmartLabelManager.Threw TypeError w)
  ∧ (¬ named → ∃ l w', r = SmartLabelManager.Created l w').
Proof.
  intros names named r. unfold r, SmartLabelManager.new.
  destruct (SmartLabelManager.no_id id_arg) eqn:Hid.
  { split; [intros [Hno _]; discriminate|]. intros _. eexists _, _. reflexivity. }
  destruct (inherited (js_toString id_arg)) eqn:Hown.
  - split; [reflexivity|]. intros Hnot. exfalso. apply Hnot.
    split; [reflexivity|]. apply inherited_names. exact Hown.
  - split.
    + intros [_ Hin]. apply inherited_names in Hin. congruence.
    + intros _.
      destruct (setStyle_initialised D L style_ref (js_toString id_arg)
                  container useEllipses limit) as (this & -> & _).
      eexists _, _. reflexivity.
Qed.

(** [new_throws_on_inherited_names] on the ids [constructor] and
    [valueOf], which throw, and on the id [valueof], which does not. *)
Lemma new_throws_on_inherited_names_witness :
  let D := document_of mono_node (container_of mono_node 3) in
  let L := lib_of (fun _ _ _ => 0%Z) in
  SmartLabelManager.new D L 0 (JStr "constructor")
    SmartLabelManager.NoContainer true None empty_world
  = SmartLabelManager.Threw TypeError empty_world
  ∧ SmartLabelManager.new D L 0 (JStr "valueOf")
      SmartLabelManager.NoContainer true None empty_world
    = SmartLabelManager.Threw TypeError empty_world
  ∧ ∃ l w', SmartLabelManager.new D L 0 (JStr "valueof")
              SmartLabelManager.NoContainer true None empty_world
            = SmartLabelManager.Created l w'.
Proof.
  intros D L.
  split; [|split].
  - apply (new_throws_on_inherited_names D L 0 (JStr "constructor")
             SmartLabelManager.NoContainer true None empty_world).
    split; [reflexivity|]. apply inherited_names. reflexivity.
  - apply (new_throws_on_inherited_names D L 0 (JStr "valueOf")
             SmartLabelManager.NoContainer true None empty_world).
    split; [reflexivity|]. apply inherited_names. reflexivity.
  - apply (new_throws_on_inherited_names D L 0 (JStr "valueof")
             SmartLabelManager.NoContainer true None empty_world).
    intros [_ Hin]. apply inherited_names in Hin. discriminate.
Defined.

(** ** The lines and the text *)

Lemma match_br_tail_split (s : string) (k : nat) :
  JS.match_br_tail s = Some k →
  ∃ x rest, s = (x +:+ rest)%string ∧ String.length x = k
            ∧ JS.match_br_tail x = Some k.
Proof.
  revert k. induction s as [|c s IH]; intros k; [discriminate|].
  cbn [JS.match_br_tail]. destruct (JS.is_ws c) eqn:Hws.
  - destruct (JS.match_br_tail s) as [k0|]; [|discriminate].
    intros [= <-]. destruct (IH k0 eq_refl) as (x & rest & -> & Hlen & Hx).
    exists (String c x), rest. cbn [String.length JS.match_br_tail].
    rewrite Hws, Hx, Hlen. done.
  - destruct (Ascii.eqb c "/") eqn:Hsl.
    + destruct s as [|d s]; [discriminate|].
      destruct (Ascii.eqb d ">") eqn:Hgt; [|discriminate].
      intros [= <-]. exists (String c (String d "")), s.
      cbn [JS.match_br_tail]. rewrite Hws, Hsl, Hgt. done.
    + destruct (Ascii.eqb c ">") eqn:Hgt; [|discriminate].
      intros [= <-]. exists (String c ""), s.
      cbn [JS.match_br_tail]. rewrite Hws, Hsl, Hgt. done.
Qed.

(** A match of the separator at the start of [s] cuts [s] in the separator
    and the rest. *)
Lemma match_sep_split (s : string) (n : nat) :
  JS.match_sep s = Some n →
  ∃ c sep rest, s = String c (sep +:+ rest) ∧ String.length sep = pred n
                ∧ is_sep (String c sep) = true.
Proof.
  destruct s as [|c s]; [discriminate|].
  unfold is_sep. cbn [JS.match_sep].
  destruct (Ascii.eqb c "010") eqn:Hnl.
  { intros [= <-]. exists c, ""%string, s. cbn [JS.match_sep].
    rewrite Hnl. done. }
  destruct (Ascii.eqb c "<") eqn:Hlt; [|discriminate].
  destruct s as [|b [|r s]]; try discriminate.
  destruct (JS.is_b b && JS.is_r r) eqn:Hbr; [|discriminate].
  destruct (JS.match_br_tail s) as [k|] eqn:Hk; [|discriminate].
  intros [= <-].
  destruct (match_br_tail_split s k Hk) as (x & rest & -> & Hlen & Hx).
  exists c, (String b (String r x)), rest.
  cbn [JS.match_sep String.length]. rewrite Hnl, Hlt, Hbr, Hx, Hlen. cbn.
  rewrite Nat.eqb_refl. done.
Qed.

Lemma split_sep_from_skip (x rest cur : string) :
  JS.split_sep_from (String.length x) cur (x +:+ rest)
  = JS.split_sep_from 0 cur rest.
Proof.
  induction x as [|c x IH]; [reflexivity|].
  rewrite str_app_cons. cbn [String.length JS.split_sep_from]. exact IH.
Qed.

Lemma str_length_app (s t : string) :
  String.length (s +:+ t) = String.length s + String.length t.
Proof.
  induction s as [|c s IH]; [reflexivity|].
  rewrite str_app_cons. cbn [String.length]. rewrite IH. reflexivity.
Qed.

(** The pieces of a split, with one separator between each two, are the
    string that was split. *)
Lemma split_sep_from_weave (n : nat) (s cur : string) :
  String.length s ≤ n →
  ∃ seps,
    length (JS.split_sep_from 0 cur s) = S (length seps)
    ∧ Forall (fun sp => is_sep sp = true) seps
    ∧ weave (JS.split_sep_from 0 cur s) seps = (cur +:+ s)%string.
Proof.
  revert s cur. induction n as [|n IH]; intros s cur Hlen.
  - destruct s; [|cbn in Hlen; lia]. exists []. cbn.
    rewrite str_app_nil_r. done.
  - destruct s as [|c s].
    { exists []. cbn. rewrite str_app_nil_r. done. }
    cbn [String.length] in Hlen. cbn [JS.split_sep_from].
    destruct (JS.match_sep (String c s)) as [k|] eqn:Hm.
    + destruct (match_sep_split _ _ Hm) as (c' & sep & rest & Heq & Hsl & Hsep).
      injection Heq as <- ->. rewrite <- Hsl, split_sep_from_skip.
      destruct (IH rest ""%string) as (seps & Hl & Hall & Hw).
      { rewrite str_length_app in Hlen. lia. }
      exists (String c sep :: seps). cbn [length].
      split; [rewrite Hl; reflexivity|]. split; [by constructor|].
      cbn [weave]. rewrite Hw, str_app_nil_l, str_app_cons. reflexivity.
    + destruct (IH s (cur +:+ String c "")%string ltac:(lia))
        as (seps & Hl & Hall & Hw).
      exists seps. split; [exact Hl|]. split; [exact Hall|].
      rewrite Hw, str_app_assoc. reflexivity.
Qed.

(** X22. The [lines] that [textToLines] sets rebuild the [text] it sets:
    there are separators, one fewer than the lines, each of them a line feed
    or a [<br>] marker from its first character to its last, such that the
    lines with the separators between them, in order, are the text. *)
Theorem textToLines_lines_rebuild_the_text (a : ref_arg) (h : heap) :
  let o := (textToLines a h).2 !!! (textToLines a h).1 in
  ∃ t lines seps,
    get_prop o "text" = JStr t
    ∧ get_prop o "lines" = JArr lines
    ∧ length lines = S (length seps)
    ∧ Forall (fun sp => is_sep sp = true) seps
    ∧ weave lines seps = t.
Proof.
  assert (Hsplit : ∀ t, ∃ seps,
            length (JS.split_sep t) = S (length seps)
            ∧ Forall (fun sp => is_sep sp = true) seps
            ∧ weave (JS.split_sep t) seps = t).
  { intros t.
    destruct (split_sep_from_weave (String.length t) t ""%string (le_n _))
      as (seps & Hl & Hall & Hw).
    exists seps. repeat split; assumption. }
  destruct a as [| |l0]; cbn [textToLines fst snd]; cbv zeta;
    rewrite lookup_total_insert_eq; unfold get_prop;
    rewrite lookup_insert_eq, lookup_insert_ne by done;
    rewrite lookup_insert_eq; cbn [default from_option Datatypes.id];
    match goal with
    | |- ∃ t lines seps, JStr ?t0 = JStr t ∧ _ =>
        destruct (Hsplit t0) as (seps & Hl & Hall & Hw);
        exists t0, (JS.split_sep t0), seps
    end; repeat split; assumption.
Qed.

(** ** Calls that cannot fail *)

(** The correction key of a character is not the plain key of a
    character. *)
Lemma letter_keys_disjoint (this : Manager) (t t0 : string) :
  String.length t = 1 → String.length t0 = 1 →
  cacheInitName this t ≠ cacheName this t0.
Proof.
  intros Ht Ht0 Heq. apply (f_equal String.length) in Heq.
  unfold cacheInitName, cacheName in Heq.
  rewrite !str_length_app, Ht, Ht0 in Heq. cbn in Heq. lia.
Qed.

Lemma cache_store_keys (key : string) (v : cval) (this : Manager) (t : string) :
  cacheName (cache_store key v this) t = cacheName this t
  ∧ cacheInitName (cache_store key v this) t = cacheInitName this t.
Proof.
  unfold cacheName, cacheInitName.
  destruct (cache_store_fields key v this) as (_ & -> & _). done.
Qed.

(** What a key holds after a store: the value stored, what it held before,
    or nothing. *)
Lemma cache_store_lookup (key k : string) (v : cval) (this : Manager) :
  _advancedCache (cache_store key v this) !! k = None
  ∨ (k = key ∧ _advancedCache (cache_store key v this) !! k = Some v)
  ∨ (k ≠ key ∧ _advancedCache (cache_store key v this) !! k
               = _advancedCache this !! k).
Proof.
  unfold cache_store, evict.
  assert (Hins : <[key := v]> (_advancedCache this) !! k = Some v ∧ k = key
                 ∨ <[key := v]> (_advancedCache this) !! k
                   = _advancedCache this !! k ∧ k ≠ key).
  { destruct (decide (k = key)) as [->|Hne].
    - left. split; [apply lookup_insert_eq|reflexivity].
    - right. split; [by apply lookup_insert_ne|exact Hne]. }
  assert (Hdel : ∀ k0, delete k0 (<[key := v]> (_advancedCache this)) !! k = None
                 ∨ delete k0 (<[key := v]> (_advancedCache this)) !! k
                   = <[key := v]> (_advancedCache this) !! k).
  { intros k0. destruct (decide (k = k0)) as [->|Hne].
    - left. apply lookup_delete_eq.
    - right. by apply lookup_delete_ne. }
  destruct (Qgtb _ _); cbn.
  - destruct (_advancedCacheKey this ++ [key]) as [|k0 ks]; cbn;
      [destruct (Hdel "undefined"%string) as [H| ->]
      |destruct (Hdel k0) as [H| ->]];
      try (left; exact H);
      (destruct Hins as [[H1 H2]|[H1 H2]]; [right; left|right; right]; done).
  - destruct Hins as [[H1 H2]|[H1 H2]]; [right; left|right; right]; done.
Qed.

Lemma letters_typed_store_init (t0 : string) (d : Q) (this : Manager) :
  String.length t0 = 1 → letters_typed this →
  letters_typed (cache_store (cacheInitName this t0) (CNum d) this).
Proof.
  intros Ht0 Htyped t Ht. destruct (Htyped t Ht) as (Hi & Hn & Hown).
  destruct (cache_store_keys (cacheInitName this t0) (CNum d) this t)
    as [-> ->].
  split; [|split; [|exact Hown]].
  - intros w h.
    destruct (cache_store_lookup (cacheInitName this t0) (cacheInitName this t)
                (CNum d) this) as [H|[[_ H]|[_ H]]]; rewrite H;
      [discriminate|discriminate|apply Hi].
  - intros q.
    destruct (cache_store_lookup (cacheInitName this t0) (cacheName this t)
                (CNum d) this) as [H|[[He _]|[_ H]]].
    + rewrite H. discriminate.
    + exfalso. symmetry in He. revert He. by apply letter_keys_disjoint.
    + rewrite H. apply Hn.
Qed.

Lemma letters_typed_store_name (t0 : string) (w h : Q) (this : Manager) :
  String.length t0 = 1 → letters_typed this →
  letters_typed (cache_store (cacheName this t0) (CDim w h) this).
Proof.
  intros Ht0 Htyped t Ht. destruct (Htyped t Ht) as (Hi & Hn & Hown).
  destruct (cache_store_keys (cacheName this t0) (CDim w h) this t)
    as [-> ->].
  split; [|split; [|exact Hown]].
  - intros w' h'.
    destruct (cache_store_lookup (cacheName this t0) (cacheInitName this t)
                (CDim w h) this) as [H|[[He _]|[_ H]]].
    + rewrite H. discriminate.
    + exfalso. revert He. by apply letter_keys_disjoint.
    + rewrite H. apply Hi.
  - intros q.
    destruct (cache_store_lookup (cacheName this t0) (cacheName this t)
                (CDim w h) this) as [H|[[_ H]|[_ H]]]; rewrite H;
      [discriminate|discriminate|apply Hn].
Qed.

Lemma letters_typed_same (this this' : Manager) :
  _advancedCache this' = _advancedCache this → style this' = style this →
  letters_typed this → letters_typed this'.
Proof.
  intros Hc Hs Htyped t Ht. unfold cacheInitName, cacheName.
  rewrite Hc, Hs. exact (Htyped t Ht).
Qed.

(** The call [getOriSize] makes for a letter returns, and leaves a cache
    that can serve the letters. *)
Lemma calCharDim_letter_returns (t : string) (l : nat) (this : Manager)
    (n : Node) :
  String.length t = 1 → _init this = true → _container this = Some n →
  letters_typed this →
  ∃ size this',
    _calCharDimWithCache t true l this = Ret (Val size) this'
    ∧ letters_typed this' ∧ _init this' = true ∧ _container this' = Some n.
Proof.
  intros Ht Hinit Hcont Htyped. unfold _calCharDimWithCache.
  rewrite Hinit. cbn [negb]. fold (cacheName this t) (cacheInitName this t).
  unfold bind.
  assert (Hasym : ∃ a m,
            asymmetricDifference (cacheInitName this t) (htmlSplCharSpace t)
              true l this = Ret a m
            ∧ letters_typed m ∧ _init m = true ∧ _container m = Some n
            ∧ cacheName m t = cacheName this t).
  { unfold asymmetricDifference. cbn [negb].
    destruct (_advancedCache this !! cacheInitName this t) as [[q|w h]|] eqn:Hlook.
    - exists q, this. split; [reflexivity|]. split; [exact Htyped|].
      split; [exact Hinit|]. split; [exact Hcont|reflexivity].
    - exfalso. exact (proj1 (Htyped t Ht) w h Hlook).
    - rewrite Hcont. eexists _, _. split; [reflexivity|].
      split; [by apply letters_typed_store_init|].
      destruct (cache_store_fields (cacheInitName this t)
                  (CNum (asymmetric n (htmlSplCharSpace t) l)) this)
        as (Hi & _ & _ & Hc & _).
      split; [congruence|]. split; [congruence|].
      apply cache_store_keys. }
  destruct Hasym as (a & m & -> & Htm & Him & Hcm & Hkey).
  rewrite <- Hkey. unfold cachedOrMeasured. rewrite Hcm.
  assert (Hmeasure : ∀ w h,
            let this' := cache_store (cacheName m t) (CDim w h) m in
            letters_typed this' ∧ _init this' = true
            ∧ _container this' = Some n).
  { intros w h this'. subst this'.
    split; [by apply letters_typed_store_name|].
    destruct (cache_store_fields (cacheName m t) (CDim w h) m)
      as (Hi & _ & _ & Hc & _).
    split; congruence. }
  destruct (_advancedCache m !! cacheName m t) as [[q|w h]|] eqn:Hlook.
  - rewrite (proj1 (proj2 (Htm t Ht)) q Hlook).
    eexists _, _. split; [reflexivity|apply Hmeasure].
  - eexists _, _. split; [reflexivity|]. split; [exact Htm|].
    split; [exact Him|exact Hcm].
  - rewrite (proj2 (proj2 (Htm t Ht))).
    eexists _, _. split; [reflexivity|apply Hmeasure].
Qed.

Lemma split_chars_one_char (s : string) :
  Forall (fun t => String.length t = 1) (JS.split_chars s).
Proof. induction s as [|c s IH]; constructor; [reflexivity|exact IH]. Qed.

Lemma getOriSize_loop_returns (textArr : list string) (l : nat)
    (h c : Q) (store : gmap string Q) (this : Manager) (n : Node) :
  Forall (fun t => String.length t = 1) textArr →
  _init this = true → _container this = Some n → letters_typed this →
  ∃ r this',
    getOriSize_loop textArr l h c store this = Ret r this'
    ∧ letters_typed this'.
Proof.
  revert h c store this.
  induction textArr as [|letter rest IH]; intros h c store this Hall Hinit Hcont Ht.
  - eexists _, _. split; [reflexivity|exact Ht].
  - apply Forall_cons in Hall as [Hone Hall]. cbn [getOriSize_loop]. unfold bind.
    destruct (calCharDim_letter_returns letter l this n Hone Hinit Hcont Ht)
      as (size & m & -> & Htm & Him & Hcm).
    apply (IH _ _ _ m Hall Him Hcm Htm).
Qed.

(** X23. [getSmartText] cannot fail on a manager that can measure, for a text
    without markup, when the advanced cache can serve the letters (as it
    can when it is empty, or was filled by [getSmartText] under the same
    style, and the style does not make the key of a letter a name every
    object inherits): the method returns a label, neither throwing nor
    leaving what is modelled, and the manager it leaves meets the same
    conditions, so that the next call cannot fail either. *)
Theorem getSmartText_returns_a_label (L : Lib) (text_arg : jsval) (mw mh : Q)
    (noWrap : bool) (this : Manager)
    (Hcan : can_measure this)
    (Htyped : letters_typed this)
    (Hplain : xmlTagRegEx_test L (text_of_arg text_arg) = false) :
  ∃ sl this',
    getSmartText L text_arg mw mh noWrap this = Ret (Val sl) this'
    ∧ can_measure this' ∧ letters_typed this'.
Proof.
  destruct Hcan as (Hinit & [sCont HsCont] & [container Hcont] & [lh Hlh]
                    & [c0 Hc0]).
  assert (Hori : ∃ ori this1,
            originalSize L container (text_of_arg text_arg) this
            = Ret (false, ori) this1 ∧ letters_typed this1).
  { unfold originalSize. destruct (isBrowserLess L).
    - eexists _, _. split; [reflexivity|exact Htyped].
    - rewrite Hplain. unfold bind, getOriSize. rewrite Hinit. cbn [negb].
      unfold bind.
      destruct (getOriSize_loop_returns
                  (JS.split_chars (ltgtRegex_replace L (text_of_arg text_arg)))
                  (length (JS.split_chars
                             (ltgtRegex_replace L (text_of_arg text_arg))))
                  0%Q 0%Q ∅ this container (split_chars_one_char _)
                  Hinit Hcont Htyped) as ([[h c] st] & this1 & -> & Ht1).
      eexists _, _. split; [reflexivity|exact Ht1]. }
  destruct Hori as (ori & this1 & Hori & Ht1).
  assert (Hsetup1 : same_setup this this1).
  { apply (originalSize_steps same_setup same_setup_refl same_setup_trans
             same_setup_store L container (text_of_arg text_arg)).
    rewrite Hori. reflexivity. }
  assert (Hc1 : _cache this1 = Some c0).
  { destruct (originalSize_inv _ _ _ _ _ _ _ Hori) as (-> & _). exact Hc0. }
  assert (Hdone : ∀ this',
            same_setup this this' → is_Some (_cache this') →
            _advancedCache this' = _advancedCache this1 →
            can_measure this' ∧ letters_typed this').
  { intros this' Hs Hc' Ha.
    destruct Hs as (Hi & _ & _ & _ & _ & Hst & _ & Hco & Hcn & _ & Hl & _).
    split.
    - unfold can_measure. rewrite Hi, Hco, Hcn, Hl, HsCont, Hcont, Hlh.
      repeat split; try done; eexists; reflexivity.
    - apply (letters_typed_same this1 this' Ha); [|exact Ht1].
      destruct Hsetup1 as (_ & _ & _ & _ & _ & Hst1 & _). congruence. }
  rewrite (getSmartText_measured _ _ _ _ _ _ _ _ _ _ _ _ Hinit HsCont Hcont Hlh Hori).
  destruct (fits ori mw _).
  { eexists _, _. split; [reflexivity|].
    apply Hdone; [exact Hsetup1|rewrite Hc1; eexists; reflexivity|reflexivity]. }
  destruct (negb (isBrowserLess L) && Qgtb lh _).
  { eexists _, _. split; [reflexivity|].
    apply Hdone; [exact Hsetup1|rewrite Hc1; eexists; reflexivity|reflexivity]. }
  destruct (plainText_total L (_getWidthFn L sCont container)
              (match ori with Some (_, _, d) => d | None => None end)
              (normalise (text_of_arg text_arg)) mw
              (effectiveMaxHeight mh lh) lh (_context this)
              (measuredLabel ori (initialLabel (text_of_arg text_arg) mw mh))
              (default false (_showNoEllipses this))
              (ellipsesWidth sCont) (dotWidth sCont) noWrap this1 c0 Hc1)
    as (r & this2 & Hplain2).
  rewrite Hplain2. eexists _, _. split; [reflexivity|].
  assert (Hout : outcome_state
            (plainText L (_getWidthFn L sCont container)
               (match ori with Some (_, _, d) => d | None => None end)
               (normalise (text_of_arg text_arg)) mw
               (effectiveMaxHeight mh lh) lh (_context this)
               (measuredLabel ori (initialLabel (text_of_arg text_arg) mw mh))
               (default false (_showNoEllipses this))
               (ellipsesWidth sCont) (dotWidth sCont) noWrap this1)
            = Some this2) by (rewrite Hplain2; reflexivity).
  apply Hdone.
  - eapply same_setup_trans; [exact Hsetup1|].
    revert Hout.
    apply (plainText_steps same_setup same_setup_refl same_setup_trans
             (fun this c k w _ _ => same_setup_cache this _)).
  - pose proof (plainText_steps basic_cache_kept basic_cache_kept_refl
                  basic_cache_kept_trans basic_cache_kept_cache
                  _ _ _ _ _ _ _ _ _ _ _ _ _ _ _ Hout) as Hkept.
    unfold basic_cache_kept in Hkept. rewrite Hc1 in Hkept.
    destruct Hkept as (c2 & -> & _). eexists. reflexivity.
  - apply (plainText_state _ _ _ _ _ _ _ _ _ _ _ _ _ _ _ Hout).
Qed.

Lemma letters_typed_empty (this : Manager) :
  _advancedCache this = ∅ →
  (∀ t, String.length t = 1 → inherited (cacheName this t) = false) →
  letters_typed this.
Proof.
  intros Hempty Hown t Ht. rewrite Hempty. split; [|split].
  - intros w h. rewrite lookup_empty. discriminate.
  - intros q. rewrite lookup_empty. discriminate.
  - exact (Hown t Ht).
Qed.

(** Under the style [arial12] the key of a letter is not a name every
    object inherits. *)
Lemma arial12_letter_keys (this : Manager) (t : string) :
  style this = Some arial12 → String.length t = 1 →
  inherited (cacheName this t) = false.
Proof.
  intros Hstyle Ht. unfold cacheName. rewrite Hstyle.
  destruct t as [|c [|d t]]; try discriminate.
  apply not_true_iff_false. intros Hin. apply inherited_names in Hin.
  repeat (apply elem_of_cons in Hin as [Hin|Hin]; [discriminate|]).
  by apply elem_of_nil in Hin.
Qed.

(** [getSmartText_returns_a_label] on a manager as the constructor leaves
    it, and on the manager that call leaves. *)
Lemma getSmartText_returns_a_label_witness :
  let L := lib_of (fun _ _ _ => 0%Z) in
  let this := manager_of (container_of mono_node 3) 500 false in
  ∃ sl1 this1 sl2 this2,
    getSmartText L (JStr "Hello World") (17 # 2) 15 false this
      = Ret (Val sl1) this1
    ∧ getSmartText L (JStr "wide World") 5 100 true this1
      = Ret (Val sl2) this2.
Proof.
  intros L this.
  assert (Hcan : can_measure this).
  { split; [reflexivity|]. repeat split; eexists; reflexivity. }
  destruct (getSmartText_returns_a_label L (JStr "Hello World") (17 # 2) 15
              false this Hcan
              (letters_typed_empty this eq_refl
                 (fun t => arial12_letter_keys this t eq_refl)) eq_refl)
    as (sl1 & this1 & H1 & Hcan1 & Ht1).
  destruct (getSmartText_returns_a_label L (JStr "wide World") 5 100
              true this1 Hcan1 Ht1 eq_refl)
    as (sl2 & this2 & H2 & _).
  exists sl1, this1, sl2, this2. split; [exact H1|exact H2].
Defined.

(** ** The detailed measure, again *)

Lemma entries_kept_refl (this : Manager) : entries_kept this this.
Proof. repeat split; intros; assumption. Qed.

Lemma entries_kept_trans (a b c : Manager) :
  entries_kept a b → entries_kept b c → entries_kept a c.
Proof.
  intros (Hd1 & Hn1 & Hs1 & Hi1) (Hd2 & Hn2 & Hs2 & Hi2).
  split; [|split; [|split; congruence]].
  - intros k w h Hk. apply Hd2, Hd1, Hk.
  - intros t q Ht Hk.
    assert (Hkey : cacheInitName b t = cacheInitName a t)
      by (unfold cacheInitName; rewrite Hs1; reflexivity).
    rewrite <- Hkey. apply Hn2; [exact Ht|]. rewrite Hkey. by apply Hn1.
Qed.

(** The call [getOriSize] makes for a letter, while the key list has room
    for two more keys: it keeps the entries, and leaves the correction and
    the size it returns under the keys of the letter. *)
Lemma calCharDim_letter_leaves (t : string) (l k : nat) (this this' : Manager)
    (size : Size.t) :
  String.length t = 1 → cache_room (S (S k)) this →
  _calCharDimWithCache t true l this = Ret (Val size) this' →
  entries_kept this this' ∧ cache_room k this'
  ∧ (∃ q, _advancedCache this' !! cacheInitName this t = Some (CNum q))
  ∧ _advancedCache this' !! cacheName this t
    = Some (CDim (Size.width size) (Size.height size)).
Proof.
  intros Ht Hroom. unfold _calCharDimWithCache.
  destruct (_init this) eqn:Hinit; [|discriminate]. cbn [negb].
  fold (cacheName this t) (cacheInitName this t).
  assert (Hne : cacheInitName this t ≠ cacheName this t)
    by (apply letter_keys_disjoint; assumption).
  unfold bind.
  destruct (asymmetricDifference _ _ true l this) as [a mA|e m|] eqn:Ha;
    try discriminate.
  assert (HA : _advancedCache mA !! cacheInitName this t = Some (CNum a)
               ∧ (∀ key v, _advancedCache this !! key = Some v →
                           _advancedCache mA !! key = Some v)
               ∧ cache_room (S k) mA
               ∧ style mA = style this ∧ _init mA = _init this).
  { revert Ha. unfold asymmetricDifference. cbn [negb].
    destruct (_advancedCache this !! cacheInitName this t) as [[q|w h]|] eqn:Hlook;
      try discriminate.
    - intros [= <- <-]. split; [exact Hlook|]. split; [done|].
      split; [|done]. eapply cache_room_le; [|exact Hroom]. lia.
    - destruct (_container this) as [n|]; [|discriminate].
      intros [= <- <-].
      split; [|split; [|split; [by apply cache_store_room_after|]]].
      + rewrite cache_store_room by (eapply cache_room_le; [|exact Hroom]; lia).
        apply lookup_insert_eq.
      + intros key v Hkey.
        rewrite cache_store_room by (eapply cache_room_le; [|exact Hroom]; lia).
        cbn. rewrite lookup_insert_ne by congruence. exact Hkey.
      + destruct (cache_store_fields (cacheInitName this t)
                    (CNum (asymmetric n (htmlSplCharSpace t) l)) this)
          as (Hi & Hs & _). split; assumption. }
  destruct HA as (HAi & HAmono & HAroom & HAs & HAinit).
  destruct (cachedOrMeasured _ _ a mA) as [sz m1|e m|] eqn:Hc; try discriminate.
  intros [= <- <-].
  assert (HB : _advancedCache m1 !! cacheName this t
               = Some (CDim (Size.width sz) (Size.height sz))
               ∧ (∀ key, key ≠ cacheName this t →
                         _advancedCache m1 !! key = _advancedCache mA !! key)
               ∧ (∀ w h, _advancedCache mA !! cacheName this t = Some (CDim w h) →
                         m1 = mA)
               ∧ cache_room k m1
               ∧ style m1 = style mA ∧ _init m1 = _init mA).
  { revert Hc. unfold cachedOrMeasured.
    assert (Hmeasure :
      match _container mA with
      | Some n =>
          Ret {| Size.height := offsetHeight n (htmlSplCharSpace t);
                 Size.width := (js_add (offsetWidth n (htmlSplCharSpace t)) a) |}
            (cache_store (cacheName this t)
               (CDim (js_add (offsetWidth n (htmlSplCharSpace t)) a)
                  (offsetHeight n (htmlSplCharSpace t))) mA)
      | None => Throws TypeError mA
      end = Ret sz m1 →
      (∀ w h, _advancedCache mA !! cacheName this t ≠ Some (CDim w h)) →
      _advancedCache m1 !! cacheName this t
        = Some (CDim (Size.width sz) (Size.height sz))
      ∧ (∀ key, key ≠ cacheName this t →
                _advancedCache m1 !! key = _advancedCache mA !! key)
      ∧ (∀ w h, _advancedCache mA !! cacheName this t = Some (CDim w h) →
                m1 = mA)
      ∧ cache_room k m1
      ∧ style m1 = style mA ∧ _init m1 = _init mA).
    { destruct (_container mA) as [n|]; [|discriminate].
      intros [= <- <-] Hnot.
      split; [|split; [|split; [|split; [by apply cache_store_room_after|]]]].
      - rewrite cache_store_room by (eapply cache_room_le; [|exact HAroom]; lia).
        apply lookup_insert_eq.
      - intros key Hkey.
        rewrite cache_store_room by (eapply cache_room_le; [|exact HAroom]; lia).
        cbn. by apply lookup_insert_ne.
      - intros w h Hwh. exfalso. exact (Hnot w h Hwh).
      - destruct (cache_store_fields (cacheName this t)
                    (CDim (js_add (offsetWidth n (htmlSplCharSpace t)) a)
                       (offsetHeight n (htmlSplCharSpace t))) mA)
          as (Hi & Hs & _). split; assumption. }
    destruct (_advancedCache mA !! cacheName this t) as [[q|w h]|] eqn:Hlook.
    - destruct (Qeq_bool q 0); [|discriminate].
      intros H. apply Hmeasure; [exact H|discriminate].
    - intros [= <- <-]. cbn. split; [exact Hlook|]. split; [done|].
      split; [done|]. split; [|done].
      eapply cache_room_le; [|exact HAroom]. lia.
    - destruct (inherited (cacheName this t)); [discriminate|].
      intros H. apply Hmeasure; [exact H|discriminate]. }
  destruct HB as (HBn & HBother & HBhit & HBroom & HBs & HBinit).
  split; [|split; [exact HBroom|split; [|exact HBn]]].
  - split; [|split; [|split; congruence]].
    + intros key w h Hkey. apply HAmono in Hkey.
      destruct (decide (key = cacheName this t)) as [->|Hk].
      * rewrite (HBhit w h Hkey). exact Hkey.
      * rewrite (HBother key Hk). exact Hkey.
    + intros t' q Ht' Hkey. apply HAmono in Hkey.
      rewrite HBother; [exact Hkey|]. by apply letter_keys_disjoint.
  - exists a. rewrite HBother by exact Hne. exact HAi.
Qed.

(** The loop of [getOriSize], while the key list has room for two keys a
    letter: what it returns, it returns again, without a change, on every
    manager whose cache holds for the letters what the cache it left
    holds. *)
Lemma getOriSize_loop_replay (textArr : list string) (l : nat)
    (h c : Q) (store : gmap string Q) (this this' : Manager)
    (r : Q * Q * gmap string Q) :
  Forall (fun t => String.length t = 1) textArr →
  cache_room (2 * length textArr) this →
  getOriSize_loop textArr l h c store this = Ret r this' →
  entries_kept this this'
  ∧ ∀ m l',
      _init m = true → style m = style this →
      (∀ t, t ∈ textArr →
            _advancedCache m !! cacheInitName this t
              = _advancedCache this' !! cacheInitName this t
            ∧ _advancedCache m !! cacheName this t
              = _advancedCache this' !! cacheName this t) →
      getOriSize_loop textArr l' h c store m = Ret r m.
Proof.
  revert h c store this.
  induction textArr as [|letter rest IH]; intros h c store this Hall Hroom.
  - cbn. intros [= <- <-]. split; [apply entries_kept_refl|]. done.
  - apply Forall_cons in Hall as [Hone Hall].
    cbn [getOriSize_loop]. unfold bind.
    destruct (_calCharDimWithCache letter true l this) as [[|size] m1|e m1|] eqn:Hcall;
      try discriminate.
    intros Hloop.
    destruct (calCharDim_letter_leaves letter l (2 * length rest) this m1 size
                Hone ltac:(cbn [length] in Hroom;
                           replace (S (S (2 * length rest)))
                             with (2 * S (length rest)) by lia; exact Hroom)
                Hcall)
      as (Hkept1 & Hroom1 & [q Hq] & Hn).
    destruct (IH _ _ _ m1 Hall Hroom1 Hloop) as [Hkept2 Hreplay].
    assert (Hstyle1 : style m1 = style this) by apply Hkept1.
    assert (Hkeys1 : ∀ t, cacheInitName m1 t = cacheInitName this t
                          ∧ cacheName m1 t = cacheName this t)
      by (intros t; unfold cacheInitName, cacheName; rewrite Hstyle1; done).
    split; [eapply entries_kept_trans; eassumption|].
    intros m l' Him Hsm Hagree.
    assert (Hkeysm : ∀ t, cacheInitName m t = cacheInitName this t
                          ∧ cacheName m t = cacheName this t)
      by (intros t; unfold cacheInitName, cacheName; rewrite Hsm; done).
    destruct (Hagree letter ltac:(apply elem_of_cons; by left)) as [Hi' Hn'].
    destruct Hkept2 as (Hd2 & Hc2 & _).
    assert (Hq' : _advancedCache m !! cacheInitName m letter = Some (CNum q)).
    { rewrite (proj1 (Hkeysm letter)), Hi'.
      rewrite <- (proj1 (Hkeys1 letter)). apply Hc2; [exact Hone|].
      rewrite (proj1 (Hkeys1 letter)). exact Hq. }
    assert (Hn'' : _advancedCache m !! cacheName m letter
                   = Some (CDim (Size.width size) (Size.height size))).
    { rewrite (proj2 (Hkeysm letter)), Hn'. apply Hd2. exact Hn. }
    rewrite (calCharDim_hit m letter l' q _ _ Him Hq' Hn'').
    destruct size as [w0 h0]. cbn [Size.width Size.height].
    apply Hreplay; [exact Him|congruence|].
    intros t Ht. rewrite !(proj1 (Hkeys1 t)), !(proj2 (Hkeys1 t)).
    apply Hagree. apply elem_of_cons. by right.
Qed.

(** X24. While the key list has room for two keys for each character of the
    text, what [getOriSize] returns with details it returns again on the
    next call for that text (width, height and detail object), and that
    call changes nothing. *)
Theorem detailed_measure_is_memoised (text : string) (this this' : Manager)
    (o : OriSize.t)
    (Hroom : cache_room (2 * String.length text) this)
    (Hcall : getOriSize text true this = Ret (Val o) this') :
  getOriSize text true this' = Ret (Val o) this'.
Proof.
  revert Hcall. unfold getOriSize.
  destruct (_init this) eqn:Hinit; [|discriminate]. cbn [negb]. unfold bind.
  destruct (getOriSize_loop _ _ _ _ _ this) as [[[h c] st] m|e m|] eqn:Hloop;
    try discriminate.
  intros [= <- <-].
  destruct (getOriSize_loop_replay _ _ _ _ _ _ _ _ (split_chars_one_char text)
              ltac:(rewrite length_split_chars; exact Hroom) Hloop)
    as [(_ & _ & Hs & Hi) Hreplay].
  rewrite Hi, Hinit. cbn [negb].
  rewrite (Hreplay m (length (JS.split_chars text))
             ltac:(congruence) Hs ltac:(done)).
  reflexivity.
Qed.

(** [detailed_measure_is_memoised] on a text with a character that occurs
    twice. *)
Lemma detailed_measure_is_memoised_witness :
  let this := manager_of (container_of kern_node 3) 500 false in
  ∃ o this',
    getOriSize "abca" true this = Ret (Val o) this'
    ∧ getOriSize "abca" true this' = Ret (Val o) this'
    ∧ (OriSize.width o == 47)%Q.
Proof.
  intros this.
  assert (Hroom : cache_room (2 * String.length "abca") this)
    by (unfold cache_room; cbn; discriminate).
  destruct (getOriSize "abca" true this) as [[|o] this'|e m|] eqn:Hcall;
    [vm_compute in Hcall; discriminate| |vm_compute in Hcall; discriminate..].
  exists o, this'. split; [reflexivity|].
  split; [exact (detailed_measure_is_memoised "abca" this this' o Hroom Hcall)|].
  vm_compute in Hcall. injection Hcall as <- _. reflexivity.
Defined.

(** ** The text of a wrapped result *)

Lemma split_chars_substring_from (n m : nat) (s : string) :
  JS.split_chars (String.substring n m s) = take m (drop n (JS.split_chars s)).
Proof.
  revert s. induction n as [|n IH]; intros s.
  - apply split_chars_substring.
  - destruct s as [|c s]; [destruct m; reflexivity|]. cbn. apply IH.
Qed.

Lemma lastIndexOf_from_spec (c : ascii) (s : string) (pos found r : Z) :
  JS.lastIndexOf_from c s pos found = r →
  r = found
  ∨ ∃ p, r = (pos + Z.of_nat p)%Z
         ∧ JS.split_chars s !! p = Some (String c "").
Proof.
  revert pos found. induction s as [|d s IH]; intros pos found; cbn.
  - intros <-. by left.
  - intros Hr. destruct (IH _ _ Hr) as [->|(p & -> & Hp)].
    + destruct (Ascii.eqb_spec c d) as [->|_]; [|by left].
      right. exists 0. split; [lia|reflexivity].
    + right. exists (S p). split; [lia|exact Hp].
Qed.

(** The index [lastIndexOf] finds, when it finds one, is the index of an
    occurrence of the character. *)
Lemma lastIndexOf_spec (s : string) (c : ascii) (lower : Z) :
  (-1 <= lower)%Z → (lower < JS.lastIndexOf s c)%Z →
  ∃ p, JS.lastIndexOf s c = Z.of_nat p
       ∧ JS.split_chars s !! p = Some (String c "").
Proof.
  intros Hlow Hlt. unfold JS.lastIndexOf in *.
  destruct (lastIndexOf_from_spec c s 0 (-1) _ eq_refl) as [Heq|(p & Heq & Hp)].
  - lia.
  - exists p. split; [rewrite Heq; lia|exact Hp].
Qed.

Lemma splice1_insert {A} (a : list A) (p : nat) (v : A) :
  p < length a → JS.splice1 a p v = <[p := v]> a.
Proof.
  intros Hp. unfold JS.splice1. revert p Hp.
  induction a as [|x a IH]; intros p Hp; [cbn in Hp; lia|].
  destruct p as [|p]; [reflexivity|]. cbn. f_equal. apply IH. cbn in Hp. lia.
Qed.

Lemma piece_of_refl (c : string) : piece_of c c.
Proof. by left. Qed.

Lemma Forall2_piece_refl (l : list string) : Forall2 piece_of l l.
Proof. induction l; constructor; [apply piece_of_refl|assumption]. Qed.

(** Putting a piece in the place of a character keeps the pieces in
    step with the characters. *)
Lemma Forall2_piece_splice (a chars : list string) (p : nat) (e c : string) :
  Forall2 piece_of a chars → chars !! p = Some c → piece_of e c →
  Forall2 piece_of (JS.splice1 a p e) chars.
Proof.
  intros Hall Hp He.
  assert (Hlen : p < length a).
  { rewrite (Forall2_length _ _ _ Hall). eapply lookup_lt_Some, Hp. }
  rewrite splice1_insert by exact Hlen.
  rewrite <- (list_insert_id chars p c Hp).
  apply Forall2_insert; assumption.
Qed.

Section WrapText.

Variable L : Lib.
Variable getWidth : option string → Q.
Variable detailObj : option (gmap string Q).
Variable text_ : string.
Variables maxWidth_ maxHeight_ lineHeight_ : Q.
Variable context_ : bool.
Variable smartLabel : SmartLabel.
Variable maxWidthWithEll : Q.
Variable ellipsesStr : string.

Local Abbreviation chars := (oriTextArr text_).

Lemma chars_at (i : nat) :
  i < len text_ → chars !! i = Some (oriTextArr_at text_ i).
Proof.
  intros Hi. unfold oriTextArr_at.
  destruct (lookup_lt_is_Some_2 chars i Hi) as [x ->]. reflexivity.
Qed.

Lemma array_set_append (tempArr : list string) (v : string) :
  JS.array_set tempArr (length tempArr) v = tempArr ++ [v].
Proof.
  unfold JS.array_set. rewrite Nat.ltb_irrefl, Nat.sub_diag. reflexivity.
Qed.

(** A break keeps one piece for each character read. *)
Lemma wrap_break_pieces (i : nat) (tempArr : list string) (lib : Z) :
  i < len text_ → Forall2 piece_of tempArr (take (S i) chars) →
  (-1 <= lib)%Z →
  let b := wrap_break getWidth text_ i tempArr lib in
  Forall2 piece_of (br_tempArr b) (take (S i) chars)
  ∧ (-1 <= br_lastIndexBroken b)%Z.
Proof.
  intros Hi Hall Hlib.
  assert (Hlen : length tempArr = S i).
  { rewrite (Forall2_length _ _ _ Hall), length_take. unfold len in Hi. lia. }
  assert (Hsub : JS.split_chars (JS.substr text_ 0 (Z.of_nat (length tempArr)))
                 = take (S i) chars).
  { unfold JS.substr. rewrite Nat2Z.id, Hlen. apply split_chars_substring. }
  unfold wrap_break. cbv zeta.
  destruct (lib <? JS.lastIndexOf _ " ")%Z eqn:Hsp.
  - apply Z.ltb_lt in Hsp.
    destruct (lastIndexOf_spec _ _ lib Hlib Hsp) as (p & Hp & Hchar).
    rewrite Hsub in Hchar. cbn [br_tempArr br_lastIndexBroken].
    rewrite Hp, Nat2Z.id. split; [|lia].
    eapply Forall2_piece_splice; [exact Hall|exact Hchar|].
    right. left. done.
  - destruct (lib <? JS.lastIndexOf _ "-")%Z eqn:Hd.
    + apply Z.ltb_lt in Hd.
      destruct (lastIndexOf_spec _ _ lib Hlib Hd) as (p & Hp & Hchar).
      rewrite Hsub in Hchar.
      destruct (_ =? _)%Z; cbn [br_tempArr br_lastIndexBroken];
        rewrite Hp, Nat2Z.id; (split; [|lia]);
        (eapply Forall2_piece_splice; [exact Hall|exact Hchar|]);
        right; right; left; split; [done|by left|done|by right].
    + cbn [br_tempArr br_lastIndexBroken].
      assert (Hpieces : Forall2 piece_of
                (JS.splice1 tempArr (length tempArr - 1)
                   ("<br/>" +:+ oriTextArr_at text_ i)) (take (S i) chars)).
      { eapply Forall2_piece_splice; [exact Hall| |].
        - rewrite Hlen. replace (S i - 1) with i by lia.
          rewrite lookup_take_lt by lia. by apply chars_at.
        - right. right. right. reflexivity. }
      split; [exact Hpieces|].
      rewrite (Forall2_length _ _ _ Hpieces), length_take.
      unfold len in Hi. lia.
Qed.

Lemma set_trimStr_pieces (trimStr : option string) (tempArr : list string)
    (i : nat) :
  Forall2 piece_of tempArr (take i chars) →
  (∀ s, trimStr = Some s → pieces_upto text_ i s) →
  ∀ x, pieces_upto text_ i
         (set_trimStr trimStr (tempArr ++ [x])).
Proof.
  intros Hall Htrim x. unfold set_trimStr.
  assert (Hslice : pieces_upto text_ i
                     (JS.join (JS.slice (tempArr ++ [x]) 0 (-1)))).
  { exists tempArr, i. split; [lia|]. split; [|exact Hall].
    rewrite slice_all_but_last, length_app. cbn [length].
    replace (length tempArr + 1 - 1) with (length tempArr) by lia.
    rewrite take_app_length. reflexivity. }
  destruct trimStr as [[|c s]|]; [exact Hslice| |exact Hslice].
  apply Htrim. reflexivity.
Qed.

Lemma pieces_upto_le (i j : nat) (s : string) :
  i ≤ j → pieces_upto text_ i s → pieces_upto text_ j s.
Proof.
  intros Hle (pieces & k & Hk & Hs & Hall). exists pieces, k.
  split; [lia|]. split; assumption.
Qed.

(** One iteration keeps the invariant, and when it returns, it returns
    pieces of the characters read, trimmed, and the ellipsis. *)
Lemma wrap_step_text (st : WrapState) (this this' : Manager)
    (r : SmartLabel + WrapState) :
  wrap_inv text_ st → w_i st < len text_ →
  wrap_step L getWidth detailObj text_ maxWidth_ maxHeight_ lineHeight_
    context_ smartLabel maxWidthWithEll ellipsesStr st this = Ret r this' →
  match r with
  | inr st' => wrap_inv text_ st'
  | inl sl =>
      tooltext sl = Some (oriText smartLabel)
      ∧ ∃ s, pieces_upto text_ (w_i st) s
             ∧ text sl = (JS.fastTrim s +:+ ellipsesStr)%string
  end.
Proof.
  intros (Hlen & Hle & Hall & Hlib & Htrim) Hi.
  unfold wrap_step, bind.
  destruct (charWidth _ _ _ this) as [w m|e m|]; try discriminate.
  rewrite Hlen, array_set_append. rewrite <- Hlen.
  set (x := oriTextArr_at text_ (w_i st)).
  assert (Hall1 : Forall2 piece_of (w_tempArr st ++ [x]) (take (S (w_i st)) chars)).
  { rewrite (take_S_r _ _ x) by (by apply chars_at).
    apply Forall2_app; [exact Hall|]. constructor; [apply piece_of_refl|constructor]. }
  assert (Hlen1 : length (w_tempArr st ++ [x]) = S (w_i st))
    by (rewrite length_app; cbn; lia).
  pose proof (set_trimStr_pieces (w_trimStr st) (w_tempArr st) (w_i st)
                Hall Htrim x) as Htrim1.
  destruct (Qgtb _ maxWidthWithEll).
  2:{ intros [= <- <-]. unfold wrap_inv. cbn.
      split; [lia|]. split; [lia|]. split; [exact Hall1|]. split; [exact Hlib|].
      intros s Hs. eapply pieces_upto_le; [|by apply Htrim]. lia. }
  destruct (Qgtb _ maxWidth_).
  2:{ intros [= <- <-]. unfold wrap_inv. cbn.
      split; [lia|]. split; [lia|]. split; [exact Hall1|]. split; [exact Hlib|].
      intros s [= <-]. eapply pieces_upto_le; [|exact Htrim1]. lia. }
  destruct (wrap_break_pieces (w_i st) (w_tempArr st ++ [x])
              (w_lastIndexBroken st) Hi Hall1 Hlib) as [Hallb Hlibb].
  destruct (Qgtb _ maxHeight_).
  { intros [= <- <-]. cbn. split; [reflexivity|].
    eexists. split; [exact Htrim1|reflexivity]. }
  intros [= <- <-]. unfold wrap_continue.
  set (b := wrap_break getWidth text_ (w_i st) (w_tempArr st ++ [x])
              (w_lastIndexBroken st)) in *.
  assert (Hlenb : length (br_tempArr b) = S (w_i st)).
  { rewrite (Forall2_length _ _ _ Hallb), length_take. unfold len in Hi. lia. }
  destruct (_ <? _)%Z; unfold wrap_inv; cbn.
  - set (extra := JS.split_chars (JS.substr text_ (length (br_tempArr b)) _)).
    assert (Hextra : ∃ c, extra = take c (drop (S (w_i st)) chars)).
    { eexists. unfold extra, JS.substr. rewrite Hlenb.
      apply split_chars_substring_from. }
    destruct Hextra as [c Hextra].
    assert (Hall2 : Forall2 piece_of (br_tempArr b ++ extra)
                      (take (S (w_i st) + c) chars)).
    { rewrite <- take_take_drop, Hextra.
      apply Forall2_app; [exact Hallb|apply Forall2_piece_refl]. }
    assert (Hlen2 : length (br_tempArr b ++ extra)
                    = Nat.min (S (w_i st) + c) (len text_))
      by (rewrite (Forall2_length _ _ _ Hall2), length_take; reflexivity).
    assert (Hpos : 0 < length (br_tempArr b ++ extra))
      by (rewrite length_app, Hlenb; lia).
    replace (S (length (br_tempArr b ++ extra) - 1))
      with (length (br_tempArr b ++ extra)) by lia.
    split; [reflexivity|]. split; [lia|]. split; [|split; [exact Hlibb|done]].
    rewrite Hlen2.
    destruct (Nat.le_ge_cases (S (w_i st) + c) (len text_)) as [H1|H1].
    + rewrite Nat.min_l by exact H1. exact Hall2.
    + rewrite Nat.min_r by exact H1. unfold len.
      rewrite take_ge by lia. rewrite take_ge in Hall2 by (unfold len in H1; lia).
      exact Hall2.
  - split; [lia|]. split; [lia|]. split; [exact Hallb|]. split; [exact Hlibb|done].
Qed.

(** What the wrap loop returns: a piece for each character of the text, or
    pieces of a prefix that stops before the last character, trimmed and
    followed by the ellipsis. *)
Lemma wrap_loop_text (fuel : nat) (st : WrapState) (this this' : Manager)
    (sl : SmartLabel) :
  wrap_inv text_ st →
  wrap_loop L getWidth detailObj text_ maxWidth_ maxHeight_ lineHeight_
    context_ smartLabel maxWidthWithEll ellipsesStr fuel st this
    = Ret sl this' →
  (tooltext sl = tooltext smartLabel
   ∧ ∃ pieces, text sl = JS.join pieces ∧ Forall2 piece_of pieces chars)
  ∨ (tooltext sl = Some (oriText smartLabel)
     ∧ ∃ pieces k,
         k < len text_
         ∧ text sl = (JS.fastTrim (JS.join pieces) +:+ ellipsesStr)%string
         ∧ Forall2 piece_of pieces (take k chars)).
Proof.
  revert st this.
  assert (Hend : ∀ st this, wrap_inv text_ st → (len text_ <=? w_i st) = true →
            Ret (with_size (js_max (w_maxStrWidth st) (w_strWidth st))
                   (w_strHeight st)
                   (with_text (JS.join (w_tempArr st)) smartLabel)) this
            = Ret sl this' →
            tooltext sl = tooltext smartLabel
            ∧ ∃ pieces, text sl = JS.join pieces ∧ Forall2 piece_of pieces chars).
  { intros st this (_ & Hle & Hall & _) Hge [= <- <-]. cbn.
    split; [reflexivity|]. exists (w_tempArr st). split; [reflexivity|].
    apply Nat.leb_le in Hge. rewrite take_ge in Hall by (unfold len in *; lia).
    exact Hall. }
  induction fuel as [|fuel IH]; intros st this Hinv; cbn [wrap_loop];
    destruct (len text_ <=? w_i st) eqn:Hge;
    try (intros H; left; exact (Hend st this Hinv Hge H));
    [discriminate|].
  apply Nat.leb_gt in Hge. unfold bind.
  destruct (wrap_step _ _ _ _ _ _ _ _ _ _ _ st this) as [[res|st1] m|e m|] eqn:Hs;
    try discriminate.
  - intros [= <- <-]. right.
    destruct (wrap_step_text st this m (inl res) Hinv Hge Hs)
      as (Htool & s & (pieces & k & Hk & -> & Hall) & Htext).
    split; [exact Htool|]. exists pieces, k. split; [lia|].
    split; [exact Htext|exact Hall].
  - apply IH. exact (wrap_step_text st this m (inr st1) Hinv Hge Hs).
Qed.

End WrapText.

(** X25. Wrapping keeps the characters: when [getSmartText] wraps ([noWrap]
    false), the text returned is the text as given (when it fits as it is,
    or when there is no container), the empty text (when nothing fits), or
    it is made of pieces, one for each character of the normalised text in
    order, each piece being the character itself, [<br/>] in the place of a
    space, [<br/>-] or [-<br/>] in the place of a hyphen, or [<br/>]
    followed by the character. When the height runs out, the pieces are
    those of a prefix that stops before the last character, trimmed and
    followed by the ellipsis, and the tooltip is the text given. This holds
    whatever the break index of the library returns. *)
Theorem wrap_text_keeps_the_characters (L : Lib) (text_arg : jsval)
    (mw mh : Q) (this this' : Manager) (sl : SmartLabel)
    (Hret : getSmartText L text_arg mw mh false this = Ret (Val sl) this') :
  let given := text_of_arg text_arg in
  let normal := normalise given in
  text sl = given
  ∨ text sl = ""%string
  ∨ (tooltext sl = None
     ∧ ∃ pieces, text sl = JS.join pieces
                 ∧ Forall2 piece_of pieces (JS.split_chars normal))
  ∨ (tooltext sl = Some given
     ∧ ∃ pieces k ell,
         k < String.length normal
         ∧ text sl = (JS.fastTrim (JS.join pieces) +:+ ell)%string
         ∧ Forall2 piece_of pieces (take k (JS.split_chars normal))
         ∧ ell ∈ ["..."; ".."; "."; ""]%string
         ∧ (default false (_showNoEllipses this) = true → ell = ""%string)).
Proof.
  intros given normal.
  destruct (getSmartText_inv _ _ _ _ _ _ _ _ Hret)
    as [Hinit [[Hnone ->]|(sCont & container & lh & hasTag & ori & this1
                        & HsCont & Hcont & Hlh & Hori)]]; [by left|].
  rewrite (getSmartText_measured _ _ _ _ _ _ _ _ _ _ _ _ Hinit HsCont Hcont Hlh Hori)
    in Hret.
  destruct (fits ori mw _).
  { injection Hret as <- _. left. destruct ori as [[[ow oh] d]|]; reflexivity. }
  destruct (negb (isBrowserLess L) && Qgtb lh _).
  { injection Hret as <- _. right. left.
    destruct ori as [[[ow oh] d]|]; reflexivity. }
  destruct hasTag; [discriminate|].
  destruct (plainText _ _ _ _ _ _ _ _ _ _ _ _ _ this1) as [r this2|e m|] eqn:Hplain;
    try discriminate.
  injection Hret as <- _. fold given normal in Hplain.
  revert Hplain. unfold plainText, bind.
  destruct (firstCharWidth _ normal this1) as [w m|e m|]; try discriminate.
  destruct (ellipsis_budget _ _ _ _ _ _ _ _) as [[[tempArr mwe] ell]|] eqn:Hbudget.
  2:{ intros [= <- <-]. right. left.
      destruct ori as [[[ow oh] d]|]; reflexivity. }
  destruct (ellipsis_budget_ellipsis _ _ _ _ _ _ _ _ _ _ _ Hbudget)
    as (Hell & Hnoell & m0 & ->).
  intros Hloop.
  apply wrap_loop_text in Hloop.
  - destruct Hloop as [[Htool (pieces & Htext & Hall)]
                      |[Htool (pieces & k & Hk & Htext & Hall)]].
    + right. right. left.
      split; [rewrite Htool; destruct ori as [[[ow oh] d]|]; reflexivity|].
      exists pieces. split; [exact Htext|exact Hall].
    + right. right. right.
      split; [rewrite Htool; destruct ori as [[[ow oh] d]|]; reflexivity|].
      exists pieces, k, ell.
      split; [unfold len, oriTextArr in Hk; rewrite length_split_chars in Hk;
              exact Hk|].
      split; [exact Htext|]. split; [exact Hall|].
      split; [exact Hell|exact Hnoell].
  - unfold wrap_inv. cbn. split; [reflexivity|].
    split; [unfold len; rewrite length_take; lia|].
    split; [|split; [lia|]].
    + rewrite length_take.
      destruct (Nat.le_ge_cases m0 (length (oriTextArr normal))) as [H1|H1].
      * rewrite Nat.min_l by exact H1. apply Forall2_piece_refl.
      * rewrite Nat.min_r by exact H1. rewrite !take_ge by lia.
        apply Forall2_piece_refl.
    + intros s [= <-]. exists [], 0. split; [lia|]. split; [reflexivity|].
      constructor.
Qed.

(** [wrap_text_keeps_the_characters] on a text that wraps at its space. *)
Lemma wrap_text_keeps_the_characters_witness :
  let L := lib_of (fun _ _ _ => 0%Z) in
  let this := manager_of (container_of mono_node 3) 500 false in
  ∃ sl this' pieces,
    getSmartText L (JStr "Hello World") (17 # 2) 50 false this
      = Ret (Val sl) this'
    ∧ text sl = "Hello<br/>World"%string
    ∧ text sl = JS.join pieces
    ∧ Forall2 piece_of pieces (JS.split_chars "Hello World").
Proof.
  intros L this.
  destruct (getSmartText L (JStr "Hello World") (17 # 2) 50 false this)
    as [[|sl] this'|e m|] eqn:Hret;
    [vm_compute in Hret; discriminate| |vm_compute in Hret; discriminate..].
  assert (Hcomputed : text sl = "Hello<br/>World"%string ∧ tooltext sl = None).
  { pose proof Hret as Hc. vm_compute in Hc. injection Hc as <- _.
    split; reflexivity. }
  destruct Hcomputed as [Htext Htool].
  destruct (wrap_text_keeps_the_characters L _ _ _ this this' sl Hret)
    as [H|[H|[[_ (pieces & Hjoin & Hall)]|[H _]]]];
    try (rewrite Htext in H; discriminate);
    try (rewrite Htool in H; discriminate).
  exists sl, this', pieces. split; [reflexivity|]. split; [exact Htext|].
  split; [exact Hjoin|exact Hall].
Defined.

(** ** The width of a result on one line *)

(** The budget left by the ellipsis is within the bound, when the bound and
    the widths of the ellipsis and of the dot are not negative. *)
Lemma ellipsis_budget_le (L : Lib) (text_ : string) (maxWidth_ : Q)
    (showNoEllipses : bool) (ellipsesWidth_ dotWidth_ minWidth : Q)
    (this : Manager) (tempArr : list string) (mwe : Q) (ell : string) :
  (0 <= maxWidth_)%Q → (0 <= ellipsesWidth_)%Q → (0 <= dotWidth_)%Q →
  ellipsis_budget L text_ maxWidth_ showNoEllipses ellipsesWidth_ dotWidth_
    minWidth this = Some (tempArr, mwe, ell) →
  (mwe <= maxWidth_)%Q.
Proof.
  intros Hmw Hew Hdw. unfold ellipsis_budget.
  assert (Hsub : ∀ x, (0 <= x)%Q → (maxWidth_ - x <= maxWidth_)%Q).
  { intros x Hx. rewrite <- (Qplus_0_r maxWidth_) at 2.
    unfold Qminus. apply Qplus_le_r.
    apply (Qopp_le_compat 0 x) in Hx. exact Hx. }
  assert (Hfirst : ((if showNoEllipses then maxWidth_
                     else maxWidth_ - ellipsesWidth_) <= maxWidth_)%Q)
    by (destruct showNoEllipses; [apply Qle_refl|by apply Hsub]).
  destruct (Qgtb _ minWidth); [intros [= _ <- _]; exact Hfirst|].
  destruct (Qgtb minWidth maxWidth_); [discriminate|].
  destruct (negb _); [|intros [= _ <- _]; exact Hfirst].
  destruct (Qgtb _ minWidth).
  { intros [= _ <- _]. apply Hsub.
    apply Qmult_le_0_compat; [discriminate|exact Hdw]. }
  destruct (Qgtb _ minWidth); intros [= _ <- _]; [by apply Hsub|exact Hmw].
Qed.

(** X26. On one line ([noWrap]), a result that is not truncated is not wider
    than [maxWidth]: when [maxWidth] and the widths of the ellipsis and of
    the dot are not negative, and the prefix the library takes at once
    (through its break index) is never the whole normalised text, every
    label returned without error, without tooltip and with a text that is
    not empty has a width of at most [maxWidth]. *)
Theorem nowrap_untruncated_width_within_bound (L : Lib) (text_arg : jsval)
    (mw mh : Q) (this this' : Manager) (sl : SmartLabel) (sCont : ContainerObj)
    (Hret : getSmartText L text_arg mw mh true this = Ret (Val sl) this')
    (HsCont : _containerObj this = Some sCont)
    (Hmw : (0 <= mw)%Q)
    (Hew : (0 <= ellipsesWidth sCont)%Q) (Hdw : (0 <= dotWidth sCont)%Q)
    (Hprefix : ∀ q m,
       (getNearestBreakIndex L (normalise (text_of_arg text_arg)) q m
        < Z.of_nat (String.length (normalise (text_of_arg text_arg))))%Z)
    (Herror : error sl = None) (Htool : tooltext sl = None)
    (Hne : text sl ≠ ""%string) :
  ∃ w, width sl = Some w ∧ (w <= mw)%Q.
Proof.
  destruct (getSmartText_inv _ _ _ _ _ _ _ _ Hret)
    as [Hinit [[Hnone ->]|(sCont' & container & lh & hasTag & ori & this1
                        & HsCont' & Hcont & Hlh & Hori)]]; [discriminate|].
  rewrite HsCont in HsCont'. injection HsCont' as <-.
  rewrite (getSmartText_measured _ _ _ _ _ _ _ _ _ _ _ _ Hinit HsCont Hcont Hlh Hori)
    in Hret.
  destruct (fits ori mw _) eqn:Hfits.
  { injection Hret as <- _. destruct ori as [[[ow oh] d]|]; [|discriminate].
    cbn in *. apply andb_prop in Hfits as [_ Hw]. apply Qle_bool_iff in Hw.
    eexists. split; [reflexivity|exact Hw]. }
  destruct (negb (isBrowserLess L) && Qgtb lh _).
  { injection Hret as <- _. exfalso. apply Hne.
    destruct ori as [[[ow oh] d]|]; reflexivity. }
  destruct hasTag; [discriminate|].
  destruct (plainText _ _ _ _ _ _ _ _ _ _ _ _ _ this1) as [r this2|e m|] eqn:Hplain;
    try discriminate.
  injection Hret as <- _.
  set (normal := normalise (text_of_arg text_arg)) in *.
  set (sl0 := measuredLabel ori (initialLabel (text_of_arg text_arg) mw mh)) in *.
  assert (Htool0 : tooltext sl0 = None)
    by (unfold sl0; destruct ori as [[[ow oh] d]|]; reflexivity).
  revert Hplain. unfold plainText, bind.
  destruct (firstCharWidth _ normal this1) as [w m|e m|] eqn:Hfirst;
    try discriminate.
  destruct (firstCharWidth_cache _ _ _ _ _ Hfirst) as (c0 & _ & _ & c1 & Hc1).
  destruct (ellipsis_budget _ _ _ _ _ _ _ _) as [[[tempArr mwe] ell]|] eqn:Hbudget.
  2:{ intros [= <- <-]. exfalso. apply Hne.
      unfold sl0. destruct ori as [[[ow oh] d]|]; reflexivity. }
  pose proof (ellipsis_budget_le _ _ _ _ _ _ _ _ _ _ _ Hmw Hew Hdw Hbudget) as Hle.
  assert (Hshort : length tempArr ≤ len normal
                   ∧ (normal ≠ ""%string → length tempArr < len normal)
                   ∧ tempArr = take (length tempArr) (oriTextArr normal)).
  { revert Hbudget. unfold ellipsis_budget.
    assert (Hnil : length (@nil string) ≤ len normal
                   ∧ (normal ≠ ""%string → length (@nil string) < len normal)
                   ∧ @nil string = take (length (@nil string)) (oriTextArr normal)).
    { cbn. split; [lia|]. split; [|reflexivity].
      intros Hn. unfold len, oriTextArr. rewrite length_split_chars.
      destruct normal; [done|cbn; lia]. }
    destruct (Qgtb _ w).
    - intros [= <- _ _]. unfold JS.substr.
      rewrite split_chars_substring, length_take.
      set (k := Z.to_nat _).
      assert (Hk : normal ≠ ""%string → k < len normal).
      { intros Hn. unfold k, len, oriTextArr. rewrite length_split_chars.
        match goal with
        | |- Z.to_nat (getNearestBreakIndex L normal ?q ?m) < _ =>
            pose proof (Hprefix q m) as Hp
        end.
        fold normal in Hp.
        assert (0 < String.length normal) by (destruct normal; [done|cbn; lia]).
        lia. }
      unfold len, oriTextArr in *.
      split; [lia|]. split; [intros Hn; specialize (Hk Hn); lia|].
      destruct (decide (k ≤ length (JS.split_chars normal))) as [Hk'|Hk'].
      + rewrite Nat.min_l by exact Hk'. reflexivity.
      + rewrite Nat.min_r by lia. rewrite !take_ge by lia. reflexivity.
    - destruct (Qgtb w mw); [discriminate|].
      destruct (negb _); [|intros [= <- _ _]; exact Hnil].
      destruct (Qgtb _ w); [intros [= <- _ _]; exact Hnil|].
      destruct (Qgtb _ w); intros [= <- _ _]; exact Hnil. }
  destruct Hshort as (Hlen & Hlt & Htake).
  intros Hloop.
  assert (Hnormal : text r = normal).
  { pose proof Hloop as Hloop'. revert Hloop'.
    remember (length tempArr) as i eqn:Hi. rewrite Htake.
    change (Some ""%string) with (Some (JS.join (take 0 (oriTextArr normal)))).
    intros Hloop'.
    eapply (nowrap_loop_text _ _ _ _ _ _ _ _ (len normal - i) i 0) in Hloop';
      [|lia|lia].
    destruct Hloop' as [[Ht _]|(k' & _ & _ & Ht)]; [exact Ht|].
    rewrite Ht in Htool. discriminate. }
  apply (nowrap_width_within_bound _ _ _ _ _ _ _ _ _ _ _ _ _ _ _ c1 _
           Hc1) in Hloop; [exact Hloop| |exact Hle|exact Htool0|exact Htool].
  assert (Hn : normal ≠ ""%string) by (rewrite <- Hnormal; exact Hne).
  specialize (Hlt Hn). lia.
Qed.

(** [nowrap_untruncated_width_within_bound] on a text that the budget of
    the ellipsis does not hold and the bound does. *)
Lemma nowrap_untruncated_width_within_bound_witness :
  let L := lib_of (fun _ _ _ => 0%Z) in
  let co := container_of tall_node (11 # 2) in
  let this := manager_of co 500 false in
  ∃ sl this' w,
    getSmartText L (JStr "Hello") 6 (21 # 2) true this = Ret (Val sl) this'
    ∧ text sl = "Hello"%string
    ∧ width sl = Some w ∧ (w <= 6)%Q.
Proof.
  intros L co this.
  destruct (getSmartText L (JStr "Hello") 6 (21 # 2) true this)
    as [[|sl] this'|e m|] eqn:Hret;
    [vm_compute in Hret; discriminate| |vm_compute in Hret; discriminate..].
  assert (Hcomputed : text sl = "Hello"%string ∧ tooltext sl = None
                      ∧ error sl = None).
  { pose proof Hret as Hc. vm_compute in Hc. injection Hc as <- _.
    repeat split. }
  destruct Hcomputed as (Htext & Htool & Herr).
  destruct (nowrap_untruncated_width_within_bound L (JStr "Hello") 6 (21 # 2)
              this this' sl co Hret eq_refl ltac:(discriminate)
              ltac:(discriminate) ltac:(discriminate)
              ltac:(intros q m; reflexivity) Herr Htool
              ltac:(rewrite Htext; discriminate)) as (w & Hw & Hle).
  exists sl, this', w. split; [reflexivity|]. split; [exact Htext|].
  split; [exact Hw|exact Hle].
Defined.

(** ** The height that runs out *)

Section WrapHeight.

Variable L : Lib.
Variable getWidth : option string → Q.
Variable detailObj : option (gmap string Q).
Variable text_ : string.
Variables maxWidth_ maxHeight_ lineHeight_ : Q.
Variable context_ : bool.
Variable smartLabel : SmartLabel.
Variable maxWidthWithEll : Q.
Variable ellipsesStr : string.

Local Abbreviation step :=
  (wrap_step L getWidth detailObj text_ maxWidth_ maxHeight_ lineHeight_
     context_ smartLabel maxWidthWithEll ellipsesStr).
Local Abbreviation loop :=
  (wrap_loop L getWidth detailObj text_ maxWidth_ maxHeight_ lineHeight_
     context_ smartLabel maxWidthWithEll ellipsesStr).



End WrapHeight.



(** ** The soft overflow on one line *)






(** ** The lines of [textToLines] *)

Lemma str_app_inv_length (s1 t1 s2 t2 : string) :
  (s1 +:+ t1 = s2 +:+ t2)%string → String.length s1 = String.length s2 →
  s1 = s2 ∧ t1 = t2.
Proof.
  revert s2. induction s1 as [|c s1 IH]; intros [|d s2] Heq Hlen;
    try discriminate.
  - rewrite !str_app_nil_l in Heq. done.
  - rewrite !str_app_cons in Heq. injection Heq as -> Heq.
    cbn in Hlen. destruct (IH s2 Heq ltac:(lia)) as [-> ->]. done.
Qed.

(** Of two ways to cut a string, the shorter first part starts the longer
    one. *)
Lemma str_app_inv_le (s1 t1 s2 t2 : string) :
  (s1 +:+ t1 = s2 +:+ t2)%string → String.length s1 ≤ String.length s2 →
  ∃ m, s2 = (s1 +:+ m)%string ∧ t1 = (m +:+ t2)%string.
Proof.
  revert s2. induction s1 as [|c s1 IH]; intros s2 Heq Hlen.
  - exists s2. rewrite str_app_nil_l in Heq. done.
  - destruct s2 as [|d s2]; [cbn in Hlen; lia|].
    rewrite !str_app_cons in Heq. injection Heq as -> Heq.
    cbn in Hlen. destruct (IH s2 Heq ltac:(lia)) as (m & -> & ->).
    exists m. done.
Qed.

Lemma match_br_tail_separator (s : string) (k : nat) :
  JS.match_br_tail s = Some k →
  ∃ ws slash rest,
    s = (ws +:+ slash +:+ ">" +:+ rest)%string
    ∧ all_ws ws = true ∧ (slash = "" ∨ slash = "/")%string
    ∧ k = String.length (ws +:+ slash +:+ ">").
Proof.
  revert k. induction s as [|c s IH]; intros k; [discriminate|].
  cbn [JS.match_br_tail]. destruct (JS.is_ws c) eqn:Hws.
  - destruct (JS.match_br_tail s) as [k0|]; [|discriminate].
    intros [= <-]. destruct (IH k0 eq_refl) as (ws & slash & rest & -> & Hall & Hsl & ->).
    exists (String c ws), slash, rest. cbn [all_ws]. rewrite Hws, Hall.
    rewrite !str_app_cons. done.
  - destruct (Ascii.eqb_spec c "/") as [->|Hsl].
    + destruct s as [|d s]; [discriminate|].
      destruct (Ascii.eqb_spec d ">") as [->|Hgt]; [|discriminate].
      intros [= <-]. exists ""%string, "/"%string, s. repeat split. by right.
    + destruct (Ascii.eqb_spec c ">") as [->|Hgt]; [|discriminate].
      intros [= <-]. exists ""%string, ""%string, s. repeat split. by left.
Qed.

Lemma all_ws_match_br_tail (ws tail : string) :
  all_ws ws = true →
  JS.match_br_tail (ws +:+ tail)
  = (fun k => String.length ws + k) <$> JS.match_br_tail tail.
Proof.
  intros Hall. induction ws as [|c ws IH].
  - rewrite str_app_nil_l. destruct (JS.match_br_tail tail); reflexivity.
  - cbn [all_ws] in Hall. apply andb_prop in Hall as [Hc Hall].
    rewrite str_app_cons. cbn [JS.match_br_tail String.length].
    rewrite Hc, (IH Hall). destruct (JS.match_br_tail tail); reflexivity.
Qed.

(** The matcher finds the separators, and nothing else. *)
Lemma match_sep_separator (s : string) (n : nat) :
  JS.match_sep s = Some n →
  ∃ sp rest, s = (sp +:+ rest)%string ∧ String.length sp = n ∧ separator sp.
Proof.
  destruct s as [|c s]; [discriminate|]. cbn [JS.match_sep].
  destruct (Ascii.eqb_spec c "010") as [->|Hnl].
  { intros [= <-]. exists (String "010" ""), s. repeat split. by left. }
  destruct (Ascii.eqb_spec c "<") as [->|Hlt]; [|discriminate].
  destruct s as [|b [|r s]]; try discriminate.
  destruct (JS.is_b b && JS.is_r r) eqn:Hbr; [|discriminate].
  apply andb_prop in Hbr as [Hb Hr].
  destruct (JS.match_br_tail s) as [k|] eqn:Hk; [|discriminate].
  intros [= <-].
  destruct (match_br_tail_separator s k Hk)
    as (ws & slash & rest & -> & Hall & Hsl & ->).
  exists (String "<" (String b (String r ws)) +:+ slash +:+ ">")%string, rest.
  split; [rewrite !str_app_cons, !str_app_assoc; reflexivity|].
  split; [rewrite !str_app_cons; reflexivity|].
  right. exists b, r, ws, slash. split; [reflexivity|].
  split; [|split; [|split; assumption]].
  - unfold JS.is_b in Hb. apply orb_prop in Hb as [H|H];
      apply Ascii.eqb_eq in H; [by left|by right].
  - unfold JS.is_r in Hr. apply orb_prop in Hr as [H|H];
      apply Ascii.eqb_eq in H; [by left|by right].
Qed.

Lemma separator_match_sep (sp rest : string) :
  separator sp → JS.match_sep (sp +:+ rest) = Some (String.length sp).
Proof.
  intros [->|(b & r & ws & slash & -> & Hb & Hr & Hall & Hsl)]; [reflexivity|].
  assert (Hbr : JS.is_b b && JS.is_r r = true).
  { unfold JS.is_b, JS.is_r.
    destruct Hb as [-> | ->], Hr as [-> | ->]; reflexivity. }
  rewrite !str_app_cons, !str_app_assoc. cbn [JS.match_sep].
  change (Ascii.eqb "<" "010") with false. change (Ascii.eqb "<" "<") with true.
  cbn match. rewrite Hbr, (all_ws_match_br_tail ws _ Hall).
  cbn [String.length]. rewrite !str_length_app.
  destruct Hsl as [-> | ->]; cbn; f_equal; lia.
Qed.

Lemma separator_nonempty (sp : string) : separator sp → sp ≠ ""%string.
Proof. intros [->|(b & r & ws & slash & -> & _)]; discriminate. Qed.

(** The split from the source is the split at the separators. *)
Lemma split_sep_from_spec (n : nat) (s cur : string) :
  String.length s ≤ n →
  (∀ pre sp post,
     (cur +:+ s = pre +:+ sp +:+ post)%string → separator sp →
     String.length cur ≤ String.length pre) →
  split_at_separators (cur +:+ s) (JS.split_sep_from 0 cur s).
Proof.
  revert s cur. induction n as [|n IH]; intros s cur Hlen Hleft.
  - destruct s; [|cbn in Hlen; lia]. cbn. rewrite str_app_nil_r.
    apply split_last. intros pre sp post Heq Hsep.
    specialize (Hleft pre sp post). rewrite str_app_nil_r in Hleft.
    specialize (Hleft Heq Hsep).
    apply (f_equal String.length) in Heq. rewrite !str_length_app in Heq.
    apply separator_nonempty in Hsep. destruct sp; [done|]. cbn in Heq. lia.
  - destruct s as [|c s].
    { cbn. rewrite str_app_nil_r.
      apply split_last. intros pre sp post Heq Hsep.
      specialize (Hleft pre sp post). rewrite str_app_nil_r in Hleft.
      specialize (Hleft Heq Hsep).
      apply (f_equal String.length) in Heq. rewrite !str_length_app in Heq.
      apply separator_nonempty in Hsep. destruct sp; [done|]. cbn in Heq. lia. }
    cbn [String.length] in Hlen. cbn [JS.split_sep_from].
    destruct (JS.match_sep (String c s)) as [k|] eqn:Hm.
    + destruct (match_sep_separator _ _ Hm) as (sp & rest & Heq & Hk & Hsep).
      destruct sp as [|c' sp]; [by apply separator_nonempty in Hsep|].
      rewrite str_app_cons in Heq. injection Heq as <- ->.
      cbn [String.length] in Hk. subst k. cbn [pred].
      rewrite split_sep_from_skip.
      change (String c (sp +:+ rest)) with (String c sp +:+ rest)%string.
      apply split_next; [exact Hsep|exact Hleft|].
      rewrite <- (str_app_nil_l rest) at 1.
      apply IH; [rewrite str_length_app in Hlen; lia|].
      intros; cbn; lia.
    + replace (cur +:+ String c s)%string
        with ((cur +:+ String c "") +:+ s)%string
        by (rewrite str_app_assoc; reflexivity).
      apply IH; [lia|].
      intros pre sp post Heq Hsep.
      rewrite str_app_assoc in Heq. change (String c "" +:+ s)%string
        with (String c s) in Heq.
      pose proof (Hleft pre sp post Heq Hsep) as Hle.
      rewrite str_length_app. cbn [String.length].
      destruct (decide (String.length cur = String.length pre)) as [Hsame|Hne];
        [|lia].
      exfalso. destruct (str_app_inv_length _ _ _ _ Heq Hsame) as [_ Hs].
      rewrite Hs, (separator_match_sep sp post Hsep) in Hm. discriminate.
Qed.

Lemma split_sep_spec (t : string) : split_at_separators t (JS.split_sep t).
Proof.
  rewrite <- (str_app_nil_l t) at 1. unfold JS.split_sep.
  apply (split_sep_from_spec (String.length t)); [done|].
  intros; cbn; lia.
Qed.

(** A separator does not start another one: it ends at its first [>], and a
    line feed is a separator by itself. *)
Lemma separator_prefix_free (sp1 sp2 post1 post2 : string) :
  separator sp1 → separator sp2 →
  (sp1 +:+ post1 = sp2 +:+ post2)%string → sp1 = sp2 ∧ post1 = post2.
Proof.
  intros H1 H2 Heq.
  pose proof (separator_match_sep sp1 post1 H1) as M1.
  pose proof (separator_match_sep sp2 post2 H2) as M2.
  rewrite Heq, M2 in M1. injection M1 as Hlen.
  symmetry in Hlen. exact (str_app_inv_length _ _ _ _ Heq Hlen).
Qed.

(** The split at the separators is unique. *)
Lemma split_at_separators_unique (t : string) (lines1 lines2 : list string) :
  split_at_separators t lines1 → split_at_separators t lines2 →
  lines1 = lines2.
Proof.
  intros H1. revert lines2.
  induction H1 as [t Hno|line sp rest lines Hsep Hleft Hrest IH];
    intros lines2 H2.
  - inversion H2 as [t' Hno'|line' sp' rest' lines' Hsep' Hleft' Hrest' Heq];
      [reflexivity|].
    subst. exfalso. exact (Hno _ _ _ eq_refl Hsep').
  - inversion H2 as [t' Hno'|line' sp' rest' lines' Hsep' Hleft' Hrest' Heq Hl].
    + subst. exfalso. exact (Hno' _ _ _ eq_refl Hsep).
    + subst.
      pose proof (Hleft line' sp' rest' (eq_sym Heq) Hsep') as Hle1.
      pose proof (Hleft' line sp rest Heq Hsep) as Hle2.
      destruct (str_app_inv_length _ _ _ _ Heq ltac:(lia)) as [-> Htail].
      destruct (separator_prefix_free _ _ _ _ Hsep' Hsep Htail) as [-> ->].
      f_equal. apply IH. exact Hrest'.
Qed.

(** C10. [textToLines] returns the reference it was given and changes that
    object in place: [text] becomes a string (the empty string when it was
    falsy, the result of [toString] when it was not a string), [lines] that
    string cut at its separators (a line feed, or [<br] in either case, white
    space, an optional [/] and [>]), and nothing else changes in the heap.
    Called with [null] or [undefined] it returns a new object whose [text]
    is the empty string and whose [lines] is the one-element list holding
    the empty string. *)
Theorem textToLines_spec (a : ref_arg) (h : heap) :
  let l := (textToLines a h).1 in
  let h' := (textToLines a h).2 in
  let o := match a with ARef l0 => h !!! l0 | _ => ∅ end in
  (* the same reference, or a new object *)
  match a with ARef l0 => l = l0 | _ => h !! l = None end
  ∧ (∀ l', l' ≠ l → h' !! l' = h !! l')
  ∧ ∃ (o' : obj) (t : string) (lines : list string),
      h' !! l = Some o'
      ∧ o' !! "text"%string = Some (JStr t)
      ∧ o' !! "lines"%string = Some (JArr lines)
      ∧ split_at_separators t lines
      ∧ (∀ p : string, p ≠ "text"%string → p ≠ "lines"%string → o' !! p = o !! p)
      ∧ (truthy (get_prop o "text") = false → t = ""%string ∧ lines = [""%string])
      ∧ (∀ s, get_prop o "text" = JStr s → t = s)
      ∧ (truthy (get_prop o "text") = true → t = js_toString (get_prop o "text")).
Proof.
  destruct a as [| |l0]; cbn -[fresh].
  - (* undefined *)
    set (l := fresh (dom h)).
    assert (Hl : h !! l = None) by (apply not_elem_of_dom, is_fresh).
    split; [exact Hl|]. split.
    + intros l' Hne. rewrite !lookup_insert_ne by done. done.
    + rewrite lookup_total_insert_eq. eexists _, ""%string, _.
      rewrite lookup_insert_eq. split; [reflexivity|].
      split; [rewrite lookup_insert_ne by done; apply lookup_insert_eq|].
      split; [apply lookup_insert_eq|].
      split; [apply split_sep_spec|].
      split; [intros p Hp1 Hp2; rewrite !lookup_insert_ne by done; done|].
      repeat split; done.
  - (* null *)
    set (l := fresh (dom h)).
    assert (Hl : h !! l = None) by (apply not_elem_of_dom, is_fresh).
    split; [exact Hl|]. split.
    + intros l' Hne. rewrite !lookup_insert_ne by done. done.
    + rewrite lookup_total_insert_eq. eexists _, ""%string, _.
      rewrite lookup_insert_eq. split; [reflexivity|].
      split; [rewrite lookup_insert_ne by done; apply lookup_insert_eq|].
      split; [apply lookup_insert_eq|].
      split; [apply split_sep_spec|].
      split; [intros p Hp1 Hp2; rewrite !lookup_insert_ne by done; done|].
      repeat split; done.
  - (* an object *)
    split; [done|]. split.
    + intros l' Hne. rewrite lookup_insert_ne by done. done.
    + set (o := h !!! l0).
      eexists _, _, _. rewrite lookup_insert_eq. split; [reflexivity|].
      split; [rewrite lookup_insert_ne by done; apply lookup_insert_eq|].
      split; [apply lookup_insert_eq|].
      split; [apply split_sep_spec|].
      split; [intros p Hp1 Hp2; rewrite !lookup_insert_ne by done; done|].
      split; [|split].
      * intros ->. cbn. done.
      * intros s Hs. rewrite Hs. cbn. destruct s; reflexivity.
      * intros Ht. rewrite Ht. cbn. destruct (get_prop o "text"); reflexivity.
Qed.

(** [textToLines_spec] on an object found in the heap, whose text holds the
    three writings of the separator: the lines are those the split at the
    separators gives, and no others. *)
Lemma textToLines_spec_witness :
  let h : heap :=
    {[ 7 := {[ "text"%string
                 := JStr ("one" +:+ String "010" "two<BR />three<br>");
               "width"%string := JNum 40 ]} ]} in
  ∃ o' lines,
    (textToLines (ARef 7) h).1 = 7
    ∧ (textToLines (ARef 7) h).2 !! 7 = Some o'
    ∧ o' !! "width"%string = Some (JNum 40)
    ∧ o' !! "lines"%string = Some (JArr lines)
    ∧ lines = ["one"; "two"; "three"; ""]%string
    ∧ split_at_separators ("one" +:+ String "010" "two<BR />three<br>") lines.
Proof.
  intros h.
  destruct (textToLines_spec (ARef 7) h)
    as (Hl & _ & o' & t & lines & Ho' & Htext & Hlines & Hsplit & Hother & _ & Hstr & _).
  exists o', lines. split; [exact Hl|]. split; [exact Ho'|].
  assert (Ht : t = ("one" +:+ String "010" "two<BR />three<br>")%string)
    by (apply Hstr; reflexivity).
  subst t.
  split; [rewrite Hother by done; reflexivity|].
  split; [exact Hlines|].
  split; [|exact Hsplit].
  apply (split_at_separators_unique _ _ _ Hsplit). apply split_sep_spec.
Defined.
